(** * Perspective rectification (src/utils/perspective.ts)

    A shallow embedding of the perspective-warping utilities: [dist],
    [getDefaultCorners], [solveMatrix] and [warpPerspective], and of the
    MathML clean-up that follows them in the listing: [sanitizeMathML],
    [latexToMathML] and [copyToWordClipboard], on strings as lists of code
    units.

    The TypeScript code computes on JavaScript numbers.  The embedding is
    written once, over an interface [Number] of the arithmetic the code
    uses, and is read at two instances:
    - [float], IEEE 754 binary64 (what the program runs on), executable;
    - [R], exact real arithmetic (what the specification reasons in).

    Array indices and loop counters that only serve as indices are [nat]
    (index arithmetic is exact: rasters stay far below 2^53 bytes); a
    counter that also enters the arithmetic is injected with [of_index].
    Arrays are lists, read with stdpp's total lookup and written with its
    insert.  The DOM (image decoding, canvas allocation, JPEG encoding) is
    outside the repository: the source image is a [Raster] argument, the two
    [getContext] calls are answered by an [Env], [createImageData] gives a
    raster of the size asked for unless the size is zero, NaN or infinite,
    [getImageData] gives the bytes of the source unless the source has no
    pixel (either call throws then, and the handler ends), and the result
    is the raster handed to [putImageData]. *)

From Stdlib Require Import ZArith List Lia String.
From Stdlib Require Import Reals Lra.
From Stdlib Require Import Floats.
From stdpp Require Import base list.

(** ** The arithmetic of the source *)

Declare Scope num_scope.
Delimit Scope num_scope with num.

Class Number (num : Type) := {
  n0 : num;                         (* the literal 0 *)
  n1 : num;                         (* the literal 1 *)
  n02 : num;                        (* the literal 0.2 *)
  nadd : num -> num -> num;
  nsub : num -> num -> num;
  nmul : num -> num -> num;
  ndiv : num -> num -> num;
  nneg : num -> num;
  nabs : num -> num;                (* Math.abs *)
  nsqrt : num -> num;               (* Math.sqrt *)
  nmax : num -> num -> num;         (* Math.max *)
  nround : num -> num;              (* Math.round *)
  nlt : num -> num -> bool;         (* a < b *)
  nge : num -> num -> bool;         (* a >= b *)
  ngt : num -> num -> bool;         (* a > b *)
  of_index : nat -> num;            (* an integer counter used as a number *)
  to_index : num -> nat             (* an integral number used as a size or index *)
}.

Infix "+" := nadd : num_scope.
Infix "-" := nsub : num_scope.
Infix "*" := nmul : num_scope.
Infix "/" := ndiv : num_scope.
Notation "- a" := (nneg a) : num_scope.
Infix "<?" := nlt : num_scope.
Infix ">=?" := nge (at level 70) : num_scope.
Infix ">?" := ngt (at level 70) : num_scope.

(** [for (let k = lo; k < hi; k++) s = body(k, s)] *)
Definition for_range {S : Type} (lo hi : nat) (body : nat -> S -> S) (s : S) : S :=
  fold_left (fun s k => body k s) (seq lo (hi - lo)) s.

(** [for (let k = hi - 1; k > -1; k--) s = body(k, s)] *)
Definition for_down {S : Type} (hi : nat) (body : nat -> S -> S) (s : S) : S :=
  fold_left (fun s k => body k s) (rev (seq 0 hi)) s.

Abbreviation Vector num := (list num) (only parsing).
Abbreviation Matrix num := (list (list num)) (only parsing).

Section Perspective.
Context {num : Type} {NumOps : Number num}.
Local Open Scope num_scope.

#[global] Instance num_inhabited : Inhabited num := populate n0.

Record Point := mkPoint { px : num; py : num }.


(** [A[r][c]] and [A[r][c] = v].  The rows of the systems built by
    [warpPerspective] are distinct arrays, so updating one row leaves the
    others alone. *)
Definition mget (A : Matrix num) (r c : nat) : num := (A !!! r) !!! c.
Definition mset (A : Matrix num) (r c : nat) (v : num) : Matrix num :=
  <[r := <[c := v]> (A !!! r)]> A.

(** [Math.pow(d, 2)], taken as the product [d * d]. *)
Definition pow2 (d : num) : num := d * d.

Definition dist (p1 p2 : Point) : num :=
  nsqrt (pow2 (px p2 - px p1) + pow2 (py p2 - py p1)).

Definition getDefaultCorners (width height : num) : list Point :=
  let padX := width * n02 in
  let padY := height * n02 in
  [ mkPoint padX padY;
    mkPoint (width - padX) padY;
    mkPoint (width - padX) (height - padY);
    mkPoint padX (height - padY) ].

(** *** solveMatrix *)

(** Lines 31-38: the pivot search in column [i], over rows [i+1 .. n-1]. *)
Definition pivotSearch (A : Matrix num) (n i : nat) : num * nat :=
  for_range (i + 1) n
    (fun k '(maxEl, maxRow) =>
       if nabs (mget A k i) >? maxEl then (nabs (mget A k i), k)
       else (maxEl, maxRow))
    (nabs (mget A i i), i).

(** Lines 40-44: rows [i] and [maxRow] exchange their columns [i .. n-1]. *)
Definition swapColumns (n i maxRow : nat) (A : Matrix num) : Matrix num :=
  for_range i n
    (fun k A =>
       let tmp := mget A maxRow k in
       let A := mset A maxRow k (mget A i k) in
       mset A i k tmp)
    A.

(** Lines 45-47.  The lookups and inserts of this model are those of the
    code on a square [A] and a [B] of as many entries, the shape of the
    one call of [solveMatrix] (line 124, eight rows of eight and eight
    right-hand sides): there no read is past the end and no write grows an
    array.  On other shapes JavaScript reads [undefined] and extends the
    array; statements about the solver's values carry the shape as a
    hypothesis. *)
Definition swapEntries (i maxRow : nat) (B : Vector num) : Vector num :=
  let tmp := B !!! maxRow in
  let B := <[maxRow := B !!! i]> B in
  <[i := tmp]> B.

(** Lines 50-58: row [k] takes [c] times row [i], from column [i] on. *)
Definition eliminateRow (n i k : nat) (AB : Matrix num * Vector num) : Matrix num * Vector num :=
  let '(A, B) := AB in
  let c := - mget A k i / mget A i i in
  let A :=
    for_range i n
      (fun j A =>
         if Nat.eqb i j then mset A k j n0
         else mset A k j (mget A k j + c * mget A i j))
      A in
  let B := <[k := B !!! k + c * B !!! i]> B in
  (A, B).

(** The body of the outer loop, lines 31-59. *)
Definition eliminationStep (n i : nat) (AB : Matrix num * Vector num) : Matrix num * Vector num :=
  let '(A, B) := AB in
  let '(_, maxRow) := pivotSearch A n i in
  let A := swapColumns n i maxRow A in
  let B := swapEntries i maxRow B in
  for_range (i + 1) n (eliminateRow n i) (A, B).

Definition forwardElimination (n : nat) (AB : Matrix num * Vector num) : Matrix num * Vector num :=
  for_range 0 n (eliminationStep n) AB.

(** Lines 62-69. *)
Definition backSubstitution (n : nat) (A : Matrix num) (B : Vector num) : Vector num :=
  for_down n
    (fun i x =>
       let sum := for_range (i + 1) n (fun j sum => sum + mget A i j * x !!! j) n0 in
       <[i := (B !!! i - sum) / mget A i i]> x)
    (replicate n n0).

Definition solveMatrix (A : Matrix num) (B : Vector num) : Vector num :=
  let n := length A in
  let '(A, B) := forwardElimination n (A, B) in
  backSubstitution n A B.

(** *** warpPerspective *)

(** An RGBA raster, row-major, four bytes per pixel (an [ImageData]). *)
Record Raster := mkRaster { width : nat; height : nat; data : list Z }.

(** What the page answers to the two [getContext('2d')] calls. *)
Record Env := mkEnv { canvasContext : bool; tempContext : bool }.

(** How the handler ends.  The two exceptions are thrown inside [onload]:
    the promise is then neither resolved nor rejected. *)
Inductive Outcome :=
| Resolved (r : Raster)          (* the raster given to [putImageData] *)
| Rejected (reason : string)     (* [reject(reason)] *)
| TypeError                      (* [srcPoints[i].x] with [srcPoints[i]] undefined *)
| NoImageData.                   (* [createImageData] (line 127) or
                                    [getImageData] (line 137) throws *)

#[global] Instance point_inhabited : Inhabited Point := populate (mkPoint n0 n0).

(** Reading a byte of a typed array; an index past its end reads
    [undefined], which a [Uint8ClampedArray] stores as 0. *)
Definition byteAt (d : list Z) (i : nat) : Z := default 0%Z (d !! i).

(** Lines 109-122: two rows and two right-hand sides per correspondence. *)
Definition homographySystem (srcPoints dstPoints : list Point) : Matrix num * Vector num :=
  for_range 0 4
    (fun i '(A, B) =>
       let sx := px (srcPoints !!! i) in
       let sy := py (srcPoints !!! i) in
       let dx := px (dstPoints !!! i) in
       let dy := py (dstPoints !!! i) in
       let A := A ++ [[dx; dy; n1; n0; n0; n0; - dx * sx; - dy * sx]] in
       let A := A ++ [[n0; n0; n0; dx; dy; n1; - dx * sy; - dy * sy]] in
       let B := B ++ [sx] in
       let B := B ++ [sy] in
       (A, B))
    ([], []).

(** [ctx.createImageData(w, h).data]: transparent black.  The call throws
    when a size is zero (an IndexSizeError) and when it is NaN or infinite;
    read through [to_index] these are the sizes 0.  A raster too large for
    the memory of the platform is not modelled. *)
Definition createImageData (w h : nat) : option (list Z) :=
  if (w =? 0)%nat || (h =? 0)%nat then None
  else Some (replicate (4 * (w * h)) 0%Z).

(** [tempCtx.getImageData(0, 0, img.width, img.height).data] of line 137,
    the image having been drawn on the temporary canvas: the bytes of the
    image.  The call throws (an IndexSizeError) when the width or the height
    is zero. *)
Definition getImageData (img : Raster) : option (list Z) :=
  if (width img =? 0)%nat || (height img =? 0)%nat then None
  else Some (data img).

(** Lines 142-144: [for (let i = 0; i < data.length; i += 4)]; the
    counter is [i = 4 * t]. *)
Definition fillWhite (data : list Z) : list Z :=
  for_range 0 ((length data + 3) / 4)
    (fun t data =>
       let i := (4 * t)%nat in
       let data := <[i := 255%Z]> data in
       let data := <[(i + 1)%nat := 255%Z]> data in
       let data := <[(i + 2)%nat := 255%Z]> data in
       <[(i + 3)%nat := 255%Z]> data)
    data.

(** Lines 148-163: the body of the pixel loop at destination [(x, y)]. *)
Definition mapPixel (H : Vector num) (srcData : list Z) (srcW srcH maxWidth : nat)
    (y x : nat) (data : list Z) : list Z :=
  let denom := H !!! 6%nat * of_index x + H !!! 7%nat * of_index y + n1 in
  let u := (H !!! 0%nat * of_index x + H !!! 1%nat * of_index y + H !!! 2%nat) / denom in
  let v := (H !!! 3%nat * of_index x + H !!! 4%nat * of_index y + H !!! 5%nat) / denom in
  let srcX := nround u in
  let srcY := nround v in
  if (srcX >=? n0) && (srcX <? of_index srcW) && (srcY >=? n0) && (srcY <? of_index srcH)
  then
    let dstIdx := ((y * maxWidth + x) * 4)%nat in
    let srcIdx := ((to_index srcY * srcW + to_index srcX) * 4)%nat in
    let data := <[dstIdx := byteAt srcData srcIdx]> data in
    let data := <[(dstIdx + 1)%nat := byteAt srcData (srcIdx + 1)]> data in
    let data := <[(dstIdx + 2)%nat := byteAt srcData (srcIdx + 2)]> data in
    <[(dstIdx + 3)%nat := byteAt srcData (srcIdx + 3)]> data
  else data.

(** Lines 146-165. *)
Definition pixelLoop (H : Vector num) (srcData : list Z) (srcW srcH maxWidth maxHeight : nat)
    (data : list Z) : list Z :=
  for_range 0 maxHeight
    (fun y data => for_range 0 maxWidth (mapPixel H srcData srcW srcH maxWidth y) data)
    data.

(** Lines 86-92, the size of the destination raster. *)
Definition maxWidthOf (srcPoints : list Point) : num :=
  let widthTop := dist (srcPoints !!! 0%nat) (srcPoints !!! 1%nat) in
  let widthBottom := dist (srcPoints !!! 3%nat) (srcPoints !!! 2%nat) in
  nround (nmax widthTop widthBottom).

Definition maxHeightOf (srcPoints : list Point) : num :=
  let heightLeft := dist (srcPoints !!! 0%nat) (srcPoints !!! 3%nat) in
  let heightRight := dist (srcPoints !!! 1%nat) (srcPoints !!! 2%nat) in
  nround (nmax heightLeft heightRight).

(** Lines 102-107. *)
Definition dstPointsOf (maxWidth maxHeight : num) : list Point :=
  [ mkPoint n0 n0;
    mkPoint maxWidth n0;
    mkPoint maxWidth maxHeight;
    mkPoint n0 maxHeight ].

(** Lines 102-124: the coefficients [H] of the map from destination to source. *)
Definition homography (srcPoints : list Point) : Vector num :=
  let dstPoints := dstPointsOf (maxWidthOf srcPoints) (maxHeightOf srcPoints) in
  let '(A, B) := homographySystem srcPoints dstPoints in
  solveMatrix A B.

(** The [onload] handler, lines 84-169.  [maxWidth] and [maxHeight] are
    results of [Math.round]; as sizes, loop bounds and index factors they
    are read through [to_index].  The steps come in the order of the code:
    the test of the first context (line 99), the system (line 124),
    [createImageData] (line 127), the test of the second context
    (line 135), [getImageData] (line 137), the fill and the pixel loop. *)
Definition warpPerspective (env : Env) (img : Raster) (srcPoints : list Point) : Outcome :=
  if (length srcPoints <? 4)%nat then TypeError else
  let maxWidth := maxWidthOf srcPoints in
  let maxHeight := maxHeightOf srcPoints in
  if negb (canvasContext env) then Rejected "No context" else
  let H := homography srcPoints in
  match createImageData (to_index maxWidth) (to_index maxHeight) with
  | None => NoImageData
  | Some imgData =>
      if negb (tempContext env) then Rejected "No temp context" else
      match getImageData img with
      | None => NoImageData
      | Some srcData =>
          let srcW := img.(width) in
          let srcH := img.(height) in
          let data := fillWhite imgData in
          let data :=
            pixelLoop H srcData srcW srcH (to_index maxWidth) (to_index maxHeight) data in
          Resolved (mkRaster (to_index maxWidth) (to_index maxHeight) data)
      end
  end.

End Perspective.

Arguments Point num : clear implicits.

(** ** The two readings of [Number] *)

(** *** IEEE 754 binary64 *)

Module F64.
Import PrimFloat.

Definition of_nat (n : nat) : float := of_uint63 (Uint63.of_Z (Z.of_nat n)).

Definition of_Z (z : Z) : float :=
  if (z <? 0)%Z then (- of_uint63 (Uint63.of_Z (- z)))%float
  else of_uint63 (Uint63.of_Z z).

(** The integer part of a finite float, towards zero; 0 for NaN and the
    infinities (the conversion of a number to a canvas size). *)
Definition trunc (f : float) : Z :=
  match Prim2SF f with
  | S754_finite s m e =>
      let a := Z.shiftl (Z.pos m) e in
      if s then (- a)%Z else a
  | _ => 0%Z
  end.

(** [floor (f + 1/2)] computed on the exact value [m * 2^e]. *)
Definition nearest (f : float) : Z :=
  match Prim2SF f with
  | S754_finite s m e =>
      let v := if s then Z.neg m else Z.pos m in
      if (0 <=? e)%Z then (v * 2 ^ e)%Z
      else ((2 * v + 2 ^ (- e)) / 2 ^ (1 - e))%Z
  | _ => 0%Z
  end.

Definition two52 : float := 4503599627370496%float.

(** [Math.round]: the nearest integer, a tie going up; NaN, the
    infinities and numbers from 2^52 on (all integral) are returned as
    they are.  The sign of a zero result is not tracked. *)
Definition round (f : float) : float :=
  if (abs f <? two52)%float then of_Z (nearest f) else f.

(** [Math.max] of two numbers. *)
Definition max (a b : float) : float :=
  if is_nan a then a
  else if is_nan b then b
  else if (a <? b)%float then b
  else if (b <? a)%float then a
  else if is_zero a then (a + b)%float
  else a.

End F64.

#[global] Instance float_number : Number float := {|
  n0 := 0%float;
  n1 := 1%float;
  n02 := 0x1.999999999999ap-3%float;   (* the double nearest to 0.2 *)
  nadd := PrimFloat.add;
  nsub := PrimFloat.sub;
  nmul := PrimFloat.mul;
  ndiv := PrimFloat.div;
  nneg := PrimFloat.opp;
  nabs := PrimFloat.abs;
  nsqrt := PrimFloat.sqrt;
  nmax := F64.max;
  nround := F64.round;
  nlt := PrimFloat.ltb;
  nge := fun a b => PrimFloat.leb b a;
  ngt := fun a b => PrimFloat.ltb b a;
  of_index := F64.of_nat;
  to_index := fun f => Z.to_nat (F64.trunc f)
|}.

(** *** Exact real arithmetic *)

(** The largest integer not above [r]. *)
Definition Rfloor (r : R) : Z := (up r - 1)%Z.

#[global] Instance real_number : Number R := {|
  n0 := 0%R;
  n1 := 1%R;
  n02 := (2 / 10)%R;
  nadd := Rplus;
  nsub := Rminus;
  nmul := Rmult;
  ndiv := Rdiv;
  nneg := Ropp;
  nabs := Rabs;
  nsqrt := R_sqrt.sqrt;
  nmax := Rmax;
  nround := fun r => IZR (Rfloor (r + / 2));
  nlt := fun a b => if Rlt_dec a b then true else false;
  nge := fun a b => if Rge_dec a b then true else false;
  ngt := fun a b => if Rgt_dec a b then true else false;
  of_index := INR;
  to_index := fun r => Z.to_nat (Rfloor r)
|}.

(** ** Notions the statements use *)

Section Notions.
Context {num : Type} {NumOps : Number num}.

(** [A] has [n] rows of [n] entries. *)
Definition square (n : nat) (A : Matrix num) : Prop :=
  length A = n /\ forall r, r < n -> length (A !!! r) = n.

(** Below the diagonal, the first [i] columns hold the literal 0. *)
Definition lowerZero (n i : nat) (A : Matrix num) : Prop :=
  forall r c, c < i -> c < r -> r < n -> mget A r c = n0.

(** The state of [solveMatrix] at the start of elimination step [i]. *)
Definition stateAt (n i : nat) (A : Matrix num) (B : Vector num) : Matrix num * Vector num :=
  for_range 0 i (eliminationStep n) (A, B).

(** Textbook partial pivoting: the rows [i] and [maxRow] are exchanged
    whole.  [solveMatrixFullSwap] is [solveMatrix] with that exchange in
    place of [swapColumns]. *)
Definition swapRows (i maxRow : nat) (A : Matrix num) : Matrix num :=
  let tmp := A !!! maxRow in
  let A := <[maxRow := A !!! i]> A in
  <[i := tmp]> A.

Definition eliminationStepFullSwap (n i : nat) (AB : Matrix num * Vector num)
    : Matrix num * Vector num :=
  let '(A, B) := AB in
  let '(_, maxRow) := pivotSearch A n i in
  let A := swapRows i maxRow A in
  let B := swapEntries i maxRow B in
  for_range (i + 1) n (eliminateRow n i) (A, B).

Definition solveMatrixFullSwap (A : Matrix num) (B : Vector num) : Vector num :=
  let n := length A in
  let '(A, B) := for_range 0 n (eliminationStepFullSwap n) (A, B) in
  backSubstitution n A B.

(** The sum of lines 64-67 for row [i], read in the vector [x]. *)
Definition rowSum (n : nat) (A : Matrix num) (i : nat) (x : Vector num) : num :=
  for_range (i + 1) n (fun j sum => (sum + mget A i j * x !!! j)%num) n0.


(** The rounded source coordinates of destination pixel [(x, y)] and the
    bounds test of line 155. *)
Definition sourceX (H : Vector num) (x y : nat) : num :=
  nround ((H !!! 0%nat * of_index x + H !!! 1%nat * of_index y + H !!! 2%nat) /
          (H !!! 6%nat * of_index x + H !!! 7%nat * of_index y + n1))%num.

Definition sourceY (H : Vector num) (x y : nat) : num :=
  nround ((H !!! 3%nat * of_index x + H !!! 4%nat * of_index y + H !!! 5%nat) /
          (H !!! 6%nat * of_index x + H !!! 7%nat * of_index y + n1))%num.

Definition inSource (srcW srcH : nat) (srcX srcY : num) : bool :=
  (srcX >=? n0)%num && (srcX <? of_index srcW)%num &&
  (srcY >=? n0)%num && (srcY <? of_index srcH)%num.

(** Channel [c] of destination pixel [(x, y)] once the pixel loop has
    passed it: the source byte when the test holds, else what was there. *)
Definition sampled (H : Vector num) (srcData : list Z) (srcW srcH : nat)
    (x y c : nat) (old : Z) : Z :=
  if inSource srcW srcH (sourceX H x y) (sourceY H x y)
  then byteAt srcData ((to_index (sourceY H x y) * srcW + to_index (sourceX H x y)) * 4 + c)
  else old.

End Notions.

(** *** Binary64 notions and examples *)

(** NaN or an infinity. *)
Definition nonFinite (x : float) : bool :=
  match Prim2SF x with
  | S754_nan | S754_infinity _ => true
  | _ => false
  end.

(** Rows below [i] are NaN from the diagonal on, and from column [i'] on. *)
Definition nanBlock (n i i' : nat) (AB : Matrix float * Vector float) : Prop :=
  (forall r j, (i < r < n)%nat -> (j < n)%nat -> (r <= j \/ i' <= j)%nat ->
     mget AB.1 r j = PrimFloat.nan) /\
  (forall r, (i < r < n)%nat -> AB.2 !!! r = PrimFloat.nan).





Definition image2x2 : Raster :=
  mkRaster 2 2 [10; 20; 30; 255; 40; 50; 60; 255; 70; 80; 90; 255; 100; 110; 120; 255]%Z.

(** A transparent black image of 64 by 32 pixels. *)
Definition blackImage : Raster := mkRaster 64 32 (replicate (4 * (64 * 32)) 0%Z).

(** The 2 by 2 square, four collinear corners, a quadrilateral with
    [p1 = p3], and the quadrilateral of the 200 by 100 scenario. *)
Definition squareQuad : list (Point float) :=
  [mkPoint 0 0; mkPoint 2 0; mkPoint 2 2; mkPoint 0 2]%float.



Definition scenarioQuad : list (Point float) :=
  [mkPoint 20 10; mkPoint 180 10; mkPoint 190 90; mkPoint 10 90]%float.

(** Three collinear corners, [p0], [p1] and [p2]. *)
Definition threeCollinearQuad : list (Point float) :=
  [mkPoint 0 0; mkPoint 50 0; mkPoint 100 0; mkPoint 0 50]%float.

(** Four equal corners; a square of side 1/4; a quadrilateral with two
    sides of length 2^665, whose square is beyond the largest number; and
    one whose corners [p1], [p2] and [p3] are off one line by 2^-51. *)
Definition equalQuad : list (Point float) :=
  [mkPoint 5 5; mkPoint 5 5; mkPoint 5 5; mkPoint 5 5]%float.



Definition nearlyCollinearQuad : list (Point float) :=
  [mkPoint 33 14; mkPoint 0 24; mkPoint 43 13; mkPoint 0x1p-51 24]%float.

(** The rectangle of [w] by [h] pixels, in binary64. *)
Definition rectangle64 (w h : nat) : list (Point float) :=
  [mkPoint 0 0; mkPoint (F64.of_nat w) 0;
   mkPoint (F64.of_nat w) (F64.of_nat h); mkPoint 0 (F64.of_nat h)]%float.

(** [l] and [l'] hold equal numbers (0 and -0 are equal). *)
Fixpoint sameNumbers (l l' : list float) : bool :=
  match l, l' with
  | [], [] => true
  | a :: l, b :: l' => PrimFloat.eqb a b && sameNumbers l l'
  | _, _ => false
  end.

(** *** Exact notions *)

Definition dot (u v : list R) : R := fold_right Rplus 0%R (zip_with Rmult u v).

Definition matVec (A : Matrix R) (x : Vector R) : Vector R :=
  (fun row => dot row x) <$> A.

(** [A x = 0] only for [x = 0]. *)
Definition nonsingular (A : Matrix R) : Prop :=
  forall x, length x = length A ->
    matVec A x = replicate (length A) 0%R -> x = replicate (length A) 0%R.

Fixpoint rsum (n : nat) (f : nat -> R) : R :=
  match n with
  | O => 0%R
  | S n => (rsum n f + f n)%R
  end.

(** Row [r] of [A] times [x], as a sum over the columns. *)
Definition rowDot (n : nat) (A : Matrix R) (r : nat) (x : Vector R) : R :=
  rsum n (fun j => (mget A r j * x !!! j)%R).

(** Exchanging two indices. *)
Definition transpose (i m r : nat) : nat :=
  if decide (r = i) then m else if decide (r = m) then i else r.

(** [nonsingular], row by row. *)
Definition trivialKernel (n : nat) (A : Matrix R) : Prop :=
  forall x, length x = n ->
    (forall r, (r < n)%nat -> rowDot n A r x = 0%R) ->
    forall j, (j < n)%nat -> x !!! j = 0%R.

(** What elimination has established before step [i], relative to the
    system [A0 x = B0] it started from. *)
Definition eliminated (n : nat) (A0 : Matrix R) (B0 : Vector R) (i : nat)
    (AB : Matrix R * Vector R) : Prop :=
  square n AB.1 /\ length AB.2 = n /\ lowerZero n i AB.1 /\
  (forall c, (c < i)%nat -> mget AB.1 c c <> 0%R) /\
  (forall x, (forall r, (r < n)%nat -> rowDot n AB.1 r x = AB.2 !!! r) ->
             forall r, (r < n)%nat -> rowDot n A0 r x = B0 !!! r) /\
  (forall x, (forall r, (r < n)%nat -> rowDot n AB.1 r x = 0%R) ->
             forall r, (r < n)%nat -> rowDot n A0 r x = 0%R).

(** The corners of the [W] by [H] rectangle, and the identity map. *)
(** The real number a binary64 number stands for ([m * 2^e]; 0 for what
    is no number), and the points of a binary64 quadrilateral as real
    points. *)
Definition exactValue (f : float) : R :=
  match Prim2SF f with
  | S754_finite s m e => (IZR (if s then Z.neg m else Z.pos m) * powerRZ 2 e)%R
  | _ => 0%R
  end.

Definition exactPoints (quad : list (Point float)) : list (Point R) :=
  map (fun p => mkPoint (exactValue (px p)) (exactValue (py p))) quad.

Definition rectangle (W H : R) : list (Point R) :=
  [mkPoint 0%R 0%R; mkPoint W 0%R; mkPoint W H; mkPoint 0%R H].

Definition identityCoefficients : Vector R := [1; 0; 0; 0; 1; 0; 0; 0]%R.

(** The operations of [Number] read in [R]. *)
Ltac rnum :=
  cbn [n0 n1 nadd nsub nmul ndiv nneg nabs ngt nlt nge nsqrt nmax nround
       of_index to_index real_number] in *.

(** [exactValue] of binary64 literals, with the mantissas written out. *)
Ltac exact_value :=
  unfold exactValue;
  repeat match goal with
  | |- context [Prim2SF ?f] =>
      let E := fresh in
      eassert (Prim2SF f = _) as E by (vm_compute; reflexivity);
      rewrite E; clear E
  end;
  unfold powerRZ;
  repeat match goal with
  | |- context [Pos.to_nat ?p] =>
      let n := eval vm_compute in (Pos.to_nat p) in
      change (Pos.to_nat p) with n
  end.


(** *** Exact notions of the quadrilateral *)

(** Twice the signed area of the triangle [p], [q], [r]. *)
Definition cross (p q r : Point R) : R :=
  ((px p - px q) * (py r - py q) - (px r - px q) * (py p - py q))%R.

(** The axis-parallel rectangle with corners [(a, b)] and [(c, d)], and the
    affine map onto it from a raster of [W] by [H] pixels. *)
Definition axisParallel (a b c d : R) : list (Point R) :=
  [mkPoint a b; mkPoint c b; mkPoint c d; mkPoint a d].

Definition affineCoefficients (a b c d W H : R) : Vector R :=
  [(c - a) / W; 0; a; 0; (d - b) / H; b; 0; 0]%R.

(** The rectangle of [w] by [h] pixels whose first pixel is [(a, b)], and
    the translation onto it. *)
Definition cropQuad (a b w h : nat) : list (Point R) :=
  axisParallel (INR a) (INR b) (INR a + INR w) (INR b + INR h).

Definition cropCoefficients (a b : nat) : Vector R :=
  [1; 0; INR a; 0; 1; INR b; 0; 0]%R.

(** The map with coefficients [h] sends the destination point [d] to the
    source point [s]: numerators and denominator of lines 148-150 agree
    with [s], and so do the quotients [u] and [v] when [denom] is not 0. *)
Definition mapsTo (h : Vector R) (d s : Point R) : Prop :=
  let denom := (h !!! 6%nat * px d + h !!! 7%nat * py d + 1)%R in
  let numU := (h !!! 0%nat * px d + h !!! 1%nat * py d + h !!! 2%nat)%R in
  let numV := (h !!! 3%nat * px d + h !!! 4%nat * py d + h !!! 5%nat)%R in
  numU = (px s * denom)%R /\ numV = (py s * denom)%R /\
  (denom <> 0%R -> (numU / denom)%R = px s /\ (numV / denom)%R = py s).

(** A strictly convex quadrilateral, its corners in order: the four turns
    have one sign. *)
Definition convexQuad (p0 p1 p2 p3 : Point R) : Prop :=
  (0 < cross p3 p0 p1 /\ 0 < cross p0 p1 p2 /\
   0 < cross p1 p2 p3 /\ 0 < cross p2 p3 p0)%R \/
  (cross p3 p0 p1 < 0 /\ cross p0 p1 p2 < 0 /\
   cross p1 p2 p3 < 0 /\ cross p2 p3 p0 < 0)%R.

(** The quotients of lines 149-150 at destination pixel [(x, y)]. *)
Definition denomAt (H : Vector R) (x y : nat) : R :=
  (H !!! 6%nat * INR x + H !!! 7%nat * INR y + 1)%R.

Definition uAt (H : Vector R) (x y : nat) : R :=
  ((H !!! 0%nat * INR x + H !!! 1%nat * INR y + H !!! 2%nat) / denomAt H x y)%R.

Definition vAt (H : Vector R) (x y : nat) : R :=
  ((H !!! 3%nat * INR x + H !!! 4%nat * INR y + H !!! 5%nat) / denomAt H x y)%R.

(** ** The resize fields of the scanner (src/unnamed/part_000) *)

Inductive Dim := DimW | DimH.     (* the dimension typed into: 'w' or 'h' *)

Section Resize.
Context {num : Type} {NumOps : Number num}.
Local Open Scope num_scope.

(** The four pieces of state behind the two fields and the lock. *)
Record ResizeState := mkResizeState {
  resizeW : num;
  resizeH : num;
  aspectRatio : num;
  lockAspectRatio : bool
}.

(** [isNaN(val)]: NaN is the one number that is not [>=] itself. *)
Definition isNaN (val : num) : bool := negb (val >=? val).

(** Lines 171-175 of [processWarp]: the fields start at the size of the
    warped image. *)
Definition initResize (imgWidth imgHeight : num) (st : ResizeState) : ResizeState :=
  mkResizeState imgWidth imgHeight (imgWidth / imgHeight) (lockAspectRatio st).

(** Lines 180-194. *)
Definition handleResizeChange (dim : Dim) (val : num) (st : ResizeState) : ResizeState :=
  if isNaN val || (val <? n1) then st else
  match dim with
  | DimW =>
      let st := mkResizeState val (resizeH st) (aspectRatio st) (lockAspectRatio st) in
      if lockAspectRatio st
      then mkResizeState (resizeW st) (nround (val / aspectRatio st))
             (aspectRatio st) (lockAspectRatio st)
      else st
  | DimH =>
      let st := mkResizeState (resizeW st) val (aspectRatio st) (lockAspectRatio st) in
      if lockAspectRatio st
      then mkResizeState (nround (val * aspectRatio st)) (resizeH st)
             (aspectRatio st) (lockAspectRatio st)
      else st
  end.

End Resize.

Arguments ResizeState num : clear implicits.

(** ** MathML clean-up: sanitizeMathML, latexToMathML, copyToWordClipboard *)

(** A JavaScript string is the list of its UTF-16 code units. *)
Abbreviation JSString := (list N) (only parsing).

(** An ASCII literal of the source. *)
Definition lit (s : string) : JSString :=
  map Ascii.N_of_ascii (list_ascii_of_string s).

Definition quote : N := 34%N.      (* the double quote *)
Definition amp : N := 38%N.        (* & *)
Definition semi : N := 59%N.       (* ; *)

(** [pat] is a prefix of [s]. *)
Fixpoint startsWith (pat s : JSString) : bool :=
  match pat, s with
  | [], _ => true
  | p :: pat, c :: s => (p =? c)%N && startsWith pat s
  | _ :: _, [] => false
  end.

(** [s.includes(pat)] *)
Fixpoint includes (pat s : JSString) : bool :=
  startsWith pat s ||
  match s with
  | [] => false
  | _ :: t => includes pat t
  end.

(** [s.replace(pat, rep)] for a string [pat]: the first occurrence only.
    ([rep] is taken literally; the replacement of line 200 holds no [$].) *)
Fixpoint replaceFirst (pat rep s : JSString) : JSString :=
  if startsWith pat s then rep ++ drop (length pat) s
  else match s with
       | [] => []
       | c :: t => c :: replaceFirst pat rep t
       end.

(** Lines 205-220.  The keys are distinct. *)
Definition entityMap : list (JSString * JSString) :=
  [ (lit "&nbsp;", lit "&#160;");
    (lit "&thinsp;", lit "&#8201;");
    (lit "&ensp;", lit "&#8194;");
    (lit "&emsp;", lit "&#8195;");
    (lit "&af;", lit "&#8289;");
    (lit "&it;", lit "&#8290;");
    (lit "&ApplyFunction;", lit "&#8289;");
    (lit "&InvisibleTimes;", lit "&#8290;");
    (lit "&lt;", lit "&#60;");
    (lit "&gt;", lit "&#62;");
    (lit "&amp;", lit "&#38;");
    (lit "&quot;", lit "&#34;");
    (lit "&apos;", lit "&#39;") ].

(** [map[key]]: the value of an own property, or [undefined]. *)
Fixpoint lookupEntity (key : JSString) (map : list (JSString * JSString)) : option JSString :=
  match map with
  | [] => None
  | (k, v) :: map => if decide (k = key) then Some v else lookupEntity key map
  end.

(** Line 225, [entityMap[match] || match].  No value is the empty string,
    and a match starts with [&], which no inherited property name does. *)
Definition entity (m : JSString) : JSString :=
  default m (lookupEntity m entityMap).

(** [[a-zA-Z]] *)
Definition isLetter (c : N) : bool :=
  ((97 <=? c) && (c <=? 122) || (65 <=? c) && (c <=? 90))%N.

(** The longest run of letters at the head of [s], and what follows it. *)
Fixpoint letters (s : JSString) : JSString * JSString :=
  match s with
  | c :: t =>
      if isLetter c then let '(l, r) := letters t in (c :: l, r) else ([], s)
  | [] => ([], [])
  end.

(** A match of [/&([a-zA-Z]+);/] at the head of [s]: the matched text and
    what follows it.  The run of letters is greedy, and a shorter run is
    followed by a letter, never by [;]. *)
Definition matchEntity (s : JSString) : option (JSString * JSString) :=
  match s with
  | c :: t =>
      if (c =? amp)%N then
        match letters t with
        | ((_ :: _) as l, d :: r) =>
            if (d =? semi)%N then Some (c :: l ++ [d], r) else None
        | _ => None
        end
      else None
  | [] => None
  end.

(** Line 224, [s.replace(/&([a-zA-Z]+);/g, entity)]: the matches are found
    from left to right and do not overlap.  [skip] counts the code units of
    the current match that are still to be passed. *)
Fixpoint replaceEntitiesFrom (skip : nat) (s : JSString) : JSString :=
  match s with
  | [] => []
  | c :: t =>
      match skip with
      | S k => replaceEntitiesFrom k t
      | O =>
          match matchEntity s with
          | Some (m, _) => entity m ++ replaceEntitiesFrom (length m - 1) t
          | None => c :: replaceEntitiesFrom 0 t
          end
      end
  end.

Definition replaceEntities (s : JSString) : JSString := replaceEntitiesFrom 0 s.

Definition mathTag : JSString := lit "<math".

(** The namespace attribute of lines 199-200. *)
Definition xmlns : JSString :=
  lit "xmlns=" ++ [quote] ++ lit "http://www.w3.org/1998/Math/MathML" ++ [quote].

(** Lines 196-229. *)
Definition sanitizeMathML (mathml : JSString) : JSString :=
  let cleanMath := mathml in
  let cleanMath :=
    if negb (includes xmlns cleanMath)
    then replaceFirst mathTag (mathTag ++ lit " " ++ xmlns) cleanMath
    else cleanMath in
  replaceEntities cleanMath.

(** Lines 234-249.  [renderToString] is temml's: its result, or [None]
    when it throws. *)
Definition latexToMathML (renderToString : JSString -> option JSString)
    (latex : JSString) : JSString :=
  match renderToString latex with
  | Some mathml => sanitizeMathML mathml
  | None => []
  end.

(** The two parts of the clipboard item of lines 280-286. *)
Record ClipboardItem := mkClipboardItem { textHtml : JSString; textPlain : JSString }.

Inductive Copy :=
| Written (item : ClipboardItem)   (* the item given to [navigator.clipboard.write] *)
| Thrown (message : string).       (* [throw new Error(message)] *)

Definition newline : N := 10%N.

(** Lines 260-278, before and after [${mathml}]. *)
Definition htmlHead : JSString :=
  lit "<!DOCTYPE html>" ++ [newline] ++
  lit "<html xmlns:o=" ++ [quote] ++ lit "urn:schemas-microsoft-com:office:office" ++ [quote] ++
  lit " xmlns:w=" ++ [quote] ++ lit "urn:schemas-microsoft-com:office:word" ++ [quote] ++
  lit " xmlns=" ++ [quote] ++ lit "http://www.w3.org/TR/REC-html40" ++ [quote] ++ lit ">" ++ [newline] ++
  lit "<head>" ++ [newline] ++
  lit "<meta charset=" ++ [quote] ++ lit "utf-8" ++ [quote] ++ lit ">" ++ [newline] ++
  lit "<title></title>" ++ [newline] ++
  lit "</head>" ++ [newline] ++
  lit "<body>" ++ [newline] ++
  lit "<!--[if gte mso 9]>" ++ [newline] ++
  lit "<xml>" ++ [newline] ++
  lit "<w:WordDocument>" ++ [newline] ++
  lit "<w:View>Print</w:View>" ++ [newline] ++
  lit "<w:Zoom>100</w:Zoom>" ++ [newline] ++
  lit "<w:DoNotOptimizeForBrowser/>" ++ [newline] ++
  lit "</w:WordDocument>" ++ [newline] ++
  lit "</xml>" ++ [newline] ++
  lit "<![endif]-->" ++ [newline].

Definition htmlTail : JSString :=
  [newline] ++ lit "</body>" ++ [newline] ++ lit "</html>".

(** Lines 254-289; an empty string is the only falsy one. *)
Definition copyToWordClipboard (mathml originalLatex : JSString) : Copy :=
  match mathml with
  | [] => Thrown "No MathML to copy"
  | _ => Written (mkClipboardItem (htmlHead ++ mathml ++ htmlTail) originalLatex)
  end.

(** *** Notions of the proofs about entities *)

(** What an entity and its replacement are made of: letters, digits and [#]. *)
Definition wordChar (c : N) : bool :=
  (isLetter c || (48 <=? c) && (c <=? 57) || (c =? 35))%N.

(** [e] is [&], word characters, [;]. *)
Definition entityText (e : JSString) : bool :=
  match e with
  | c :: t =>
      (c =? amp)%N &&
      match rev t with
      | d :: w => (d =? semi)%N && forallb wordChar w
      | [] => false
      end
  | [] => false
  end.

(** [pat] holds no [&] and no [;], and a character that no entity holds. *)
Definition plainPattern (pat : JSString) : bool :=
  forallb (fun c => negb (c =? amp)%N && negb (c =? semi)%N) pat &&
  existsb (fun c => negb (wordChar c)) pat.

(** The keys of [entityMap]. *)
Definition entityNames : list JSString := map fst entityMap.

(** * Proofs *)

(** ** Loops *)

Lemma for_range_empty {S : Type} (lo hi : nat) (body : nat -> S -> S) (s : S) :
  hi <= lo -> for_range lo hi body s = s.
Proof.
  intros Hle. unfold for_range. replace (hi - lo) with 0 by lia. reflexivity.
Qed.

Lemma for_range_snoc {S : Type} (lo hi : nat) (body : nat -> S -> S) (s : S) :
  lo <= hi ->
  for_range lo (Datatypes.S hi) body s = body hi (for_range lo hi body s).
Proof.
  intros Hle. unfold for_range.
  replace (Datatypes.S hi - lo) with (Datatypes.S (hi - lo)) by lia.
  rewrite seq_S, fold_left_app. simpl.
  replace (lo + (hi - lo)) with hi by lia. reflexivity.
Qed.

(** The rule of a counting loop: an invariant [P k s] of the state [s]
    before iteration [k]. *)
Lemma for_range_inv {S : Type} (P : nat -> S -> Prop) (lo hi : nat)
    (body : nat -> S -> S) (s : S) :
  lo <= hi ->
  P lo s ->
  (forall k t, lo <= k < hi -> P k t -> P (Datatypes.S k) (body k t)) ->
  P hi (for_range lo hi body s).
Proof.
  intros Hle Hinit Hstep.
  induction hi as [|hi IH].
  - assert (lo = 0) by lia. subst lo. exact Hinit.
  - destruct (decide (lo = Datatypes.S hi)) as [->|Hne].
    + rewrite for_range_empty by lia. exact Hinit.
    + rewrite for_range_snoc by lia. apply Hstep; [lia|].
      apply IH; [lia|]. intros k t Hk. apply Hstep. lia.
Qed.

Lemma for_down_S {S : Type} (hi : nat) (body : nat -> S -> S) (s : S) :
  for_down (Datatypes.S hi) body s = for_down hi body (body hi s).
Proof.
  unfold for_down. rewrite seq_S, rev_app_distr. reflexivity.
Qed.

(** The rule of a loop that counts down: [P k s] holds of the state once
    the iterations [hi-1 .. k] are done. *)
Lemma for_down_inv {S : Type} (P : nat -> S -> Prop) (hi : nat)
    (body : nat -> S -> S) (s : S) :
  P hi s ->
  (forall k t, k < hi -> P (Datatypes.S k) t -> P k (body k t)) ->
  P 0 (for_down hi body s).
Proof.
  revert s. induction hi as [|hi IH]; intros s Hinit Hstep.
  - exact Hinit.
  - rewrite for_down_S. apply IH.
    + apply Hstep; [lia | exact Hinit].
    + intros k t Hk. apply Hstep. lia.
Qed.

(** ** Matrices as lists of rows *)

Section Arrays.
Context {num : Type} {NumOps : Number num}.
Implicit Types (A : Matrix num) (B : Vector num).

Lemma square_mset n A r c v : square n A -> square n (mset A r c v).
Proof.
  intros [Hlen Hrows]. unfold square, mset. split.
  - rewrite length_insert. exact Hlen.
  - intros r' Hr'. destruct (decide (r = r')) as [->|Hne].
    + rewrite list_lookup_total_insert_eq by lia.
      rewrite length_insert. auto.
    + rewrite list_lookup_total_insert_ne by done. auto.
Qed.

Lemma mget_mset n A r c v r' c' :
  square n A -> r < n -> c < n ->
  mget (mset A r c v) r' c' =
  if decide (r = r' /\ c = c') then v else mget A r' c'.
Proof.
  intros [Hlen Hrows] Hr Hc. unfold mget, mset.
  destruct (decide (r = r')) as [->|Hne].
  - rewrite list_lookup_total_insert_eq by lia.
    destruct (decide (c = c')) as [->|Hne].
    + rewrite list_lookup_total_insert_eq by (rewrite Hrows; lia).
      rewrite decide_True; done.
    + rewrite list_lookup_total_insert_ne by done.
      rewrite decide_False; [done | intros [_ ?]; done].
  - rewrite list_lookup_total_insert_ne by done.
    rewrite decide_False; [done | intros [? _]; done].
Qed.

Lemma vector_ext (u v : list num) n :
  length u = n -> length v = n ->
  (forall i, i < n -> u !!! i = v !!! i) -> u = v.
Proof.
  intros Hu Hv Heq. apply (list_eq_same_length _ _ n); [done..|].
  intros i a b Hi Ha Hb.
  apply list_lookup_total_correct in Ha, Hb. rewrite <- Ha, <- Hb. auto.
Qed.

Lemma matrix_ext n A A' :
  square n A -> square n A' ->
  (forall r c, r < n -> c < n -> mget A r c = mget A' r c) -> A = A'.
Proof.
  intros [Hlen Hrows] [Hlen' Hrows'] Heq.
  apply (list_eq_same_length _ _ n); [done..|].
  intros r u v Hr Hu Hv.
  apply list_lookup_total_correct in Hu, Hv. subst u v.
  apply (vector_ext _ _ n); auto.
  intros c Hc. apply Heq; done.
Qed.

(** *** What each loop of [solveMatrix] leaves behind, entry by entry *)

Lemma pivotSearch_range A n i :
  i < n -> i <= (pivotSearch A n i).2 < n.
Proof.
  intros Hi. unfold pivotSearch.
  apply (for_range_inv (fun _ (st : num * nat) => i <= st.2 < n));
    [lia | simpl; lia |].
  intros k [maxEl maxRow] Hk Hst. simpl in *.
  destruct (ngt _ _); simpl; lia.
Qed.

Lemma swapColumns_spec n i m A :
  square n A -> i < n -> m < n ->
  square n (swapColumns n i m A) /\
  forall r c, r < n -> c < n ->
    mget (swapColumns n i m A) r c =
    if decide (i <= c) then
      if decide (r = i) then mget A m c
      else if decide (r = m) then mget A i c
      else mget A r c
    else mget A r c.
Proof.
  intros Hsq Hi Hm. unfold swapColumns.
  pose (P := fun (k : nat) (A' : Matrix num) =>
    square n A' /\
    forall r c, r < n -> c < n ->
      mget A' r c =
      if decide (i <= c < k) then
        if decide (r = i) then mget A m c
        else if decide (r = m) then mget A i c
        else mget A r c
      else mget A r c).
  match goal with |- context [for_range i n ?body A] =>
    assert (Hinv : P n (for_range i n body A)) end.
  { apply (for_range_inv P); [lia| |]; unfold P.
    - split; [done|]. intros r c _ _. rewrite decide_False by lia. done.
    - intros k A' Hk [Hsq' Hval]. simpl. split.
      + by do 2 apply square_mset.
      + intros r c Hr Hc.
        erewrite mget_mset; [|by apply square_mset|lia..].
        erewrite mget_mset; [|done|lia..].
        rewrite !Hval by lia.
        repeat case_decide; destruct_and?; subst; try lia; try done. }
  destruct Hinv as [Hsq' Hval]. split; [done|].
  intros r c Hr Hc. rewrite Hval by done.
  repeat case_decide; try lia; done.
Qed.
Lemma eliminateRow_spec n i k A B :
  square n A -> i < n -> k < n -> i <> k ->
  let c := (- mget A k i / mget A i i)%num in
  let AB' := eliminateRow n i k (A, B) in
  square n AB'.1 /\
  (forall r j, r < n -> j < n ->
     mget AB'.1 r j =
     if decide (r = k /\ i <= j) then
       if decide (j = i) then n0 else (mget A k j + c * mget A i j)%num
     else mget A r j) /\
  AB'.2 = <[k := (B !!! k + c * B !!! i)%num]> B.
Proof.
  intros Hsq Hi Hk Hik c. unfold eliminateRow. simpl. fold c.
  pose (P := fun (j' : nat) (A' : Matrix num) =>
    square n A' /\
    forall r j, r < n -> j < n ->
      mget A' r j =
      if decide (r = k /\ i <= j < j') then
        if decide (j = i) then n0 else (mget A k j + c * mget A i j)%num
      else mget A r j).
  match goal with |- context [for_range i n ?body A] =>
    assert (Hinv : P n (for_range i n body A)) end.
  { apply (for_range_inv P); [lia| |]; unfold P.
    - split; [done|]. intros r j _ _. rewrite decide_False by lia. done.
    - intros j A' Hj [Hsq' Hval]. split.
      + destruct (i =? j); by apply square_mset.
      + intros r j' Hr Hj'. destruct (Nat.eqb_spec i j) as [->|Hne].
        all: erewrite mget_mset; [|done|lia..].
        all: rewrite !Hval by lia.
        all: repeat case_decide; destruct_and?; subst; try lia; try done. }
  destruct Hinv as [Hsq' Hval]. split_and!; [done| |done].
  intros r j Hr Hj. rewrite Hval by done.
  repeat case_decide; destruct_and?; try lia; done.
Qed.

Lemma eliminateRows_spec n i A B :
  square n A -> i < n ->
  let c := fun r => (- mget A r i / mget A i i)%num in
  let AB' := for_range (i + 1) n (eliminateRow n i) (A, B) in
  square n AB'.1 /\
  (forall r j, r < n -> j < n ->
     mget AB'.1 r j =
     if decide (i < r /\ i <= j) then
       if decide (j = i) then n0 else (mget A r j + c r * mget A i j)%num
     else mget A r j) /\
  (length B = n ->
   length AB'.2 = n /\
   forall r, r < n ->
     AB'.2 !!! r =
     if decide (i < r) then (B !!! r + c r * B !!! i)%num else B !!! r).
Proof.
  intros Hsq Hi c.
  pose (P := fun (k : nat) (AB' : Matrix num * Vector num) =>
    square n AB'.1 /\
    (forall r j, r < n -> j < n ->
       mget AB'.1 r j =
       if decide ((i < r < k) /\ i <= j) then
         if decide (j = i) then n0 else (mget A r j + c r * mget A i j)%num
       else mget A r j) /\
    (length B = n ->
     length AB'.2 = n /\
     forall r, r < n ->
       AB'.2 !!! r =
       if decide (i < r < k) then (B !!! r + c r * B !!! i)%num else B !!! r)).
  assert (Hinv : P n (for_range (i + 1) n (eliminateRow n i) (A, B))).
  { apply (for_range_inv P); [lia| |]; unfold P.
    - simpl. split_and!; [done| |].
      + intros r j _ _. rewrite decide_False by lia. done.
      + intros HB. split; [done|]. intros r _. rewrite decide_False by lia. done.
    - intros k [A' B'] Hk (Hsq' & HA & HB). simpl in Hsq', HA, HB.
      destruct (eliminateRow_spec n i k A' B' Hsq' Hi) as (Hsq2 & HA2 & HB2);
        [lia..|].
      split_and!; [done| |].
      + intros r j Hr Hj. rewrite HA2 by done. rewrite !HA by lia. unfold c.
        repeat case_decide; destruct_and?; subst; try lia; try done.
      + intros HlenB. destruct (HB HlenB) as [HlenB' HBv].
        rewrite HB2. split; [by rewrite length_insert|].
        intros r Hr. destruct (decide (k = r)) as [->|Hne].
        * rewrite list_lookup_total_insert_eq by lia.
          rewrite !HBv, !HA by lia.
          repeat case_decide; destruct_and?; subst; try lia; try done.
        * rewrite list_lookup_total_insert_ne by done. rewrite HBv by done.
          repeat case_decide; destruct_and?; subst; try lia; try done. }
  destruct Hinv as (Hsq' & HA & HB). split_and!; [done| |].
  - intros r j Hr Hj. rewrite HA by done.
    repeat case_decide; destruct_and?; try lia; done.
  - intros HlenB. destruct (HB HlenB) as [? HBv]. split; [done|].
    intros r Hr. rewrite HBv by done.
    repeat case_decide; destruct_and?; try lia; done.
Qed.

Lemma eliminationStep_unfold n i A B :
  eliminationStep n i (A, B) =
  let m := (pivotSearch A n i).2 in
  for_range (i + 1) n (eliminateRow n i) (swapColumns n i m A, swapEntries i m B).
Proof. unfold eliminationStep. destruct (pivotSearch A n i); reflexivity. Qed.

Lemma eliminationStep_lowerZero n i A B :
  square n A -> i < n -> lowerZero n i A ->
  square n (eliminationStep n i (A, B)).1 /\
  lowerZero n (S i) (eliminationStep n i (A, B)).1.
Proof.
  intros Hsq Hi Hz. rewrite eliminationStep_unfold. simpl.
  pose proof (pivotSearch_range A n i Hi) as Hm.
  set (m := (pivotSearch A n i).2) in *. clearbody m.
  destruct (swapColumns_spec n i m A Hsq Hi) as [Hsq1 HA1]; [lia|].
  destruct (eliminateRows_spec n i _ (swapEntries i m B) Hsq1 Hi)
    as (Hsq2 & HA2 & _).
  split; [done|]. intros r c Hc Hcr Hr.
  rewrite HA2 by lia. rewrite !HA1 by lia.
  repeat case_decide; destruct_and?; subst; try lia; try done.
  all: apply Hz; lia.
Qed.
Lemma stateAt_S n i A B :
  stateAt n (S i) A B = eliminationStep n i (stateAt n i A B).
Proof. unfold stateAt. rewrite for_range_snoc by lia. reflexivity. Qed.

Lemma stateAt_lowerZero n A B i :
  square n A -> i <= n ->
  square n (stateAt n i A B).1 /\ lowerZero n i (stateAt n i A B).1.
Proof.
  intros Hsq. induction i as [|i IH]; intros Hi.
  - split; [exact Hsq|]. intros r c Hc. lia.
  - rewrite stateAt_S. destruct IH as [Hsq' Hz]; [lia|].
    destruct (stateAt n i A B) as [Ai Bi]. simpl in *.
    apply eliminationStep_lowerZero; [done|lia|done].
Qed.

Lemma swapRows_square n i m A :
  square n A -> i < n -> m < n ->
  square n (swapRows i m A) /\
  forall r c, r < n -> c < n ->
    mget (swapRows i m A) r c =
    if decide (r = i) then mget A m c
    else if decide (r = m) then mget A i c
    else mget A r c.
Proof.
  intros [Hlen Hrows] Hi Hm. unfold square, swapRows, mget. simpl.
  split; [split|].
  - by rewrite !length_insert.
  - intros r Hr. destruct (decide (i = r)) as [->|Hir].
    + rewrite list_lookup_total_insert_eq by (rewrite length_insert; lia). auto.
    + rewrite list_lookup_total_insert_ne by done.
      destruct (decide (m = r)) as [->|Hmr].
      * rewrite list_lookup_total_insert_eq by lia. auto.
      * rewrite list_lookup_total_insert_ne by done. auto.
  - intros r c Hr Hc. destruct (decide (i = r)) as [->|Hir].
    + rewrite list_lookup_total_insert_eq by (rewrite length_insert; lia).
      rewrite decide_True; done.
    + rewrite list_lookup_total_insert_ne by done.
      rewrite decide_False by done.
      destruct (decide (m = r)) as [->|Hmr].
      * rewrite list_lookup_total_insert_eq by lia. rewrite decide_True; done.
      * rewrite list_lookup_total_insert_ne by done. rewrite decide_False; done.
Qed.

(** With zeros to the left of column [i] in both rows, exchanging the
    columns from [i] on is exchanging the rows. *)
Lemma swapColumns_swapRows n i m A :
  square n A -> i < n -> i <= m < n -> lowerZero n i A ->
  swapColumns n i m A = swapRows i m A.
Proof.
  intros Hsq Hi Hm Hz.
  destruct (swapColumns_spec n i m A Hsq Hi) as [Hsq1 Hv1]; [lia|].
  destruct (swapRows_square n i m A Hsq Hi) as [Hsq2 Hv2]; [lia|].
  apply (matrix_ext n); [done..|].
  intros r c Hr Hc. rewrite Hv1, Hv2 by done.
  repeat case_decide; subst; try done.
  - destruct (decide (m = i)) as [->|Hne]; [done|].
    rewrite (Hz m c), (Hz i c) by lia. done.
  - rewrite (Hz m c), (Hz i c) by lia. done.
Qed.

Lemma eliminationStepFullSwap_eq n i A B :
  square n A -> i < n -> lowerZero n i A ->
  eliminationStepFullSwap n i (A, B) = eliminationStep n i (A, B).
Proof.
  intros Hsq Hi Hz. unfold eliminationStepFullSwap, eliminationStep.
  pose proof (pivotSearch_range A n i Hi) as Hm.
  destruct (pivotSearch A n i) as [maxEl m]. simpl in Hm.
  rewrite (swapColumns_swapRows n i m A); done.
Qed.

Lemma fullSwap_stateAt n A B i :
  square n A -> i <= n ->
  for_range 0 i (eliminationStepFullSwap n) (A, B) = stateAt n i A B.
Proof.
  intros Hsq. induction i as [|i IH]; intros Hi.
  - reflexivity.
  - rewrite for_range_snoc by lia. rewrite IH by lia. rewrite stateAt_S.
    destruct (stateAt_lowerZero n A B i Hsq) as [Hsq' Hz]; [lia|].
    destruct (stateAt n i A B) as [Ai Bi]. simpl in *.
    apply eliminationStepFullSwap_eq; [done|lia|done].
Qed.

(** C10.  In [solveMatrix] on an [n] by [n] matrix, at the start of every
    elimination step [i] the entries [A[r][c]] with [r >= i] and [c < i] are
    0; so the exchange of the columns [i .. n-1] of the rows [i] and [maxRow]
    is the exchange of the two rows, where [maxRow] is found among the rows
    [i .. n-1], and [solveMatrix] returns what elimination with whole-row
    exchanges returns.  This holds for any arithmetic, floating point
    included. *)
Theorem elimination_zero_block_full_swap n A B :
  square n A ->
  (forall i r c, i <= n -> i <= r < n -> c < i ->
     mget (stateAt n i A B).1 r c = n0) /\
  (forall i, i < n ->
     let Ai := (stateAt n i A B).1 in
     let maxRow := (pivotSearch Ai n i).2 in
     i <= maxRow < n /\ swapColumns n i maxRow Ai = swapRows i maxRow Ai) /\
  solveMatrix A B = solveMatrixFullSwap A B.
Proof.
  intros Hsq. split_and!.
  - intros i r c Hi Hr Hc.
    destruct (stateAt_lowerZero n A B i Hsq Hi) as [_ Hz]. apply Hz; lia.
  - intros i Hi Ai maxRow.
    destruct (stateAt_lowerZero n A B i Hsq) as [Hsq' Hz]; [lia|].
    pose proof (pivotSearch_range Ai n i Hi) as Hm. fold maxRow in Hm.
    split; [done|]. by apply (swapColumns_swapRows n).
  - unfold solveMatrix, solveMatrixFullSwap, forwardElimination.
    destruct Hsq as [Hlen Hrows]. rewrite Hlen.
    rewrite (fullSwap_stateAt n A B n); [reflexivity| by split | lia].
Qed.
End Arrays.

(** C10 read at a 2 by 2 system in binary64. *)
Lemma elimination_zero_block_full_swap_witness :
  solveMatrix [[2; 1]; [4; 3]]%float [3; 7]%float =
  solveMatrixFullSwap [[2; 1]; [4; 3]]%float [3; 7]%float.
Proof.
  apply (elimination_zero_block_full_swap 2).
  split; [reflexivity|].
  intros [|[|r]] Hr; [reflexivity | reflexivity | lia].
Defined.

Lemma for_range_ext {S : Type} (lo hi : nat) (body body' : nat -> S -> S) (s : S) :
  (forall k t, lo <= k < hi -> body k t = body' k t) ->
  for_range lo hi body s = for_range lo hi body' s.
Proof.
  intros Hext. destruct (decide (lo <= hi)) as [Hle|Hgt].
  - apply (for_range_inv (fun k t => t = for_range lo k body' s)); [done| |].
    + by rewrite for_range_empty.
    + intros k t Hk ->. rewrite for_range_snoc by lia. by apply Hext.
  - rewrite !for_range_empty by lia. reflexivity.
Qed.

Section BackSubstitution.
Context {num : Type} {NumOps : Number num}.
Implicit Types (A : Matrix num) (B x : Vector num).

Lemma rowSum_insert n A i x k v :
  k <= i -> rowSum n A i (<[k := v]> x) = rowSum n A i x.
Proof.
  intros Hk. unfold rowSum. apply for_range_ext.
  intros j s Hj. rewrite list_lookup_total_insert_ne by lia. reflexivity.
Qed.

Lemma backSubstitution_spec n A B :
  let x := backSubstitution n A B in
  length x = n /\
  forall i, i < n ->
    x !!! i = ((B !!! i - rowSum n A i x) / mget A i i)%num.
Proof.
  unfold backSubstitution.
  pose (P := fun (k : nat) (x : Vector num) =>
    length x = n /\
    forall i, k <= i < n ->
      x !!! i = ((B !!! i - rowSum n A i x) / mget A i i)%num).
  match goal with |- context [for_down n ?body ?s] =>
    assert (Hinv : P 0 (for_down n body s)) end.
  { apply (for_down_inv P); unfold P.
    - split; [by rewrite length_replicate|]. intros i Hi. lia.
    - intros k x Hk [Hlen Hval]. fold (rowSum n A k x). split.
      + by rewrite length_insert.
      + intros i Hi. rewrite rowSum_insert by lia.
        destruct (decide (k = i)) as [->|Hne].
        * rewrite list_lookup_total_insert_eq by lia. reflexivity.
        * rewrite list_lookup_total_insert_ne by done. apply Hval. lia. }
  destruct Hinv as [Hlen Hval]. split; [done|].
  intros i Hi. apply Hval. lia.
Qed.
End BackSubstitution.

(** ** More on the loops of [solveMatrix], for any arithmetic *)

Section PivotCases.
Context {num : Type} {NumOps : Number num}.

(** Either the pivot search never moved from row [i], and no entry below
    compared greater than [A[i][i]], or its maximum compared greater than
    an earlier one. *)
Lemma pivotSearch_cases (A : Matrix num) n i :
  i < n ->
  let maxEl := (pivotSearch A n i).1 in
  let maxRow := (pivotSearch A n i).2 in
  maxEl = nabs (mget A maxRow i) /\
  ((maxRow = i /\
    forall k, i < k < n -> (nabs (mget A k i) >? maxEl)%num = false) \/
   exists k, (maxEl >? nabs (mget A k i))%num = true).
Proof.
  intros Hi. unfold pivotSearch.
  pose (P := fun (k : nat) (st : num * nat) =>
    st.1 = nabs (mget A st.2 i) /\
    ((st.2 = i /\
      forall k', i < k' < k -> (nabs (mget A k' i) >? st.1)%num = false) \/
     exists k', (st.1 >? nabs (mget A k' i))%num = true)).
  match goal with |- context [for_range (i + 1) n ?body ?s] =>
    assert (Hinv : P n (for_range (i + 1) n body s)) end.
  { apply (for_range_inv P); [lia| |]; unfold P.
    - simpl. split; [done|]. left. split; [done|]. intros k' Hk'. lia.
    - intros k [maxEl maxRow] Hk [Hel Hcases]. simpl in *.
      destruct (nabs (mget A k i) >? maxEl)%num eqn:Hgt; simpl.
      + split; [done|]. right. exists maxRow. by rewrite <- Hel.
      + split; [done|]. destruct Hcases as [[-> Hall]|Hex]; [|by right].
        left. split; [done|]. intros k' Hk'.
        destruct (decide (k' = k)) as [->|Hne]; [done|]. apply Hall. lia. }
  exact Hinv.
Qed.
End PivotCases.

Lemma swapEntries_spec {num : Type} {NumOps : Number num}
    (i m : nat) (B : Vector num) (n : nat) :
  length B = n -> (i < n)%nat -> (m < n)%nat ->
  length (swapEntries i m B) = n /\
  forall r, (r < n)%nat ->
    swapEntries i m B !!! r =
    if decide (r = i) then B !!! m
    else if decide (r = m) then B !!! i
    else B !!! r.
Proof.
  intros HB Hi Hm. unfold swapEntries. cbn zeta. split.
  - by rewrite !length_insert.
  - intros r Hr. destruct (decide (r = i)) as [->|Hri].
    + rewrite list_lookup_total_insert_eq by (rewrite length_insert; lia). done.
    + rewrite list_lookup_total_insert_ne by done.
      destruct (decide (r = m)) as [->|Hrm].
      * rewrite list_lookup_total_insert_eq by lia. done.
      * rewrite list_lookup_total_insert_ne by done. done.
Qed.

Lemma stateAt_length {num : Type} {NumOps : Number num}
    n (A : Matrix num) (B : Vector num) i :
  square n A -> length B = n -> (i <= n)%nat -> length (stateAt n i A B).2 = n.
Proof.
  intros Hsq HB. induction i as [|i IH]; intros Hi; [done|].
  rewrite stateAt_S.
  destruct (stateAt_lowerZero n A B i Hsq) as [Hsq' _]; [lia|].
  specialize (IH ltac:(lia)).
  destruct (stateAt n i A B) as [Ai Bi]. cbn [fst snd] in *.
  rewrite eliminationStep_unfold. cbn zeta.
  pose proof (pivotSearch_range Ai n i ltac:(lia)) as Hm.
  destruct (swapColumns_spec n i (pivotSearch Ai n i).2 Ai Hsq') as [Hsq1 _];
    [lia..|].
  destruct (swapEntries_spec i (pivotSearch Ai n i).2 Bi n IH) as [HB1 _];
    [lia..|].
  destruct (eliminateRows_spec n i _ (swapEntries i (pivotSearch Ai n i).2 Bi)
              Hsq1 ltac:(lia)) as (_ & _ & HB2).
  by apply HB2.
Qed.

Lemma homographySystem_square8 {num : Type} {NumOps : Number num}
    (srcPoints dstPoints : list (Point num)) :
  square 8 (homographySystem srcPoints dstPoints).1 /\
  length (homographySystem srcPoints dstPoints).2 = 8%nat.
Proof.
  split; [|reflexivity]. split; [reflexivity|]. intros r Hr.
  do 8 (destruct r as [|r]; [reflexivity|]). lia.
Qed.

(** ** The pixel loops *)

Lemma byteAt_insert (d : list Z) (i j : nat) (v : Z) :
  byteAt (<[i := v]> d) j =
  if decide (i = j /\ i < length d) then v else byteAt d j.
Proof.
  unfold byteAt. destruct (decide (i = j)) as [->|Hne].
  - destruct (decide (j < length d)) as [Hlt|Hge].
    + rewrite list_lookup_insert_eq by done. rewrite decide_True; done.
    + rewrite list_insert_ge by lia. rewrite decide_False; [done|lia].
  - rewrite list_lookup_insert_ne by done. rewrite decide_False; [done|lia].
Qed.

Lemma byteAt_replicate (n i : nat) (v : Z) :
  i < n -> byteAt (replicate n v) i = v.
Proof.
  intros Hi. unfold byteAt. rewrite lookup_replicate_2; done.
Qed.

Lemma bytes_ext (d d' : list Z) :
  length d = length d' ->
  (forall i, i < length d -> byteAt d i = byteAt d' i) -> d = d'.
Proof.
  intros Hlen Heq. apply (list_eq_same_length _ _ (length d)); [done..|].
  intros i a b Hi Ha Hb. specialize (Heq i Hi). unfold byteAt in Heq.
  rewrite Ha, Hb in Heq. exact Heq.
Qed.

Lemma fillWhite_replicate (data : list Z) :
  fillWhite data = replicate (length data) 255%Z.
Proof.
  unfold fillWhite.
  pose (P := fun (t : nat) (d : list Z) =>
    length d = length data /\
    forall i, i < length data ->
      byteAt d i = if decide (i < 4 * t) then 255%Z else byteAt data i).
  match goal with |- for_range 0 ?hi ?body data = _ =>
    assert (Hinv : P hi (for_range 0 hi body data)) end.
  { apply (for_range_inv P); [lia| |]; unfold P.
    - split; [done|]. intros i _. rewrite decide_False by lia. done.
    - intros t d Ht [Hlen Hval]. split.
      + by rewrite !length_insert.
      + intros i Hi. rewrite !byteAt_insert, !length_insert, Hval by done.
        repeat case_decide; destruct_and?; try lia; try done. }
  destruct Hinv as [Hlen Hval]. apply bytes_ext.
  - by rewrite length_replicate.
  - intros i Hi. rewrite Hval, byteAt_replicate by lia.
    rewrite decide_True; [done|].
    pose proof (Nat.div_mod_eq (length data + 3) 4).
    pose proof (Nat.mod_upper_bound (length data + 3) 4). lia.
Qed.

Section Pixels.
Context {num : Type} {NumOps : Number num}.
Implicit Types (H : Vector num) (srcData data : list Z).

Lemma pixel_index_inj (mw x y c x0 y0 c0 : nat) :
  x < mw -> x0 < mw -> c < 4 -> c0 < 4 ->
  (y * mw + x) * 4 + c = (y0 * mw + x0) * 4 + c0 ->
  x = x0 /\ y = y0 /\ c = c0.
Proof.
  intros Hx Hx0 Hc Hc0 Heq.
  assert (y * mw + x = y0 * mw + x0 /\ c = c0) as [Hp Hcc] by lia.
  destruct (Nat.lt_trichotomy y y0) as [Hlt | [Hyy | Hgt] ]; [nia | subst; lia | nia].
Qed.

Lemma pixel_index_bound (mw mh x y c : nat) :
  x < mw -> y < mh -> c < 4 -> (y * mw + x) * 4 + c < 4 * (mw * mh).
Proof. intros. nia. Qed.

Lemma mapPixel_spec H srcData srcW srcH mw mh x0 y0 data :
  length data = 4 * (mw * mh) -> x0 < mw -> y0 < mh ->
  let data' := mapPixel H srcData srcW srcH mw y0 x0 data in
  length data' = 4 * (mw * mh) /\
  forall x y c, x < mw -> y < mh -> c < 4 ->
    byteAt data' ((y * mw + x) * 4 + c) =
    if decide (x = x0 /\ y = y0)
    then sampled H srcData srcW srcH x y c (byteAt data ((y * mw + x) * 4 + c))
    else byteAt data ((y * mw + x) * 4 + c).
Proof.
  intros Hlen Hx0 Hy0. unfold mapPixel, sampled. simpl.
  fold (sourceX H x0 y0). fold (sourceY H x0 y0).
  fold (inSource srcW srcH (sourceX H x0 y0) (sourceY H x0 y0)).
  destruct (inSource srcW srcH (sourceX H x0 y0) (sourceY H x0 y0)) eqn:Hin.
  - split; [by rewrite !length_insert|].
    intros x y c Hx Hy Hc.
    pose proof (pixel_index_bound mw mh x0 y0 0 Hx0 Hy0 ltac:(lia)).
    rewrite !byteAt_insert, !length_insert, Hlen.
    destruct (decide (x = x0 /\ y = y0)) as [[-> ->]|Hne].
    + rewrite Hin.
      assert (c = 0 \/ c = 1 \/ c = 2 \/ c = 3) as [-> | [-> | [-> | ->] ] ] by lia.
      all: repeat case_decide; destruct_and?; try lia.
      all: rewrite ?Nat.add_0_r; try done.
    + repeat case_decide; destruct_and?; try done.
      all: exfalso; apply Hne.
      * destruct (pixel_index_inj mw x y c x0 y0 3) as (? & ? & ?); auto; lia.
      * destruct (pixel_index_inj mw x y c x0 y0 2) as (? & ? & ?); auto; lia.
      * destruct (pixel_index_inj mw x y c x0 y0 1) as (? & ? & ?); auto; lia.
      * destruct (pixel_index_inj mw x y c x0 y0 0) as (? & ? & ?); auto; lia.
  - split; [done|]. intros x y c Hx Hy Hc.
    case_decide as Hd; [|done]. destruct Hd as [-> ->]. by rewrite Hin.
Qed.

Lemma pixelLoop_spec H srcData srcW srcH mw mh data :
  length data = 4 * (mw * mh) ->
  let data' := pixelLoop H srcData srcW srcH mw mh data in
  length data' = 4 * (mw * mh) /\
  forall x y c, x < mw -> y < mh -> c < 4 ->
    byteAt data' ((y * mw + x) * 4 + c) =
    sampled H srcData srcW srcH x y c (byteAt data ((y * mw + x) * 4 + c)).
Proof.
  intros Hlen. unfold pixelLoop.
  pose (P := fun (y' x' : nat) (d : list Z) =>
    length d = 4 * (mw * mh) /\
    forall x y c, x < mw -> y < mh -> c < 4 ->
      byteAt d ((y * mw + x) * 4 + c) =
      if decide (y < y' \/ (y = y' /\ x < x'))
      then sampled H srcData srcW srcH x y c (byteAt data ((y * mw + x) * 4 + c))
      else byteAt data ((y * mw + x) * 4 + c)).
  match goal with |- context [for_range 0 mh ?body data] =>
    assert (Hinv : P mh 0 (for_range 0 mh body data)) end.
  { apply (for_range_inv (fun y' d => P y' 0 d)); [lia| |].
    - split; [done|]. intros x y c _ _ _. rewrite decide_False by lia. done.
    - intros y0 d Hy0 Hd.
      assert (Hrow : P y0 mw
        (for_range 0 mw (mapPixel H srcData srcW srcH mw y0) d)).
      { apply (for_range_inv (fun x' d => P y0 x' d)); [lia|done|].
        intros x0 d' Hx0 [Hlen' Hval].
        destruct (mapPixel_spec H srcData srcW srcH mw mh x0 y0 d' Hlen')
          as [Hlen2 Hval2]; [lia..|].
        split; [done|]. intros x y c Hx Hy Hc.
        rewrite Hval2, Hval by done.
        repeat case_decide; destruct_and?; subst; try lia; try done.
        all: unfold sampled; destruct (inSource _ _ _ _); done. }
      destruct Hrow as [Hlen' Hval]. split; [done|].
      intros x y c Hx Hy Hc. rewrite Hval by done.
      repeat case_decide; try lia; done. }
  destruct Hinv as [Hlen' Hval]. split; [done|].
  intros x y c Hx Hy Hc. rewrite Hval by done.
  rewrite decide_True by lia. done.
Qed.
End Pixels.

Section Warp.
Context {num : Type} {NumOps : Number num}.
Implicit Types (p : Point num) (img r : Raster).
Local Open Scope num_scope.

Lemma createImageData_sizes (w h : nat) :
  w <> 0 -> h <> 0 ->
  createImageData w h = Some (replicate (4 * (w * h)) 0%Z).
Proof. intros Hw Hh. unfold createImageData. by destruct w, h. Qed.

Lemma createImageData_refused (w h : nat) :
  w = 0 \/ h = 0 -> createImageData w h = None.
Proof.
  intros [-> | ->]; unfold createImageData; [done|]. by rewrite orb_true_r.
Qed.

Lemma createImageData_cases (w h : nat) :
  (w = 0 \/ h = 0) /\ createImageData w h = None \/
  (w <> 0 /\ h <> 0) /\ createImageData w h = Some (replicate (4 * (w * h)) 0%Z).
Proof.
  destruct (decide (w = 0)) as [Hw|Hw]; [left; split; [|apply createImageData_refused]; auto|].
  destruct (decide (h = 0)) as [Hh|Hh]; [left; split; [|apply createImageData_refused]; auto|].
  right. split; [done|]. by apply createImageData_sizes.
Qed.

Lemma getImageData_cases (img : Raster) :
  (width img = 0 \/ height img = 0) /\ getImageData img = None \/
  (width img <> 0 /\ height img <> 0) /\ getImageData img = Some (data img).
Proof.
  unfold getImageData. destruct (width img), (height img); cbn; auto.
Qed.

Lemma getImageData_pixels (img : Raster) :
  width img <> 0 -> height img <> 0 -> getImageData img = Some (data img).
Proof.
  intros Hw Hh. destruct (getImageData_cases img) as [ [ [?|?] _]|[_ H] ]; done.
Qed.

(** The raster of a run that resolves, and what lets it resolve. *)
Lemma warpPerspective_resolved env img srcPoints r :
  warpPerspective env img srcPoints = Resolved r ->
  r = mkRaster (to_index (maxWidthOf srcPoints)) (to_index (maxHeightOf srcPoints))
        (pixelLoop (homography srcPoints) (data img) (width img) (height img)
           (to_index (maxWidthOf srcPoints)) (to_index (maxHeightOf srcPoints))
           (replicate (4 * (to_index (maxWidthOf srcPoints) *
                            to_index (maxHeightOf srcPoints))) 255%Z)).
Proof.
  unfold warpPerspective.
  destruct (length srcPoints <? 4)%nat; [discriminate|].
  destruct (canvasContext env); [|discriminate]. cbn [negb].
  destruct (createImageData_cases (to_index (maxWidthOf srcPoints))
              (to_index (maxHeightOf srcPoints))) as [ [_ ->]|[_ ->] ]; [discriminate|].
  destruct (tempContext env); [|discriminate]. cbn [negb].
  destruct (getImageData_cases img) as [ [_ ->]|[_ ->] ]; [discriminate|].
  intros [= <-]. f_equal.
  rewrite fillWhite_replicate, length_replicate. reflexivity.
Qed.


(** The ways out of the handler before the pixel loop. *)
Lemma warpPerspective_too_few_points env img (srcPoints : list (Point num)) :
  length srcPoints < 4 -> warpPerspective env img srcPoints = TypeError.
Proof.
  intros Hlen. unfold warpPerspective.
  destruct (Nat.ltb_spec (length srcPoints) 4); [reflexivity|lia].
Qed.

Lemma warpPerspective_no_context img (srcPoints : list (Point num)) t :
  4 <= length srcPoints ->
  warpPerspective (mkEnv false t) img srcPoints = Rejected "No context".
Proof.
  intros Hlen. unfold warpPerspective.
  destruct (Nat.ltb_spec (length srcPoints) 4); [lia|reflexivity].
Qed.


Lemma warpPerspective_no_temp_context img (srcPoints : list (Point num)) :
  4 <= length srcPoints ->
  to_index (maxWidthOf srcPoints) <> 0 -> to_index (maxHeightOf srcPoints) <> 0 ->
  warpPerspective (mkEnv true false) img srcPoints = Rejected "No temp context".
Proof.
  intros Hlen Hw Hh. unfold warpPerspective.
  destruct (Nat.ltb_spec (length srcPoints) 4); [lia|]. cbn [canvasContext negb].
  by rewrite (createImageData_sizes _ _ Hw Hh).
Qed.

Lemma warpPerspective_no_source_pixels img (srcPoints : list (Point num)) :
  4 <= length srcPoints ->
  width img = 0 \/ height img = 0 ->
  warpPerspective (mkEnv true true) img srcPoints = NoImageData.
Proof.
  intros Hlen Himg. unfold warpPerspective.
  destruct (Nat.ltb_spec (length srcPoints) 4); [lia|]. cbn [canvasContext negb].
  destruct (createImageData _ _); [|done]. cbn [tempContext negb].
  destruct (getImageData_cases img) as [ [_ ->]|[ [? ?] _] ]; [done|].
  destruct Himg; done.
Qed.

Lemma warpPerspective_four_points img (p0 p1 p2 p3 : Point num) :
  let srcPoints := [p0; p1; p2; p3] in
  let maxWidth := to_index (maxWidthOf srcPoints) in
  let maxHeight := to_index (maxHeightOf srcPoints) in
  maxWidth <> 0 -> maxHeight <> 0 -> width img <> 0 -> height img <> 0 ->
  warpPerspective (mkEnv true true) img srcPoints =
  Resolved (mkRaster maxWidth maxHeight
    (pixelLoop (homography srcPoints) (data img) (width img) (height img)
       maxWidth maxHeight (replicate (4 * (maxWidth * maxHeight)) 255%Z))).
Proof.
  intros srcPoints maxWidth maxHeight Hw Hh Hsw Hsh. unfold warpPerspective.
  change (length srcPoints <? 4)%nat with false. cbn [canvasContext tempContext negb].
  fold maxWidth maxHeight. rewrite (createImageData_sizes _ _ Hw Hh).
  rewrite (getImageData_pixels _ Hsw Hsh).
  rewrite fillWhite_replicate, length_replicate. reflexivity.
Qed.

Lemma warpPerspective_sampled env img (srcPoints : list (Point num)) r (x y c : nat) :
  warpPerspective env img srcPoints = Resolved r ->
  (x < to_index (maxWidthOf srcPoints))%nat ->
  (y < to_index (maxHeightOf srcPoints))%nat ->
  (c < 4)%nat ->
  byteAt (data r) ((y * to_index (maxWidthOf srcPoints) + x) * 4 + c) =
  sampled (homography srcPoints) (data img) (width img) (height img) x y c 255%Z.
Proof.
  intros Hres Hx Hy Hc.
  apply warpPerspective_resolved in Hres. subst r. cbn [data].
  match goal with |- context [pixelLoop ?H ?sd ?sw ?sh ?mw ?mh ?d] =>
    destruct (pixelLoop_spec H sd sw sh mw mh d) as [_ Hval] end.
  { by rewrite length_replicate. }
  rewrite Hval by done.
  rewrite byteAt_replicate by (by apply pixel_index_bound). reflexivity.
Qed.

(** C1.  When [warpPerspective] resolves with raster [r], every destination
    pixel [(x, y)] with [x < maxWidth] and [y < maxHeight] is decided by
    [denom = h6*x + h7*y + 1], [u = (h0*x + h1*y + h2) / denom],
    [v = (h3*x + h4*y + h5) / denom] and their roundings [srcX], [srcY]: if
    [0 <= srcX < srcW] and [0 <= srcY < srcH] its four channels are those of
    the source pixel [(srcX, srcY)], otherwise they are the 255 the raster
    was filled with.  Holds for any arithmetic. *)
Theorem warpPerspective_pixel env img srcPoints r (x y : nat) :
  warpPerspective env img srcPoints = Resolved r ->
  let H := homography srcPoints in
  let maxWidth := to_index (maxWidthOf srcPoints) in
  let maxHeight := to_index (maxHeightOf srcPoints) in
  (x < maxWidth)%nat -> (y < maxHeight)%nat ->
  let denom := H !!! 6%nat * of_index x + H !!! 7%nat * of_index y + n1 in
  let u := (H !!! 0%nat * of_index x + H !!! 1%nat * of_index y + H !!! 2%nat) / denom in
  let v := (H !!! 3%nat * of_index x + H !!! 4%nat * of_index y + H !!! 5%nat) / denom in
  let srcX := nround u in
  let srcY := nround v in
  let srcW := width img in
  let srcH := height img in
  forall c, (c < 4)%nat ->
    byteAt (data r) ((y * maxWidth + x) * 4 + c) =
    if (srcX >=? n0) && (srcX <? of_index srcW) && (srcY >=? n0) && (srcY <? of_index srcH)
    then byteAt (data img) ((to_index srcY * srcW + to_index srcX) * 4 + c)
    else 255%Z.
Proof.
  intros Hres H maxWidth maxHeight Hx Hy denom u v srcX srcY srcW srcH c Hc.
  apply (warpPerspective_sampled env img srcPoints r x y c Hres Hx Hy Hc).
Qed.


(** C4.  The system handed to [solveMatrix] has, for each correspondence
    of a source point [(sx, sy)] with a destination point [(dx, dy)], the
    row [dx, dy, 1, 0, 0, 0, -dx*sx, -dy*sx] with right-hand side [sx] and
    the row [0, 0, 0, dx, dy, 1, -dx*sy, -dy*sy] with right-hand side [sy],
    the destination points being [(0,0)], [(maxWidth,0)],
    [(maxWidth,maxHeight)], [(0,maxHeight)] in that order. *)
Theorem homography_system (s0 s1 s2 s3 : Point num) :
  let srcPoints := [s0; s1; s2; s3] in
  let maxWidth := maxWidthOf srcPoints in
  let maxHeight := maxHeightOf srcPoints in
  let rowX := fun s d =>
    [px d; py d; n1; n0; n0; n0; - px d * px s; - py d * px s] in
  let rowY := fun s d =>
    [n0; n0; n0; px d; py d; n1; - px d * py s; - py d * py s] in
  let d0 := mkPoint n0 n0 in
  let d1 := mkPoint maxWidth n0 in
  let d2 := mkPoint maxWidth maxHeight in
  let d3 := mkPoint n0 maxHeight in
  let A := [rowX s0 d0; rowY s0 d0; rowX s1 d1; rowY s1 d1;
            rowX s2 d2; rowY s2 d2; rowX s3 d3; rowY s3 d3] in
  let B := [px s0; py s0; px s1; py s1; px s2; py s2; px s3; py s3] in
  homographySystem srcPoints (dstPointsOf maxWidth maxHeight) = (A, B) /\
  homography srcPoints = solveMatrix A B.
Proof. split; reflexivity. Qed.
End Warp.

Section Unsampled.
Context {num : Type} {NumOps : Number num}.

Lemma pixel_index_split (mw mh i : nat) :
  i < 4 * (mw * mh) ->
  exists x y c, x < mw /\ y < mh /\ c < 4 /\ i = (y * mw + x) * 4 + c.
Proof.
  intros Hi. assert (mw <> 0) by lia.
  exists ((i / 4) mod mw), ((i / 4) / mw), (i mod 4).
  pose proof (Nat.div_mod_eq i 4).
  pose proof (Nat.mod_upper_bound i 4).
  pose proof (Nat.div_mod_eq (i / 4) mw).
  pose proof (Nat.mod_upper_bound (i / 4) mw).
  split_and!; [lia| |lia|lia].
  apply Nat.Div0.div_lt_upper_bound. apply Nat.Div0.div_lt_upper_bound. lia.
Qed.

(** Where no destination pixel passes the bounds test, the pixel loop
    leaves the raster as it was. *)
Lemma pixelLoop_unsampled (H : Vector num) srcData srcW srcH mw mh data :
  length data = 4 * (mw * mh) ->
  (forall x y, x < mw -> y < mh ->
     inSource srcW srcH (sourceX H x y) (sourceY H x y) = false) ->
  pixelLoop H srcData srcW srcH mw mh data = data.
Proof.
  intros Hlen Hout.
  destruct (pixelLoop_spec H srcData srcW srcH mw mh data Hlen) as [Hlen' Hval].
  apply bytes_ext; [lia|]. intros i Hi.
  destruct (pixel_index_split mw mh i) as (x & y & c & Hx & Hy & Hc & ->); [lia|].
  rewrite Hval by done. unfold sampled. by rewrite Hout.
Qed.
End Unsampled.

(** ** Binary64: NaN is absorbing *)

Section Binary64.
Import PrimFloat.
Local Open Scope float_scope.

Lemma nan_mul_l x : nan * x = nan.
Proof. apply Prim2SF_inj. rewrite mul_spec. reflexivity. Qed.

Lemma nan_mul_r x : x * nan = nan.
Proof.
  apply Prim2SF_inj. rewrite mul_spec.
  change (Prim2SF nan) with S754_nan. by destruct (Prim2SF x).
Qed.

Lemma nan_add_l x : nan + x = nan.
Proof. apply Prim2SF_inj. rewrite add_spec. reflexivity. Qed.

Lemma nan_add_r x : x + nan = nan.
Proof.
  apply Prim2SF_inj. rewrite add_spec.
  change (Prim2SF nan) with S754_nan. by destruct (Prim2SF x).
Qed.

Lemma nan_sub_l x : nan - x = nan.
Proof. apply Prim2SF_inj. rewrite sub_spec. reflexivity. Qed.

Lemma nan_sub_r x : x - nan = nan.
Proof.
  apply Prim2SF_inj. rewrite sub_spec.
  change (Prim2SF nan) with S754_nan. by destruct (Prim2SF x).
Qed.

Lemma nan_div_l x : nan / x = nan.
Proof. apply Prim2SF_inj. rewrite div_spec. reflexivity. Qed.

Lemma nan_div_r x : x / nan = nan.
Proof.
  apply Prim2SF_inj. rewrite div_spec.
  change (Prim2SF nan) with S754_nan. by destruct (Prim2SF x).
Qed.

Lemma mul_comm x y : x * y = y * x.
Proof.
  apply Prim2SF_inj. rewrite !mul_spec. unfold SF64mul, SFmul.
  destruct (Prim2SF x) as [sx|sx| |sx mx ex], (Prim2SF y) as [sy|sy| |sy my ey];
    try reflexivity; try (by rewrite xorb_comm).
  by rewrite xorb_comm, Pos.mul_comm, Z.add_comm.
Qed.
End Binary64.

Section Scenarios.
Import PrimFloat.


(** C7 does not hold as stated: on the quadrilateral of the scenario no
    200 by 100 source gives a raster of height 80 (the left and right edges
    have length sqrt 6500, which rounds to 81). *)
Lemma scenario_height_is_not_80 :
  ~ exists r,
      warpPerspective (mkEnv true true)
        (mkRaster 200 100 (replicate (4 * (200 * 100)) 0%Z)) scenarioQuad = Resolved r /\
      width r = 180 /\ height r = 80.
Proof.
  intros (r & Hres & _ & Hh).
  apply warpPerspective_resolved in Hres. subst r.
  cbn [height] in Hh. vm_compute in Hh. discriminate.
Qed.

(** C7, amended.  For every 200 by 100 source and the quadrilateral
    (20,10), (180,10), (190,90), (10,90), [maxWidth] is 180 and [maxHeight]
    is 81, the raster is 180 by 81, and destination pixel (0,0) is mapped
    to, and equals, source pixel (20,10). *)
Theorem scenario_180_by_81 (srcData : list Z) :
  exists r,
    warpPerspective (mkEnv true true) (mkRaster 200 100 srcData) scenarioQuad
      = Resolved r /\
    maxWidthOf scenarioQuad = 180%float /\
    maxHeightOf scenarioQuad = 81%float /\
    width r = 180 /\ height r = 81 /\
    length (data r) = 4 * (180 * 81) /\
    sourceX (homography scenarioQuad) 0 0 = 20%float /\
    sourceY (homography scenarioQuad) 0 0 = 10%float /\
    forall c, c < 4 ->
      byteAt (data r) c = byteAt srcData ((10 * 200 + 20) * 4 + c).
Proof.
  assert (HW : to_index (maxWidthOf scenarioQuad) = 180) by (vm_compute; reflexivity).
  assert (HH : to_index (maxHeightOf scenarioQuad) = 81) by (vm_compute; reflexivity).
  eexists. split; [apply warpPerspective_four_points; vm_compute; lia|].
  cbn [width height data]. fold scenarioQuad. rewrite HW, HH.
  split_and!; [vm_compute; reflexivity..| | | |].
  - apply pixelLoop_spec. by rewrite length_replicate.
  - vm_compute. reflexivity.
  - vm_compute. reflexivity.
  - intros c Hc.
    match goal with |- context [pixelLoop ?H ?sd ?sw ?sh ?mw ?mh ?d] =>
      destruct (pixelLoop_spec H sd sw sh mw mh d) as [_ Hval] end.
    { by rewrite length_replicate. }
    specialize (Hval 0 0 c ltac:(lia) ltac:(lia) Hc).
    change ((0 * 180 + 0) * 4 + c) with c in Hval. rewrite Hval.
    unfold sampled.
    replace (inSource 200 100 (sourceX (homography scenarioQuad) 0 0)
               (sourceY (homography scenarioQuad) 0 0)) with true
      by (vm_compute; reflexivity).
    replace (to_index (sourceY (homography scenarioQuad) 0 0)) with 10
      by (vm_compute; reflexivity).
    replace (to_index (sourceX (homography scenarioQuad) 0 0)) with 20
      by (vm_compute; reflexivity).
    reflexivity.
Qed.
(** The example of three collinear corners, (0,0), (50,0), (100,0), (0,50):
    in binary64 no pivot is zero, the coefficients are numbers, and
    destination pixel (0,0) is copied from source pixel (0,0). *)
Lemma three_collinear_corners_copy_pixel :
  let sys := homographySystem threeCollinearQuad
               (dstPointsOf (maxWidthOf threeCollinearQuad)
                            (maxHeightOf threeCollinearQuad)) in
  map (fun i => (pivotSearch (stateAt 8 i sys.1 sys.2).1 8 i).1) (seq 0 8)
    = [112; 50; 1; 112; 50; 1; 5600; 2500]%float /\
  forallb (fun h => negb (PrimFloat.is_nan h)) (homography threeCollinearQuad) = true /\
  exists r,
    warpPerspective (mkEnv true true) image2x2 threeCollinearQuad = Resolved r /\
    width r = 112 /\ height r = 50 /\
    forall c, c < 4 -> byteAt (data r) c = byteAt (data image2x2) c.
Proof.
  assert (HW : to_index (maxWidthOf threeCollinearQuad) = 112)
    by (vm_compute; reflexivity).
  assert (HH : to_index (maxHeightOf threeCollinearQuad) = 50)
    by (vm_compute; reflexivity).
  split_and!; [vm_compute; reflexivity..|].
  eexists. split; [apply warpPerspective_four_points; vm_compute; lia|].
  cbn [width height data]. fold threeCollinearQuad. rewrite HW, HH.
  split_and!; [reflexivity..|].
  match goal with |- context [pixelLoop ?H ?sd ?sw ?sh ?mw ?mh ?d] =>
    destruct (pixelLoop_spec H sd sw sh mw mh d) as [_ Hval] end.
  { by rewrite length_replicate. }
  intros c Hc. specialize (Hval 0 0 c ltac:(lia) ltac:(lia) Hc).
  change ((0 * 112 + 0) * 4 + c) with c in Hval. rewrite Hval.
  unfold sampled.
  replace (inSource (width image2x2) (height image2x2)
            (sourceX (homography threeCollinearQuad) 0 0)
            (sourceY (homography threeCollinearQuad) 0 0)) with true
    by (vm_compute; reflexivity).
  replace (to_index (sourceY (homography threeCollinearQuad) 0 0)) with 0
    by (vm_compute; reflexivity).
  replace (to_index (sourceX (homography threeCollinearQuad) 0 0)) with 0
    by (vm_compute; reflexivity).
  reflexivity.
Qed.
End Scenarios.

(** ** Binary64: a zero pivot *)

Section ZeroPivot.
Import PrimFloat.
Local Open Scope float_scope.

Lemma Prim2SF_zero : Prim2SF 0 = S754_zero false.
Proof. reflexivity. Qed.

Lemma abs_zero_inv a : abs a = 0 -> exists s, Prim2SF a = S754_zero s.
Proof.
  intros Ha. apply (f_equal Prim2SF) in Ha.
  rewrite abs_spec, Prim2SF_zero in Ha.
  destruct (Prim2SF a) as [s|s| |s m e]; try discriminate. by exists s.
Qed.

Lemma not_above_zero_inv b :
  (0 <? abs b) = false ->
  Prim2SF b = S754_nan \/ exists s, Prim2SF b = S754_zero s.
Proof.
  rewrite ltb_spec, abs_spec, Prim2SF_zero.
  destruct (Prim2SF b) as [s|s| |s m e]; cbn; try discriminate; eauto.
Qed.

Lemma abs_not_below_zero a : (abs a <? 0) = false.
Proof.
  rewrite ltb_spec, abs_spec, Prim2SF_zero.
  by destruct (Prim2SF a) as [s|s| |s m e].
Qed.

(** The multiplier of line 50 over a zero pivot. *)
Lemma zero_pivot_multiplier a b :
  abs a = 0 -> (0 <? abs b) = false -> - b / a = nan.
Proof.
  intros Ha Hb. apply abs_zero_inv in Ha as [sa Ha].
  apply Prim2SF_inj. rewrite div_spec, opp_spec, Ha.
  destruct (not_above_zero_inv b Hb) as [-> | [sb ->] ]; reflexivity.
Qed.

Lemma zero_pivot_nanBlock n i (A : Matrix float) (B : Vector float) :
  square n A -> length B = n -> (i < n)%nat ->
  (pivotSearch A n i).1 = 0 ->
  nanBlock n i (S i) (eliminationStep n i (A, B)).
Proof.
  intros Hsq HB Hi Hzero.
  destruct (pivotSearch_cases A n i Hi) as [Hel Hcases].
  rewrite Hzero in Hel, Hcases.
  destruct Hcases as [ [Hm Hall]|[k Hk] ];
    [|cbn in Hk; by rewrite abs_not_below_zero in Hk].
  rewrite eliminationStep_unfold. cbn zeta. rewrite Hm in *.
  destruct (swapColumns_spec n i i A Hsq Hi Hi) as [Hsq1 HA1].
  destruct (swapEntries_spec i i B n HB Hi Hi) as [HB1 _].
  destruct (eliminateRows_spec n i _ (swapEntries i i B) Hsq1 Hi)
    as (_ & HA2 & HB2).
  destruct (HB2 HB1) as [_ HB2v]. clear HB2.
  assert (Hc : forall r, (i < r < n)%nat ->
    (- mget (swapColumns n i i A) r i / mget (swapColumns n i i A) i i)%num = nan).
  { intros r Hr.
    assert (mget (swapColumns n i i A) i i = mget A i i) as ->
      by (rewrite HA1 by lia; repeat case_decide; done).
    assert (mget (swapColumns n i i A) r i = mget A r i) as ->
      by (rewrite HA1 by lia; repeat case_decide; subst; done).
    apply zero_pivot_multiplier; [symmetry; exact Hel|]. apply (Hall r). lia. }
  split.
  - intros r j Hr Hj Hcond. cbn [fst]. rewrite HA2 by lia.
    rewrite decide_True by lia. rewrite decide_False by lia.
    rewrite Hc by done. cbn. by rewrite nan_mul_l, nan_add_r.
  - intros r Hr. cbn [snd]. rewrite HB2v by lia. rewrite decide_True by lia.
    rewrite Hc by done. cbn. by rewrite nan_mul_l, nan_add_r.
Qed.

Lemma nanBlock_step n i i' (A : Matrix float) (B : Vector float) :
  square n A -> length B = n -> (i < i' < n)%nat ->
  nanBlock n i i' (A, B) ->
  nanBlock n i (S i') (eliminationStep n i' (A, B)).
Proof.
  intros Hsq HB Hi' [HA HBn]. cbn [fst snd] in *.
  rewrite eliminationStep_unfold. cbn zeta.
  pose proof (pivotSearch_range A n i' ltac:(lia)) as Hm.
  set (m := (pivotSearch A n i').2) in *. clearbody m.
  destruct (swapColumns_spec n i' m A Hsq) as [Hsq1 HA1]; [lia..|].
  destruct (swapEntries_spec i' m B n HB) as [HB1 HB1v]; [lia..|].
  destruct (eliminateRows_spec n i' _ (swapEntries i' m B) Hsq1 ltac:(lia))
    as (_ & HA2 & HB2).
  destruct (HB2 HB1) as [_ HB2v]. clear HB2.
  assert (HA1n : forall r j, (i < r < n)%nat -> (j < n)%nat ->
    (r <= j \/ i' <= j)%nat -> mget (swapColumns n i' m A) r j = nan).
  { intros r j Hr Hj Hcond. rewrite HA1 by lia.
    repeat case_decide; subst; apply HA; lia. }
  assert (HB1n : forall r, (i < r < n)%nat -> swapEntries i' m B !!! r = nan).
  { intros r Hr. rewrite HB1v by lia. repeat case_decide; apply HBn; lia. }
  split.
  - intros r j Hr Hj Hcond. cbn [fst]. rewrite HA2 by lia.
    destruct (decide (i' < r /\ i' <= j)%nat) as [Hd|Hd].
    + rewrite decide_False by lia. rewrite HA1n by lia. apply nan_add_l.
    + apply HA1n; lia.
  - intros r Hr. cbn [snd]. rewrite HB2v by lia.
    case_decide; [|by apply HB1n]. rewrite HB1n by done. apply nan_add_l.
Qed.

Lemma nanBlock_stateAt n i (A : Matrix float) (B : Vector float) i' :
  square n A -> length B = n -> (i < i' <= n)%nat ->
  (pivotSearch (stateAt n i A B).1 n i).1 = 0 ->
  nanBlock n i i' (stateAt n i' A B).
Proof.
  intros Hsq HB Hi' Hzero. induction i' as [|i' IH]; [lia|].
  rewrite stateAt_S.
  destruct (stateAt_lowerZero n A B i' Hsq) as [Hsq' _]; [lia|].
  pose proof (stateAt_length n A B i' Hsq HB ltac:(lia)) as HB'.
  destruct (decide (i' = i)) as [->|Hne].
  - destruct (stateAt n i A B) as [Ai Bi]. cbn [fst snd] in *.
    apply zero_pivot_nanBlock; [done|done|lia|done].
  - specialize (IH ltac:(lia)).
    destruct (stateAt n i' A B) as [Ai Bi]. cbn [fst snd] in *.
    apply nanBlock_step; [done|done|lia|done].
Qed.

(** A zero pivot before the last column leaves nothing but NaN. *)
Lemma zero_pivot_solution_nan n i (A : Matrix float) (B : Vector float) :
  square n A -> length B = n -> (i + 1 < n)%nat ->
  (pivotSearch (stateAt n i A B).1 n i).1 = 0 ->
  forall j, (j < n)%nat -> solveMatrix A B !!! j = nan.
Proof.
  intros Hsq HB Hi Hzero.
  pose proof (nanBlock_stateAt n i A B n Hsq HB ltac:(lia) Hzero) as [HA HBn].
  unfold solveMatrix, forwardElimination.
  replace (length A) with n by (symmetry; apply Hsq).
  fold (stateAt n n A B). destruct (stateAt n n A B) as [An Bn].
  cbn [fst snd] in *.
  destruct (backSubstitution_spec n An Bn) as [Hlen Hval].
  set (x := backSubstitution n An Bn) in *. clearbody x.
  assert (Hlast : x !!! (n - 1)%nat = nan).
  { rewrite Hval by lia. rewrite HBn by lia. cbn.
    by rewrite nan_sub_l, nan_div_l. }
  intros j Hj. rewrite Hval by done.
  destruct (decide (i < j)%nat) as [Hij|Hij].
  - rewrite HBn by lia. cbn. by rewrite nan_sub_l, nan_div_l.
  - assert (Hsum : rowSum n An j x = nan).
    { unfold rowSum. replace n with (S (n - 1)) at 1 by lia.
      rewrite for_range_snoc by lia. rewrite Hlast. cbn.
      by rewrite nan_mul_r, nan_add_r. }
    rewrite Hsum. cbn. by rewrite nan_sub_r, nan_div_l.
Qed.
End ZeroPivot.

Section NonFinite.
Import PrimFloat.
Local Open Scope float_scope.

Lemma nonFinite_nan : nonFinite nan = true.
Proof. reflexivity. Qed.

Lemma nonFinite_add_l x y : nonFinite x = true -> nonFinite (x + y) = true.
Proof.
  unfold nonFinite. rewrite add_spec.
  destruct (Prim2SF x) as [|[|]| |]; try discriminate;
    destruct (Prim2SF y) as [|[|]| |]; done.
Qed.

Lemma nonFinite_add_r x y : nonFinite y = true -> nonFinite (x + y) = true.
Proof.
  unfold nonFinite. rewrite add_spec.
  destruct (Prim2SF y) as [|[|]| |]; try discriminate;
    destruct (Prim2SF x) as [|[|]| |]; done.
Qed.

Lemma nonFinite_sub_r x y : nonFinite y = true -> nonFinite (x - y) = true.
Proof.
  unfold nonFinite. rewrite sub_spec.
  destruct (Prim2SF y) as [|[|]| |]; try discriminate;
    destruct (Prim2SF x) as [|[|]| |]; done.
Qed.

Lemma nonFinite_mul_l x y : nonFinite x = true -> nonFinite (x * y) = true.
Proof.
  unfold nonFinite. rewrite mul_spec.
  destruct (Prim2SF x) as [|[|]| |]; try discriminate;
    destruct (Prim2SF y) as [|[|]| |]; done.
Qed.

Lemma nonFinite_mul_r x y : nonFinite y = true -> nonFinite (x * y) = true.
Proof.
  unfold nonFinite. rewrite mul_spec.
  destruct (Prim2SF y) as [|[|]| |]; try discriminate;
    destruct (Prim2SF x) as [|[|]| |]; done.
Qed.

Lemma nonFinite_div_l x y : nonFinite x = true -> nonFinite (x / y) = true.
Proof.
  unfold nonFinite. rewrite div_spec.
  destruct (Prim2SF x) as [|[|]| |]; try discriminate;
    destruct (Prim2SF y) as [|[|]| |]; done.
Qed.

Lemma nonFinite_div_zero x a : abs a = 0 -> nonFinite (x / a) = true.
Proof.
  intros Ha. apply abs_zero_inv in Ha as [s Ha].
  unfold nonFinite. rewrite div_spec, Ha.
  by destruct (Prim2SF x) as [|[|]| |].
Qed.

Lemma nonFinite_div_nonFinite x y :
  nonFinite x = true -> nonFinite y = true -> x / y = nan.
Proof.
  unfold nonFinite. intros Hx Hy. apply Prim2SF_inj. rewrite div_spec.
  destruct (Prim2SF x) as [|[|]| |]; try discriminate;
    destruct (Prim2SF y) as [|[|]| |]; try discriminate; reflexivity.
Qed.

Lemma nan_nonFinite_all n (A : Matrix float) (B : Vector float) i :
  square n A -> length B = n -> (i + 1 < n)%nat ->
  (pivotSearch (stateAt n i A B).1 n i).1 = 0 ->
  forall j, (j < n)%nat -> nonFinite (solveMatrix A B !!! j) = true.
Proof.
  intros Hsq HB Hi Hzero j Hj.
  by rewrite (zero_pivot_solution_nan n i A B Hsq HB Hi Hzero j Hj).
Qed.

(** A zero pivot in the last column: the last unknown is a quotient by
    zero, and every other unknown takes it in its sum. *)
Lemma last_zero_pivot_nonFinite n (A : Matrix float) (B : Vector float) :
  square n A -> length B = n -> (1 <= n)%nat ->
  (pivotSearch (stateAt n (n - 1) A B).1 n (n - 1)).1 = 0 ->
  forall j, (j < n)%nat -> nonFinite (solveMatrix A B !!! j) = true.
Proof.
  intros Hsq HB Hn Hzero.
  unfold solveMatrix, forwardElimination.
  replace (length A) with n by (symmetry; apply Hsq).
  fold (stateAt n n A B).
  pose proof (stateAt_S n (n - 1) A B) as HS.
  replace (S (n - 1)) with n in HS by lia. rewrite HS. clear HS.
  destruct (stateAt_lowerZero n A B (n - 1) Hsq) as [Hsq' _]; [lia|].
  destruct (stateAt n (n - 1) A B) as [Ai Bi]. cbn [fst snd] in *.
  rewrite eliminationStep_unfold. cbn zeta.
  rewrite for_range_empty by lia.
  destruct (pivotSearch_cases Ai n (n - 1) ltac:(lia)) as [Hel _].
  pose proof (pivotSearch_range Ai n (n - 1) ltac:(lia)) as Hm.
  rewrite Hzero in Hel.
  set (m := (pivotSearch Ai n (n - 1)).2) in *. clearbody m.
  assert (m = (n - 1)%nat) as -> by lia.
  destruct (swapColumns_spec n (n - 1) (n - 1) Ai Hsq') as [_ HA1]; [lia..|].
  set (A1 := swapColumns n (n - 1) (n - 1) Ai) in *.
  set (B1 := swapEntries (n - 1) (n - 1) Bi).
  destruct (backSubstitution_spec n A1 B1) as [Hlen Hval].
  set (x := backSubstitution n A1 B1) in *. clearbody x.
  assert (Hlast : nonFinite (x !!! (n - 1)%nat) = true).
  { rewrite Hval by lia. apply nonFinite_div_zero.
    rewrite HA1 by lia. rewrite !decide_True by done. symmetry. exact Hel. }
  intros j Hj. destruct (decide (j = n - 1)%nat) as [->|Hne]; [done|].
  rewrite Hval by done.
  apply nonFinite_div_l, nonFinite_sub_r.
  unfold rowSum. replace n with (S (n - 1)) at 1 by lia.
  rewrite for_range_snoc by lia.
  by apply nonFinite_add_r, nonFinite_mul_r.
Qed.

Lemma zero_pivot_nonFinite n (A : Matrix float) (B : Vector float) i :
  square n A -> length B = n -> (i < n)%nat ->
  (pivotSearch (stateAt n i A B).1 n i).1 = 0 ->
  forall j, (j < n)%nat -> nonFinite (solveMatrix A B !!! j) = true.
Proof.
  intros Hsq HB Hi Hzero. destruct (decide (i + 1 < n)%nat) as [Hlt|Hge].
  - by apply (nan_nonFinite_all n A B i).
  - assert (i = n - 1)%nat as -> by lia.
    apply last_zero_pivot_nonFinite; [done|done|lia|done].
Qed.

Lemma nonFinite_out_of_source (H : Vector float) srcW srcH (x y : nat) :
  (forall j, (j < 8)%nat -> nonFinite (H !!! j) = true) ->
  sourceX H x y = nan /\ sourceY H x y = nan /\
  inSource srcW srcH (sourceX H x y) (sourceY H x y) = false.
Proof.
  intros Hnf.
  assert (Hden : nonFinite
    (H !!! 6%nat * F64.of_nat x + H !!! 7%nat * F64.of_nat y + 1) = true).
  { apply nonFinite_add_l, nonFinite_add_l, nonFinite_mul_l, Hnf. lia. }
  assert (HX : sourceX H x y = nan).
  { unfold sourceX. cbn. rewrite nonFinite_div_nonFinite; [reflexivity| |done].
    apply nonFinite_add_r, Hnf. lia. }
  assert (HY : sourceY H x y = nan).
  { unfold sourceY. cbn. rewrite nonFinite_div_nonFinite; [reflexivity| |done].
    apply nonFinite_add_r, Hnf. lia. }
  rewrite HX, HY. split_and!; reflexivity.
Qed.

(** What a zero pivot leaves of the run. *)
Lemma zero_pivot_outcome img (p0 p1 p2 p3 : Point float) (i : nat) :
  let quad := [p0; p1; p2; p3] in
  let sys := homographySystem quad
               (dstPointsOf (maxWidthOf quad) (maxHeightOf quad)) in
  (i < 8)%nat ->
  (pivotSearch (stateAt 8 i sys.1 sys.2).1 8 i).1 = 0 ->
  let H := homography quad in
  (forall j, (j < 8)%nat -> nonFinite (H !!! j) = true) /\
  (forall x y,
     sourceX H x y = nan /\ sourceY H x y = nan /\
     inSource (width img) (height img) (sourceX H x y) (sourceY H x y) = false) /\
  (to_index (maxWidthOf quad) <> 0%nat -> to_index (maxHeightOf quad) <> 0%nat ->
   width img <> 0%nat -> height img <> 0%nat ->
   warpPerspective (mkEnv true true) img quad =
   Resolved (mkRaster (to_index (maxWidthOf quad)) (to_index (maxHeightOf quad))
     (replicate (4 * (to_index (maxWidthOf quad) * to_index (maxHeightOf quad))) 255%Z))).
Proof.
  intros quad sys Hi Hzero H.
  destruct (homographySystem_square8 quad
              (dstPointsOf (maxWidthOf quad) (maxHeightOf quad))) as [Hsq HB].
  assert (Hnf : forall j, (j < 8)%nat -> nonFinite (H !!! j) = true).
  { change H with (solveMatrix sys.1 sys.2).
    by apply (zero_pivot_nonFinite 8 sys.1 sys.2 i). }
  split_and!; [exact Hnf| |].
  - intros x y. by apply nonFinite_out_of_source.
  - intros Hw Hh Hsw Hsh. unfold quad. rewrite warpPerspective_four_points by done.
    fold quad. do 2 f_equal.
    apply pixelLoop_unsampled; [by rewrite length_replicate|].
    intros x y _ _. by apply nonFinite_out_of_source.
Qed.



(** Four equal corners: the pivot of the first step is zero, both sizes
    are 0, and [createImageData] throws. *)
Lemma equal_corners_no_raster :
  let sys := homographySystem equalQuad
               (dstPointsOf (maxWidthOf equalQuad) (maxHeightOf equalQuad)) in
  (pivotSearch (stateAt 8 0 sys.1 sys.2).1 8 0).1 = 0 /\
  to_index (maxWidthOf equalQuad) = 0%nat /\
  to_index (maxHeightOf equalQuad) = 0%nat /\
  warpPerspective (mkEnv true true) image2x2 equalQuad = NoImageData.
Proof. split_and!; vm_compute; reflexivity. Qed.
End NonFinite.

(** C1 read in binary64, at pixel (1,0) of the 2 by 2 square. *)
Lemma warpPerspective_pixel_witness :
  byteAt (data image2x2) 4 = 40%Z.
Proof.
  assert (Hres : warpPerspective (mkEnv true true) image2x2 squareQuad
                 = Resolved image2x2) by (vm_compute; reflexivity).
  assert (Hx : 1 < to_index (maxWidthOf squareQuad)) by (vm_compute; lia).
  assert (Hy : 0 < to_index (maxHeightOf squareQuad)) by (vm_compute; lia).
  pose proof (warpPerspective_pixel (mkEnv true true) image2x2 squareQuad
                image2x2 1 0 Hres Hx Hy 0 ltac:(lia)) as Hp.
  vm_compute in Hp. exact Hp.
Defined.

(** In binary64 too the 200 by 100 rectangle gives the identity. *)
Lemma identity_homography_binary64 :
  homography [mkPoint 0 0; mkPoint 200 0; mkPoint 200 100; mkPoint 0 100]%float
  = [1; 0; 0; 0; 1; 0; 0; 0]%float.
Proof. vm_compute. reflexivity. Qed.

(** In binary64 every rectangle of up to 64 by 64 pixels gives its own
    size and the identity coefficients. *)
Lemma identity_homography_binary64_small :
  forallb (fun w =>
    forallb (fun h =>
      (to_index (maxWidthOf (rectangle64 w h)) =? w)%nat &&
      (to_index (maxHeightOf (rectangle64 w h)) =? h)%nat &&
      sameNumbers (homography (rectangle64 w h)) [1; 0; 0; 0; 1; 0; 0; 0]%float)
      (seq 1 64))
    (seq 1 64) = true.
Proof. vm_compute. reflexivity. Qed.

(** ** Exact arithmetic: linear systems *)

Section Exact.
Local Open Scope R_scope.
Implicit Types (A : Matrix R) (B x : Vector R).

Lemma rsum_ext n f g :
  (forall j, (j < n)%nat -> f j = g j) -> rsum n f = rsum n g.
Proof.
  induction n as [|n IH]; intros Hfg; simpl; [done|].
  rewrite IH, Hfg by (intros; auto with lia). done.
Qed.

Lemma rsum_zero n f : (forall j, (j < n)%nat -> f j = 0) -> rsum n f = 0.
Proof.
  induction n as [|n IH]; intros Hf; simpl; [done|].
  rewrite IH, Hf by (intros; auto with lia). lra.
Qed.

Lemma rsum_plus n f g : rsum n (fun j => f j + g j) = rsum n f + rsum n g.
Proof. induction n as [|n IH]; simpl; [lra|]. rewrite IH. lra. Qed.

Lemma rsum_scal n c f : rsum n (fun j => c * f j) = c * rsum n f.
Proof. induction n as [|n IH]; simpl; [lra|]. rewrite IH. lra. Qed.

Lemma rsum_single n f i :
  (i < n)%nat ->
  rsum n f = f i + rsum n (fun j => if decide (j = i) then 0 else f j).
Proof.
  induction n as [|n IH]; intros Hi; [lia|]. simpl.
  destruct (decide (n = i)) as [->|Hne].
  - rewrite (rsum_ext i (fun j => if decide (j = i) then 0 else f j) f).
    + lra.
    + intros j Hj. rewrite decide_False by lia. done.
  - rewrite IH by lia. lra.
Qed.

Lemma rsum_shift n f : rsum (S n) f = f O + rsum n (fun j => f (S j)).
Proof.
  induction n as [|n IH]; [simpl; lra|].
  change (rsum (S (S n)) f) with (rsum (S n) f + f (S n)).
  rewrite IH. simpl. lra.
Qed.

Lemma dot_rsum (u v : list R) n :
  length u = n -> length v = n ->
  dot u v = rsum n (fun j => u !!! j * v !!! j).
Proof.
  revert v n. induction u as [|a u IH]; intros [|b v] n Hu Hv;
    simpl in *; subst n; try discriminate; [reflexivity|].
  rewrite rsum_shift. unfold dot in *. simpl.
  rewrite (IH v (length u)) by lia. reflexivity.
Qed.

Lemma matVec_length A x : length (matVec A x) = length A.
Proof. unfold matVec. by rewrite length_fmap. Qed.

Lemma matVec_lookup n A x r :
  square n A -> length x = n -> (r < n)%nat ->
  matVec A x !!! r = rowDot n A r x.
Proof.
  intros [Hlen Hrows] Hx Hr. unfold matVec, rowDot, mget.
  rewrite (@list_lookup_total_fmap (list R) R (fun row => dot row x) _ _ A r) by lia.
  apply dot_rsum; auto.
Qed.

(** The system [A x = B], row by row. *)
Lemma matVec_rows n A x B :
  square n A -> length x = n -> length B = n ->
  matVec A x = B <-> forall r, (r < n)%nat -> rowDot n A r x = B !!! r.
Proof.
  intros Hsq Hx HB. split.
  - intros <- r Hr. symmetry. by apply matVec_lookup.
  - intros Hrows. apply (vector_ext _ _ n); [|done|].
    + rewrite matVec_length. apply Hsq.
    + intros r Hr. rewrite (matVec_lookup n) by done. auto.
Qed.
(** *** The pivot of largest magnitude *)

Lemma pivotSearch_max A n i :
  (i < n)%nat ->
  let maxEl := (pivotSearch A n i).1 in
  let maxRow := (pivotSearch A n i).2 in
  (i <= maxRow < n)%nat /\
  maxEl = Rabs (mget A maxRow i) /\
  forall k, (i <= k < n)%nat -> Rabs (mget A k i) <= maxEl.
Proof.
  intros Hi. unfold pivotSearch.
  pose (P := fun (k : nat) (st : R * nat) =>
    (i <= st.2 < n)%nat /\ st.1 = Rabs (mget A st.2 i) /\
    forall k', (i <= k' < k)%nat -> Rabs (mget A k' i) <= st.1).
  match goal with |- context [for_range (i + 1) n ?body ?s] =>
    assert (Hinv : P n (for_range (i + 1) n body s)) end.
  { apply (for_range_inv P); [lia| |]; unfold P.
    - simpl. split_and!; [lia..|done|].
      intros k' Hk'. assert (k' = i) as -> by lia. rnum. lra.
    - intros k [maxEl maxRow] Hk (Hm & Hel & Hmax). simpl in *. rnum.
      destruct (Rgt_dec (Rabs (mget A k i)) maxEl) as [Hgt|Hle]; simpl.
      + split_and!; [lia..|done|].
        intros k' Hk'. destruct (decide (k' = k)) as [->|Hne]; [lra|].
        specialize (Hmax k' ltac:(lia)). lra.
      + split_and!; [lia..|done|].
        intros k' Hk'. destruct (decide (k' = k)) as [->|Hne]; [lra|].
        apply Hmax. lia. }
  exact Hinv.
Qed.

(** *** One elimination step, on the rows of the system *)

Lemma transpose_involutive i m r : transpose i m (transpose i m r) = r.
Proof. unfold transpose. repeat case_decide; congruence. Qed.

Lemma transpose_lt i m r n :
  (i < n)%nat -> (m < n)%nat -> (r < n)%nat -> (transpose i m r < n)%nat.
Proof. unfold transpose. repeat case_decide; lia. Qed.

(** After step [i], every row is the row it was exchanged with, plus, below
    the pivot row, a multiple of the pivot row; the right-hand sides move
    with the same coefficients. *)
Lemma eliminationStep_rows n i A B :
  square n A -> length B = n -> (i < n)%nat -> lowerZero n i A ->
  let m := (pivotSearch A n i).2 in
  mget A m i <> 0 ->
  let AB' := eliminationStep n i (A, B) in
  length AB'.2 = n /\
  exists c : nat -> R,
    (forall x r, (r < n)%nat ->
       rowDot n AB'.1 r x =
       rowDot n A (transpose i m r) x +
       if decide (i < r)%nat then c r * rowDot n A m x else 0) /\
    (forall r, (r < n)%nat ->
       AB'.2 !!! r =
       B !!! (transpose i m r) +
       if decide (i < r)%nat then c r * B !!! m else 0) /\
    (forall r j, (r <= i)%nat -> (j < n)%nat ->
       mget AB'.1 r j = mget A (transpose i m r) j).
Proof.
  intros Hsq HB Hi Hz m Hpiv AB'. subst AB'.
  rewrite eliminationStep_unfold. cbn zeta. fold m.
  pose proof (pivotSearch_range A n i Hi) as Hm. fold m in Hm. clearbody m.
  rewrite (swapColumns_swapRows n i m A) by done.
  destruct (swapRows_square n i m A Hsq Hi) as [Hsq1 HA1]; [lia|].
  destruct (swapEntries_spec i m B n HB Hi) as [HB1len HB1]; [lia|].
  destruct (eliminateRows_spec n i (swapRows i m A) (swapEntries i m B) Hsq1 Hi)
    as (Hsq2 & HA2 & HB2).
  destruct (HB2 HB1len) as [HB2len HB2v]. clear HB2.
  set (A1 := swapRows i m A) in *. set (B1 := swapEntries i m B) in *.
  set (AB2 := for_range (i + 1) n (eliminateRow n i) (A1, B1)) in *.
  assert (Hpiv1 : mget A1 i i = mget A m i).
  { rewrite HA1 by lia. rewrite decide_True; done. }
  assert (Hentry : forall r j, (r < n)%nat -> (j < n)%nat ->
    mget AB2.1 r j =
    mget A (transpose i m r) j +
    if decide (i < r)%nat then (- mget A1 r i / mget A1 i i) * mget A m j else 0).
  { intros r j Hr Hj. rewrite HA2 by done. rnum.
    assert (Hrow : mget A1 r j = mget A (transpose i m r) j).
    { rewrite HA1 by done. unfold transpose. repeat case_decide; done. }
    assert (Hrowi : mget A1 i j = mget A m j).
    { rewrite HA1 by lia. rewrite decide_True; done. }
    destruct (decide (i < r)%nat) as [Hir|Hir].
    - destruct (decide (i <= j)%nat) as [Hij|Hij].
      + rewrite decide_True by done.
        destruct (decide (j = i)) as [->|Hne].
        * rewrite <- Hrow, Hpiv1. field. done.
        * rewrite Hrow, Hrowi. reflexivity.
      + rewrite decide_False by lia.
        rewrite Hrow. rewrite (Hz m j) by lia. rnum. lra.
    - rewrite decide_False by lia. rewrite Hrow. lra. }
  split; [done|].
  exists (fun r => - mget A1 r i / mget A1 i i). split_and!.
  - intros x r Hr. unfold rowDot.
    rewrite (rsum_ext n _ (fun j =>
      mget A (transpose i m r) j * x !!! j +
      (if decide (i < r)%nat then - mget A1 r i / mget A1 i i else 0) *
        (mget A m j * x !!! j))).
    + rewrite rsum_plus, rsum_scal. case_decide; lra.
    + intros j Hj. rewrite Hentry by done. case_decide; lra.
  - intros r Hr. rewrite HB2v by done. rnum.
    rewrite !HB1 by lia. rewrite (decide_True (P := i = i)) by done.
    unfold transpose. repeat case_decide; try lia; lra.
  - intros r j Hr Hj. rewrite Hentry by lia.
    rewrite decide_False by lia. lra.
Qed.
(** *** Triangular systems *)

(** With a non-zero diagonal above row [i], the entries [x_j], [j >= i], of
    a vector can be chosen freely and completed to a solution of the first
    [i] homogeneous equations. *)
Lemma triangular_completion n A i :
  (i <= n)%nat -> lowerZero n i A ->
  (forall c, (c < i)%nat -> mget A c c <> 0) ->
  forall t, length t = n ->
  exists x, length x = n /\
    (forall j, (i <= j < n)%nat -> x !!! j = t !!! j) /\
    forall r, (r < i)%nat -> rowDot n A r x = 0.
Proof.
  induction i as [|i IH]; intros Hi Hz Hdiag t Ht.
  - exists t. split_and!; [done|done|]. intros r Hr. lia.
  - pose (s := rsum n (fun j => if decide (i < j)%nat then mget A i j * t !!! j else 0)).
    destruct (IH ltac:(lia)) with (t := <[i := - s / mget A i i]> t)
      as (x & Hx & Htail & Hrows).
    { intros r c Hc Hcr Hr. apply Hz; lia. }
    { intros c Hc. apply Hdiag. lia. }
    { by rewrite length_insert. }
    exists x. split_and!; [done| |].
    + intros j Hj. rewrite Htail by lia.
      rewrite list_lookup_total_insert_ne by lia. done.
    + intros r Hr. destruct (decide (r = i)) as [->|Hne]; [|apply Hrows; lia].
      unfold rowDot. rewrite (rsum_single n _ i) by lia.
      rewrite (Htail i) by lia.
      rewrite list_lookup_total_insert_eq by lia.
      rewrite (rsum_ext n _ (fun j =>
        if decide (i < j)%nat then mget A i j * t !!! j else 0)).
      * fold s. field. apply Hdiag. lia.
      * intros j Hj. destruct (decide (j = i)) as [->|Hji].
        { rewrite decide_False by lia. done. }
        destruct (decide (i < j)%nat) as [Hij|Hij].
        { rewrite Htail by lia.
          rewrite list_lookup_total_insert_ne by lia. done. }
        { rewrite (Hz i j) by lia. rnum. lra. }
Qed.

Lemma nonsingular_trivialKernel n A :
  square n A -> nonsingular A -> trivialKernel n A.
Proof.
  intros Hsq Hns x Hx Hrows j Hj.
  destruct Hsq as [Hlen Hr]. unfold nonsingular in Hns. rewrite Hlen in Hns.
  rewrite (Hns x Hx).
  - by apply lookup_total_replicate_2.
  - apply (matVec_rows n); [by split|done|by rewrite length_replicate|].
    intros r Hlt. rewrite Hrows by done.
    symmetry. by apply lookup_total_replicate_2.
Qed.

(** A system with a trivial kernel leaves no zero pivot. *)
Lemma pivot_nonzero n A0 B0 i A B :
  trivialKernel n A0 -> eliminated n A0 B0 i (A, B) -> (i < n)%nat ->
  mget A (pivotSearch A n i).2 i <> 0.
Proof.
  intros Hker (Hsq & HB & Hz & Hdiag & _ & Hk) Hi Hzero. simpl in *.
  destruct (pivotSearch_max A n i Hi) as (Hm & Hel & Hmax).
  rewrite Hzero, Rabs_R0 in Hel.
  assert (Hcol : forall k, (i <= k < n)%nat -> mget A k i = 0).
  { intros k Hk'. specialize (Hmax k Hk'). rewrite Hel in Hmax.
    pose proof (Rabs_pos (mget A k i)).
    destruct (Req_dec (mget A k i) 0) as [|Hne]; [done|].
    pose proof (Rabs_pos_lt _ Hne). lra. }
  destruct (triangular_completion n A i ltac:(lia) Hz Hdiag
              (<[i := 1]> (replicate n 0))) as (x & Hx & Htail & Hrows).
  { by rewrite length_insert, length_replicate. }
  assert (Hxi : x !!! i = 1).
  { rewrite Htail by lia.
    rewrite list_lookup_total_insert_eq by (rewrite length_replicate; lia). done. }
  assert (Hx0 : x !!! i = 0).
  { apply (Hker x Hx); [|done]. apply Hk. intros r Hr.
    destruct (decide (r < i)%nat) as [Hlt|Hge]; [by apply Hrows|].
    unfold rowDot. apply rsum_zero. intros j Hj.
    destruct (Nat.lt_trichotomy j i) as [Hji | [-> | Hij] ].
    - rewrite (Hz r j) by lia. rnum. lra.
    - rewrite Hcol by lia. lra.
    - rewrite Htail by lia.
      rewrite list_lookup_total_insert_ne by lia.
      rewrite lookup_total_replicate_2 by lia. lra. }
  lra.
Qed.

Lemma eliminated_step n A0 B0 i AB :
  trivialKernel n A0 -> eliminated n A0 B0 i AB -> (i < n)%nat ->
  eliminated n A0 B0 (S i) (eliminationStep n i AB).
Proof.
  intros Hker Hinv Hi. destruct AB as [A B].
  pose proof (pivot_nonzero n A0 B0 i A B Hker Hinv Hi) as Hpiv.
  destruct Hinv as (Hsq & HB & Hz & Hdiag & Hsys & Hk). cbn [fst snd] in *.
  pose proof (pivotSearch_range A n i Hi) as Hm.
  destruct (eliminationStep_rows n i A B Hsq HB Hi Hz Hpiv)
    as (HB' & c & Hrow & Hrhs & Hupper).
  destruct (eliminationStep_lowerZero n i A B Hsq Hi Hz) as [Hsq' Hz'].
  set (m := (pivotSearch A n i).2) in *. clearbody m.
  set (AB' := eliminationStep n i (A, B)) in *. clearbody AB'.
  assert (Hback : forall (d b : nat -> R) (d' b' : nat -> R),
    (forall r, (r < n)%nat ->
       d' r = d (transpose i m r) + if decide (i < r)%nat then c r * d m else 0) ->
    (forall r, (r < n)%nat ->
       b' r = b (transpose i m r) + if decide (i < r)%nat then c r * b m else 0) ->
    (forall r, (r < n)%nat -> d' r = b' r) ->
    forall q, (q < n)%nat -> d q = b q).
  { intros d b d' b' Hd Hb Heq.
    assert (Hpivrow : d m = b m).
    { pose proof (Heq i Hi) as Hi'. rewrite Hd, Hb in Hi' by done.
      unfold transpose in Hi'. repeat case_decide; try lia; lra. }
    intros q Hq.
    pose proof (transpose_lt i m q n Hi ltac:(lia) Hq) as Hq'.
    pose proof (Heq _ Hq') as Hr. rewrite Hd, Hb in Hr by done.
    rewrite transpose_involutive in Hr. rewrite Hpivrow in Hr.
    destruct (decide (i < transpose i m q)%nat); lra. }
  unfold eliminated. split_and!; [done|done|done| | |].
  - intros c0 Hc0. rewrite Hupper by lia. unfold transpose.
    destruct (decide (c0 = i)) as [->|Hne]; [done|].
    rewrite decide_False by lia. apply Hdiag. lia.
  - intros x Hx. apply Hsys.
    apply (Hback (fun r => rowDot n A r x) (fun r => B !!! r)
                 (fun r => rowDot n AB'.1 r x) (fun r => AB'.2 !!! r)); auto.
  - intros x Hx. apply Hk.
    apply (Hback (fun r => rowDot n A r x) (fun _ => 0)
                 (fun r => rowDot n AB'.1 r x) (fun _ => 0)); auto.
    intros r Hr. case_decide; lra.
Qed.
Lemma eliminated_stateAt n A0 B0 i :
  square n A0 -> length B0 = n -> trivialKernel n A0 -> (i <= n)%nat ->
  eliminated n A0 B0 i (stateAt n i A0 B0).
Proof.
  intros Hsq HB Hker. induction i as [|i IH]; intros Hi.
  - unfold stateAt. rewrite for_range_empty by lia.
    split_and!; cbn [fst snd]; try done.
    + intros r c Hc. lia.
    + intros c Hc. lia.
  - rewrite stateAt_S. apply eliminated_step; [done| |lia]. apply IH. lia.
Qed.

(** *** Back-substitution *)

Lemma rowSum_rsum n A i x :
  rowSum n A i x =
  rsum n (fun j => if decide (i < j)%nat then mget A i j * x !!! j else 0).
Proof.
  unfold rowSum. destruct (decide (i + 1 <= n)%nat) as [Hle|Hgt].
  - apply (for_range_inv (fun k s =>
      s = rsum k (fun j => if decide (i < j)%nat then mget A i j * x !!! j else 0)));
      [done| |].
    + rnum. symmetry. apply rsum_zero. intros j Hj.
      rewrite decide_False by lia. done.
    + intros k s Hk ->. rnum. simpl. rewrite decide_True by lia. done.
  - rewrite for_range_empty by lia. rnum. symmetry. apply rsum_zero.
    intros j Hj. rewrite decide_False by lia. done.
Qed.

Lemma backSubstitution_solves n A B :
  lowerZero n n A -> (forall c, (c < n)%nat -> mget A c c <> 0) ->
  let x := backSubstitution n A B in
  length x = n /\ forall r, (r < n)%nat -> rowDot n A r x = B !!! r.
Proof.
  intros Hz Hdiag x.
  destruct (backSubstitution_spec n A B) as [Hlen Hval]. fold x in Hlen, Hval.
  split; [done|]. intros r Hr. unfold rowDot.
  rewrite (rsum_single n _ r) by done.
  rewrite (rsum_ext n _ (fun j =>
    if decide (r < j)%nat then mget A r j * x !!! j else 0)).
  - rewrite <- rowSum_rsum. rewrite (Hval r Hr) at 1. rnum.
    field. by apply Hdiag.
  - intros j Hj. destruct (decide (j = r)) as [->|Hne].
    + rewrite decide_False by lia. done.
    + destruct (decide (r < j)%nat) as [Hlt|Hge]; [done|].
      rewrite (Hz r j) by lia. rnum. lra.
Qed.

(** *** [solveMatrix] solves the system *)

Lemma solveMatrix_solves n A B :
  square n A -> length B = n -> nonsingular A ->
  length (solveMatrix A B) = n /\ matVec A (solveMatrix A B) = B.
Proof.
  intros Hsq HB Hns.
  pose proof (nonsingular_trivialKernel n A Hsq Hns) as Hker.
  pose proof (eliminated_stateAt n A B n Hsq HB Hker ltac:(lia))
    as (Hsq' & HB' & Hz & Hdiag & Hsys & _).
  unfold solveMatrix, forwardElimination.
  replace (length A) with n by (symmetry; apply Hsq).
  fold (stateAt n n A B). destruct (stateAt n n A B) as [An Bn].
  cbn [fst snd] in *.
  destruct (backSubstitution_solves n An Bn Hz Hdiag) as [Hlen Hrows].
  split; [done|].
  apply (matVec_rows n); [done..|]. by apply Hsys.
Qed.

(** Two solutions of a non-singular system are one. *)
Lemma nonsingular_unique n A B x y :
  square n A -> nonsingular A -> length x = n -> length y = n ->
  matVec A x = B -> matVec A y = B -> x = y.
Proof.
  intros Hsq Hns Hx Hy HAx HAy.
  pose proof (nonsingular_trivialKernel n A Hsq Hns) as Hker.
  assert (HB : length B = n).
  { rewrite <- HAx, matVec_length. apply Hsq. }
  pose proof (proj1 (matVec_rows n A x B Hsq Hx HB) HAx) as Hrx.
  pose proof (proj1 (matVec_rows n A y B Hsq Hy HB) HAy) as Hry.
  pose (d := zip_with Rminus x y).
  assert (Hd : length d = n).
  { unfold d. rewrite length_zip_with. lia. }
  assert (Hdj : forall j, (j < n)%nat -> d !!! j = x !!! j - y !!! j).
  { intros j Hj. unfold d. apply list_lookup_total_correct.
    rewrite lookup_zip_with.
    rewrite (list_lookup_lookup_total_lt x j), (list_lookup_lookup_total_lt y j) by lia.
    reflexivity. }
  apply (vector_ext _ _ n); [done..|]. intros j Hj.
  assert (d !!! j = 0); [|rewrite Hdj in *; [lra|done] ].
  apply (Hker d Hd); [|done]. intros r Hr. unfold rowDot.
  rewrite (rsum_ext n _ (fun j =>
    mget A r j * x !!! j + (-1) * (mget A r j * y !!! j))).
  - rewrite rsum_plus, rsum_scal.
    fold (rowDot n A r x). fold (rowDot n A r y). rewrite Hrx, Hry by done. lra.
  - intros k Hk. rewrite Hdj by done. lra.
Qed.


End Exact.

Section Identity.
Local Open Scope R_scope.

Lemma Rfloor_INR (k : nat) : Rfloor (INR k) = Z.of_nat k.
Proof.
  unfold Rfloor.
  rewrite <- (tech_up (INR k) (Z.of_nat k + 1)).
  - lia.
  - rewrite plus_IZR, <- INR_IZR_INZ. lra.
  - rewrite plus_IZR, <- INR_IZR_INZ. lra.
Qed.

Lemma Rfloor_INR_half (k : nat) : Rfloor (INR k + / 2) = Z.of_nat k.
Proof.
  unfold Rfloor.
  rewrite <- (tech_up (INR k + / 2) (Z.of_nat k + 1)).
  - lia.
  - rewrite plus_IZR, <- INR_IZR_INZ. lra.
  - rewrite plus_IZR, <- INR_IZR_INZ. lra.
Qed.

Lemma nround_INR (k : nat) : nround (INR k) = INR k.
Proof. rnum. rewrite Rfloor_INR_half. by rewrite <- INR_IZR_INZ. Qed.

Lemma to_index_INR (k : nat) : to_index (INR k) = k.
Proof. rnum. rewrite Rfloor_INR. apply Nat2Z.id. Qed.

Lemma sqrt_sq_plus_0 (a : R) : 0 <= a -> R_sqrt.sqrt (a * a + 0 * 0) = a.
Proof. intros Ha. rewrite Rmult_0_l, Rplus_0_r. by apply sqrt_square. Qed.

Lemma sqrt_0_plus_sq (a : R) : 0 <= a -> R_sqrt.sqrt (0 * 0 + a * a) = a.
Proof. intros Ha. rewrite Rmult_0_l, Rplus_0_l. by apply sqrt_square. Qed.

Lemma rectangle_dimensions (w h : nat) :
  maxWidthOf (rectangle (INR w) (INR h)) = INR w /\
  maxHeightOf (rectangle (INR w) (INR h)) = INR h.
Proof.
  pose proof (pos_INR w) as Hw. pose proof (pos_INR h) as Hh.
  unfold maxWidthOf, maxHeightOf, dist, pow2, rectangle.
  cbn [lookup_total list_lookup_total px py]. split.
  - change (nround (Rmax (R_sqrt.sqrt ((INR w - 0) * (INR w - 0) + (0 - 0) * (0 - 0)))
                         (R_sqrt.sqrt ((INR w - 0) * (INR w - 0) + (INR h - INR h) * (INR h - INR h))))
            = INR w).
    replace (INR w - 0) with (INR w) by lra.
    replace (0 - 0) with 0 by lra. replace (INR h - INR h) with 0 by lra.
    rewrite sqrt_sq_plus_0 by done. rewrite Rmax_left by lra. apply nround_INR.
  - change (nround (Rmax (R_sqrt.sqrt ((0 - 0) * (0 - 0) + (INR h - 0) * (INR h - 0)))
                         (R_sqrt.sqrt ((INR w - INR w) * (INR w - INR w) + (INR h - 0) * (INR h - 0))))
            = INR h).
    replace (INR h - 0) with (INR h) by lra.
    replace (0 - 0) with 0 by lra. replace (INR w - INR w) with 0 by lra.
    rewrite sqrt_0_plus_sq by done. rewrite Rmax_left by lra. apply nround_INR.
Qed.
Lemma identity_system (W H : R) :
  0 < W -> 0 < H ->
  let sys := homographySystem (rectangle W H) (dstPointsOf W H) in
  nonsingular sys.1 /\ matVec sys.1 identityCoefficients = sys.2.
Proof.
  intros HW HH sys. split.
  - intros x Hx.
    destruct x as [|x0 [|x1 [|x2 [|x3 [|x4 [|x5 [|x6 [|x7 [|? ?] ] ] ] ] ] ] ] ];
      try discriminate.
    cbn. rnum. intros Heq.
    injection Heq as E0 E1 E2 E3 E4 E5 E6 E7.
    assert (x2 = 0) as -> by lra.
    assert (x5 = 0) as -> by lra.
    assert (x3 = 0) as -> by (apply (Rmult_eq_reg_l W); lra).
    assert (x1 = 0) as -> by (apply (Rmult_eq_reg_l H); lra).
    assert (x7 = 0) as -> by (apply (Rmult_eq_reg_l (H * W)); [lra|nra]).
    assert (x4 = 0) as -> by (apply (Rmult_eq_reg_l H); lra).
    assert (x6 = 0) as -> by (apply (Rmult_eq_reg_l (W * H)); [lra|nra]).
    assert (x0 = 0) as -> by (apply (Rmult_eq_reg_l W); lra).
    reflexivity.
  - cbn. rnum. repeat f_equal; lra.
Qed.
Lemma homography_solves (p0 p1 p2 p3 : Point R) :
  let quad := [p0; p1; p2; p3] in
  let sys := homographySystem quad
               (dstPointsOf (maxWidthOf quad) (maxHeightOf quad)) in
  nonsingular sys.1 ->
  length (homography quad) = 8%nat /\ matVec sys.1 (homography quad) = sys.2.
Proof.
  intros quad sys Hns.
  destruct (homographySystem_square8 quad
              (dstPointsOf (maxWidthOf quad) (maxHeightOf quad))) as [Hsq HB].
  change (homography quad) with (solveMatrix sys.1 sys.2).
  by apply solveMatrix_solves.
Qed.

(** C8, amended.  In exact arithmetic, when the system of a
    quadrilateral is non-singular the solved coefficients have
    [h2 = p0.x] and [h5 = p0.y]; at destination pixel (0,0) the denominator
    is 1 and the inverse map gives exactly [p0].  (Binary64 gives no such
    bound: a system that is non-singular in exact arithmetic can lose its
    last pivot to rounding, and [h2] and [h5] are NaN then.) *)
Theorem corner_correspondence (p0 p1 p2 p3 : Point R) :
  let quad := [p0; p1; p2; p3] in
  let sys := homographySystem quad
               (dstPointsOf (maxWidthOf quad) (maxHeightOf quad)) in
  nonsingular sys.1 ->
  let H := homography quad in
  H !!! 2%nat = px p0 /\ H !!! 5%nat = py p0 /\
  let denom := H !!! 6%nat * INR 0 + H !!! 7%nat * INR 0 + 1 in
  denom = 1 /\
  (H !!! 0%nat * INR 0 + H !!! 1%nat * INR 0 + H !!! 2%nat) / denom = px p0 /\
  (H !!! 3%nat * INR 0 + H !!! 4%nat * INR 0 + H !!! 5%nat) / denom = py p0.
Proof.
  intros quad sys Hns H.
  destruct (homography_solves p0 p1 p2 p3 Hns) as [Hlen Hsol]. fold quad H in Hlen, Hsol.
  clearbody H.
  destruct H as [|h0 [|h1 [|h2 [|h3 [|h4 [|h5 [|h6 [|h7 [|? ?] ] ] ] ] ] ] ] ];
    try discriminate.
  cbn in Hsol. rnum. injection Hsol as E0 E1 _ _ _ _ _ _.
  cbn [lookup_total list_lookup_total]. simpl INR.
  assert (h2 = px p0) as -> by lra.
  assert (h5 = py p0) as -> by lra.
  split_and!; [done|done|lra|field_simplify; lra..].
Qed.

(** C8 read at the unit square. *)
Lemma corner_correspondence_witness :
  let H := homography (rectangle (INR 1) (INR 1)) in
  H !!! 2%nat = 0 /\ H !!! 5%nat = 0 /\
  let denom := H !!! 6%nat * INR 0 + H !!! 7%nat * INR 0 + 1 in
  denom = 1 /\
  (H !!! 0%nat * INR 0 + H !!! 1%nat * INR 0 + H !!! 2%nat) / denom = 0 /\
  (H !!! 3%nat * INR 0 + H !!! 4%nat * INR 0 + H !!! 5%nat) / denom = 0.
Proof.
  apply (corner_correspondence (mkPoint 0 0) (mkPoint (INR 1) 0)
           (mkPoint (INR 1) (INR 1)) (mkPoint 0 (INR 1))).
  fold (rectangle (INR 1) (INR 1)).
  destruct (rectangle_dimensions 1 1) as [-> ->].
  apply identity_system; simpl; lra.
Defined.

Lemma identity_sampled (w h : nat) srcData (x y c : nat) (old : Z) :
  (x < w)%nat -> (y < h)%nat ->
  sampled identityCoefficients srcData w h x y c old =
  byteAt srcData ((y * w + x) * 4 + c).
Proof.
  intros Hx Hy.
  assert (HX : sourceX identityCoefficients x y = INR x).
  { unfold sourceX, identityCoefficients. cbn [lookup_total list_lookup_total].
    transitivity (nround (INR x)); [|apply nround_INR]. f_equal. rnum. field. }
  assert (HY : sourceY identityCoefficients x y = INR y).
  { unfold sourceY, identityCoefficients. cbn [lookup_total list_lookup_total].
    transitivity (nround (INR y)); [|apply nround_INR]. f_equal. rnum. field. }
  unfold sampled. rewrite HX, HY, !to_index_INR.
  unfold inSource. rnum.
  pose proof (pos_INR x). pose proof (pos_INR y).
  apply lt_INR in Hx, Hy.
  destruct (Rge_dec (INR x) 0); [|lra]. destruct (Rlt_dec (INR x) (INR w)); [|lra].
  destruct (Rge_dec (INR y) 0); [|lra]. destruct (Rlt_dec (INR y) (INR h)); [|lra].
  reflexivity.
Qed.

(** C5.  In exact arithmetic, for a source raster of [W > 0] by [H > 0]
    pixels, the quadrilateral (0,0), (W,0), (W,H), (0,H) gives
    [maxWidth = W] and [maxHeight = H], the solved homography is the
    identity [1,0,0,0,1,0,0,0], and the raster returned is the source
    raster. *)
Theorem identity_rectification (img : Raster) :
  (0 < width img)%nat -> (0 < height img)%nat ->
  length (data img) = (4 * (width img * height img))%nat ->
  let quad := rectangle (INR (width img)) (INR (height img)) in
  maxWidthOf quad = INR (width img) /\
  maxHeightOf quad = INR (height img) /\
  homography quad = identityCoefficients /\
  warpPerspective (mkEnv true true) img quad = Resolved img.
Proof.
  intros Hw Hh Hlen quad.
  destruct (rectangle_dimensions (width img) (height img)) as [HW HH].
  fold quad in HW, HH.
  assert (Hhom : homography quad = identityCoefficients).
  { pose proof (homography_solves (mkPoint 0 0) (mkPoint (INR (width img)) 0)
      (mkPoint (INR (width img)) (INR (height img))) (mkPoint 0 (INR (height img))))
      as Hsol.
    fold (rectangle (INR (width img)) (INR (height img))) in Hsol. fold quad in Hsol.
    cbn zeta in Hsol. rewrite HW, HH in Hsol.
    destruct (identity_system (INR (width img)) (INR (height img))) as [Hns Hid].
    { apply lt_0_INR. lia. } { apply lt_0_INR. lia. }
    destruct (Hsol Hns) as [Hl Hs].
    destruct (homographySystem_square8 quad
      (dstPointsOf (INR (width img)) (INR (height img)))) as [Hsq _].
    apply (nonsingular_unique 8 _ _ _ _ Hsq Hns Hl (eq_refl : length identityCoefficients = 8%nat) Hs Hid). }
  split_and!; [done..|].
  unfold quad, rectangle. rewrite warpPerspective_four_points; cycle 1.
  { fold (rectangle (INR (width img)) (INR (height img))). fold quad.
    rewrite HW, to_index_INR. lia. }
  { fold (rectangle (INR (width img)) (INR (height img))). fold quad.
    rewrite HH, to_index_INR. lia. }
  { lia. }
  { lia. }
  fold (rectangle (INR (width img)) (INR (height img))). fold quad.
  rewrite HW, HH, Hhom, !to_index_INR.
  destruct img as [w h d]. cbn [width height data] in *.
  do 2 f_equal.
  destruct (pixelLoop_spec identityCoefficients d w h w h
              (replicate (4 * (w * h)) 255%Z)) as [Hl Hval].
  { by rewrite length_replicate. }
  apply bytes_ext; [lia|]. intros i Hi. rewrite Hl in Hi.
  destruct (pixel_index_split w h i Hi) as (x & y & c & Hx & Hy & Hc & ->).
  rewrite Hval by done. by apply identity_sampled.
Qed.

(** C5 read at a raster of one pixel. *)
Lemma identity_rectification_witness :
  warpPerspective (mkEnv true true) (mkRaster 1 1 [10; 20; 30; 255]%Z)
    (rectangle (INR 1) (INR 1)) = Resolved (mkRaster 1 1 [10; 20; 30; 255]%Z).
Proof.
  apply (identity_rectification (mkRaster 1 1 [10; 20; 30; 255]%Z));
    [cbn; lia | cbn; lia | reflexivity].
Defined.
End Identity.

(** ** The default corners *)

(** C9.  [getDefaultCorners width height] is the list of the four points
    [(0.2*width, 0.2*height)], [(width - 0.2*width, 0.2*height)],
    [(width - 0.2*width, height - 0.2*height)],
    [(0.2*width, height - 0.2*height)]: top-left, top-right, bottom-right,
    bottom-left, each side moved in by a fifth.  First as the code writes
    the products, for any arithmetic; then with the factor 0.2 first, in
    binary64 and in exact arithmetic. *)
Theorem getDefaultCorners_inset :
  (forall (num : Type) (NumOps : Number num) (width height : num),
     getDefaultCorners width height =
     [ mkPoint (width * n02) (height * n02);
       mkPoint (width - width * n02) (height * n02);
       mkPoint (width - width * n02) (height - height * n02);
       mkPoint (width * n02) (height - height * n02) ]%num) /\
  (forall width height : float,
     getDefaultCorners width height =
     [ mkPoint (n02 * width) (n02 * height);
       mkPoint (width - n02 * width) (n02 * height);
       mkPoint (width - n02 * width) (height - n02 * height);
       mkPoint (n02 * width) (height - n02 * height) ]%num) /\
  (forall width height : R,
     getDefaultCorners width height =
     [ mkPoint (2 / 10 * width) (2 / 10 * height);
       mkPoint (width - 2 / 10 * width) (2 / 10 * height);
       mkPoint (width - 2 / 10 * width) (height - 2 / 10 * height);
       mkPoint (2 / 10 * width) (height - 2 / 10 * height) ]%R).
Proof.
  split_and!.
  - reflexivity.
  - intros width height. unfold getDefaultCorners. cbn.
    by rewrite (mul_comm width), (mul_comm height).
  - intros width height. unfold getDefaultCorners. cbn.
    by rewrite (Rmult_comm width), (Rmult_comm height).
Qed.

(** * More of the code *)

(** ** More of warpPerspective and solveMatrix, for any arithmetic *)

Section MoreWarp.
Context {num : Type} {NumOps : Number num}.

(** X1.  [warpPerspective] reads [srcPoints[0]] to [srcPoints[3]] only:
    points after the fourth change nothing, whatever the arithmetic. *)
Theorem warpPerspective_first_four env img (p0 p1 p2 p3 : Point num)
    (more : list (Point num)) :
  warpPerspective env img (p0 :: p1 :: p2 :: p3 :: more) =
  warpPerspective env img [p0; p1; p2; p3].
Proof. reflexivity. Qed.


(** X3.  The fill loop of lines 142-144 leaves every byte of the buffer at
    255, the alpha bytes included, and keeps its length, whatever the length
    is: when it is no multiple of four the last writes fall past the end and
    are dropped. *)
Theorem fillWhite_all_white (data : list Z) :
  length (fillWhite data) = length data /\
  Forall (fun b => b = 255%Z) (fillWhite data).
Proof.
  rewrite fillWhite_replicate. split.
  - apply length_replicate.
  - by apply Forall_replicate.
Qed.

(** X4.  For a square matrix of [n] rows and a right-hand side of [n]
    entries (the shape of the call of line 124) and any arithmetic,
    [solveMatrix] returns [n] numbers, and they satisfy the recurrence of
    back substitution on the eliminated system [(U, c)], itself square:
    [x[i] = (c[i] - sum) / U[i][i]], the sum of lines 64-67 being taken over
    the final values [x[j]], [j > i], from 0 and in the order of the loop. *)
Theorem solveMatrix_back_substitution n (A : Matrix num) (B : Vector num) :
  square n A -> length B = n ->
  let U := (forwardElimination n (A, B)).1 in
  let c := (forwardElimination n (A, B)).2 in
  let x := solveMatrix A B in
  square n U /\ length c = n /\ length x = n /\
  forall i, i < n ->
    x !!! i = ((c !!! i - rowSum n U i x) / mget U i i)%num.
Proof.
  intros Hsq HB U c x.
  destruct (stateAt_lowerZero n A B n Hsq) as [HsqU _]; [lia|].
  pose proof (stateAt_length n A B n Hsq HB ltac:(lia)) as Hc.
  subst x U c. unfold solveMatrix. rewrite (proj1 Hsq).
  unfold stateAt in HsqU, Hc. unfold forwardElimination.
  destruct (for_range 0 n (eliminationStep n) (A, B)) as [U c]. cbn [fst snd] in *.
  split_and!; [done|done|..]; apply backSubstitution_spec.
Qed.

End MoreWarp.

(** X4 read in binary64 at a system of two equations. *)
Lemma solveMatrix_back_substitution_witness :
  let A := [[2; 1]; [4; 3]]%float in
  let B := [3; 7]%float in
  let U := (forwardElimination 2 (A, B)).1 in
  let c := (forwardElimination 2 (A, B)).2 in
  let x := solveMatrix A B in
  square 2 U /\ length c = 2%nat /\ length x = 2%nat /\
  forall i, (i < 2)%nat ->
    x !!! i = ((c !!! i - rowSum 2 U i x) / mget U i i)%num.
Proof.
  apply (solveMatrix_back_substitution 2 [[2; 1]; [4; 3]]%float [3; 7]%float).
  - split; [reflexivity|]. intros [|[|r] ] Hr; [reflexivity|reflexivity|lia].
  - reflexivity.
Defined.

(** ** A NaN among the corners *)

Section NaNCorner.
Import PrimFloat.
Local Open Scope float_scope.

Lemma is_nan_inv x : is_nan x = true -> x = nan.
Proof.
  unfold is_nan. rewrite FloatAxioms.eqb_spec. intros H. apply Prim2SF_inj.
  change (Prim2SF nan) with S754_nan.
  destruct (Prim2SF x) as [s|s| |s m e]; try reflexivity; exfalso.
  - destruct s; discriminate.
  - destruct s; discriminate.
  - unfold SFeqb, SFcompare in H.
    rewrite Z.compare_refl, Pos.compare_cont_refl in H.
    destruct s; discriminate.
Qed.

Lemma sqrt_nan : sqrt nan = nan.
Proof. reflexivity. Qed.

Lemma dist_nan_l (p q : Point float) :
  is_nan (px p) || is_nan (py p) = true -> dist p q = nan.
Proof.
  intros H. unfold dist, pow2. cbn [nsqrt nadd nsub nmul float_number].
  apply orb_true_iff in H as [H|H]; apply is_nan_inv in H; rewrite H.
  - by rewrite nan_sub_r, nan_mul_l, nan_add_l.
  - by rewrite nan_sub_r, nan_mul_l, nan_add_r.
Qed.

Lemma dist_nan_r (p q : Point float) :
  is_nan (px q) || is_nan (py q) = true -> dist p q = nan.
Proof.
  intros H. unfold dist, pow2. cbn [nsqrt nadd nsub nmul float_number].
  apply orb_true_iff in H as [H|H]; apply is_nan_inv in H; rewrite H.
  - by rewrite nan_sub_l, nan_mul_l, nan_add_l.
  - by rewrite nan_sub_l, nan_mul_l, nan_add_r.
Qed.

Lemma max_nan_l b : F64.max nan b = nan.
Proof. reflexivity. Qed.

Lemma max_nan_r a : F64.max a nan = nan.
Proof.
  unfold F64.max. destruct (is_nan a) eqn:E; [by apply is_nan_inv|reflexivity].
Qed.

Lemma round_nan : F64.round nan = nan.
Proof. reflexivity. Qed.

(** X5.  In binary64, when a coordinate of one of the four corners is NaN,
    both destination sizes are NaN: each corner is an end of one measured
    width and of one measured height, and NaN passes through the
    subtraction, the square, the sum, [Math.sqrt], [Math.max] and
    [Math.round].  As canvas sizes they are read as 0 by 0. *)
Theorem nan_corner_sizes (p0 p1 p2 p3 : Point float) :
  existsb (fun p => is_nan (px p) || is_nan (py p)) [p0; p1; p2; p3] = true ->
  let quad := [p0; p1; p2; p3] in
  maxWidthOf quad = nan /\ maxHeightOf quad = nan /\
  to_index (maxWidthOf quad) = 0%nat /\ to_index (maxHeightOf quad) = 0%nat.
Proof.
  intros H quad.
  assert (HW : maxWidthOf quad = nan /\ maxHeightOf quad = nan).
  { unfold maxWidthOf, maxHeightOf, quad.
    cbn [lookup_total list_lookup_total nround nmax float_number].
    cbn [existsb] in H. rewrite orb_false_r in H.
    apply orb_true_iff in H as [H|H]; [|apply orb_true_iff in H as [H|H];
      [|apply orb_true_iff in H as [H|H] ] ].
    - by rewrite (dist_nan_l p0 p1 H), (dist_nan_l p0 p3 H), !max_nan_l.
    - by rewrite (dist_nan_r p0 p1 H), (dist_nan_l p1 p2 H), max_nan_l, max_nan_r.
    - by rewrite (dist_nan_r p3 p2 H), (dist_nan_r p1 p2 H), !max_nan_r.
    - by rewrite (dist_nan_l p3 p2 H), (dist_nan_r p0 p3 H), max_nan_l, max_nan_r. }
  destruct HW as [-> ->]. done.
Qed.

(** X5 read at a quadrilateral whose third corner has a NaN ordinate. *)
Lemma nan_corner_sizes_witness :
  let quad := [mkPoint 0 0; mkPoint 10 0; mkPoint 10 nan; mkPoint 0 10] in
  maxWidthOf quad = nan /\ maxHeightOf quad = nan /\
  to_index (maxWidthOf quad) = 0%nat /\ to_index (maxHeightOf quad) = 0%nat.
Proof.
  apply (nan_corner_sizes (mkPoint 0 0) (mkPoint 10 0) (mkPoint 10 nan) (mkPoint 0 10)).
  reflexivity.
Defined.

End NaNCorner.

(** ** More in exact arithmetic *)

Section Solvable.
Local Open Scope R_scope.

(** *** The distance *)

Lemma dist_unfold (p q : Point R) :
  dist p q =
  R_sqrt.sqrt ((px q - px p) * (px q - px p) + (py q - py p) * (py q - py p)).
Proof. reflexivity. Qed.

Lemma sum_squares_nonneg (a b : R) : 0 <= a * a + b * b.
Proof. nra. Qed.

(** X6.  Over the reals [dist] is a metric: it is never negative, does
    not depend on the order of its two points, is zero for equal points
    only, and obeys the triangle inequality. *)
Theorem dist_metric (p q r : Point R) :
  0 <= dist p q /\
  dist p q = dist q p /\
  (dist p q = 0 <-> p = q) /\
  dist p r <= dist p q + dist q r.
Proof.
  rewrite !dist_unfold. split_and!.
  - apply sqrt_pos.
  - f_equal. ring.
  - split.
    + intros H. apply sqrt_eq_0 in H; [|apply sum_squares_nonneg].
      destruct p as [a b], q as [c d]. cbn [px py] in *.
      pose proof (Rle_0_sqr (c - a)) as Hx. pose proof (Rle_0_sqr (d - b)) as Hy.
      unfold Rsqr in Hx, Hy.
      assert (c - a = 0) by (apply Rsqr_0_uniq; unfold Rsqr; lra).
      assert (d - b = 0) by (apply Rsqr_0_uniq; unfold Rsqr; lra).
      f_equal; lra.
    + intros ->. replace (px q - px q) with 0 by ring.
      replace (py q - py q) with 0 by ring.
      rewrite Rmult_0_l, Rplus_0_l. apply sqrt_0.
  - set (a := px q - px p). set (b := py q - py p).
    set (c := px r - px q). set (d := py r - py q).
    replace (px r - px p) with (a + c) by (unfold a, c; ring).
    replace (py r - py p) with (b + d) by (unfold b, d; ring).
    clearbody a b c d.
    pose proof (sum_squares_nonneg a b) as HA.
    pose proof (sum_squares_nonneg c d) as HB.
    pose proof (sum_squares_nonneg (a + c) (b + d)) as HC.
    pose proof (sqrt_pos (a * a + b * b)) as Hu.
    pose proof (sqrt_pos (c * c + d * d)) as Hv.
    pose proof (sqrt_sqrt _ HA) as Huu.
    pose proof (sqrt_sqrt _ HB) as Hvv.
    set (u := R_sqrt.sqrt (a * a + b * b)) in *.
    set (v := R_sqrt.sqrt (c * c + d * d)) in *.
    rewrite <- (sqrt_square (u + v)) by lra.
    apply sqrt_le_1_alt.
    assert (Hcs : a * c + b * d <= u * v).
    { destruct (Rle_dec (a * c + b * d) 0) as [Hneg|Hpos].
      - pose proof (Rmult_le_pos u v Hu Hv). lra.
      - apply Rnot_le_lt in Hpos.
        apply Rsqr_incr_0_var; [|apply Rmult_le_pos; lra].
        unfold Rsqr.
        replace (u * v * (u * v)) with ((u * u) * (v * v)) by ring.
        rewrite Huu, Hvv.
        pose proof (Rle_0_sqr (a * d - b * c)) as Hsq. unfold Rsqr in Hsq. lra. }
    nra.
Qed.

(** *** When the system can be solved *)

Lemma kernel_direction (ux uy vx vy : R) :
  ux * vy - vx * uy = 0 ->
  exists a b, (a <> 0 \/ b <> 0) /\ ux * a + vx * b = 0 /\ uy * a + vy * b = 0.
Proof.
  intros Hdet.
  destruct (Req_dec vx 0) as [Hvx|Hvx]; [|exists vx, (- ux); split; [by left|lra] ].
  destruct (Req_dec ux 0) as [Hux|Hux];
    [|exists vx, (- ux); split; [right; lra|lra] ].
  destruct (Req_dec vy 0) as [Hvy|Hvy];
    [|exists vy, (- uy); split; [by left|subst; lra] ].
  exists 0, 1. subst. split; [right; lra|lra].
Qed.

Lemma homographySystem_nonsingular (p0 p1 p2 p3 : Point R) (W H : R) :
  nonsingular (homographySystem [p0; p1; p2; p3] (dstPointsOf W H)).1 <->
  W <> 0 /\ H <> 0 /\ cross p1 p2 p3 <> 0.
Proof.
  unfold cross.
  destruct p0 as [x0 y0], p1 as [x1 y1], p2 as [x2 y2], p3 as [x3 y3].
  cbn [px py]. split.
  - intros Hns.
    assert (Hd : W * H * ((x1 - x2) * (y3 - y2) - (x3 - x2) * (y1 - y2)) <> 0).
    { intros Hd.
      destruct (kernel_direction (W * (x1 - x2)) (W * (y1 - y2))
                  (H * (x3 - x2)) (H * (y3 - y2))) as (a & b & Hab & E1 & E2);
        [lra|].
      specialize (Hns [x1 * a; x3 * b; 0; y1 * a; y3 * b; 0; a; b] eq_refl).
      cbn in Hns. rnum.
      assert (Hz : [x1 * a; x3 * b; 0; y1 * a; y3 * b; 0; a; b] =
                   [0; 0; 0; 0; 0; 0; 0; 0]).
      { apply Hns. repeat f_equal; lra. }
      injection Hz as _ _ _ _ Ha Hb. lra. }
    split_and!; intros Hz; apply Hd; rewrite Hz; ring.
  - intros (HW & HH & Hc) h Hlen.
    destruct h as [|h0 [|h1 [|h2 [|h3 [|h4 [|h5 [|h6 [|h7 [|? ?] ] ] ] ] ] ] ] ];
      try discriminate.
    cbn. rnum. intros Heq.
    injection Heq as E0 E1 E2 E3 E4 E5 E6 E7.
    assert (h2 = 0) as -> by lra.
    assert (h5 = 0) as -> by lra.
    assert (F1 : W * (x1 - x2) * h6 + H * (x3 - x2) * h7 = 0) by lra.
    assert (F2 : W * (y1 - y2) * h6 + H * (y3 - y2) * h7 = 0) by lra.
    set (D := W * H * ((x1 - x2) * (y3 - y2) - (x3 - x2) * (y1 - y2))).
    assert (HD : D <> 0).
    { unfold D. repeat apply Rmult_integral_contrapositive_currified; done. }
    assert (h6 = 0) as ->.
    { apply (Rmult_eq_reg_l D); [|done]. unfold D.
      replace (W * H * ((x1 - x2) * (y3 - y2) - (x3 - x2) * (y1 - y2)) * h6)
        with ((W * (x1 - x2) * h6 + H * (x3 - x2) * h7) * (H * (y3 - y2)) -
              (W * (y1 - y2) * h6 + H * (y3 - y2) * h7) * (H * (x3 - x2))) by ring.
      rewrite F1, F2. ring. }
    assert (h7 = 0) as ->.
    { apply (Rmult_eq_reg_l D); [|done]. unfold D.
      replace (W * H * ((x1 - x2) * (y3 - y2) - (x3 - x2) * (y1 - y2)) * h7)
        with ((W * (y1 - y2) * 0 + H * (y3 - y2) * h7) * (W * (x1 - x2)) -
              (W * (x1 - x2) * 0 + H * (x3 - x2) * h7) * (W * (y1 - y2))) by ring.
      rewrite F1, F2. ring. }
    assert (h0 = 0) as -> by (apply (Rmult_eq_reg_l W); lra).
    assert (h1 = 0) as -> by (apply (Rmult_eq_reg_l H); lra).
    assert (h3 = 0) as -> by (apply (Rmult_eq_reg_l W); lra).
    assert (h4 = 0) as -> by (apply (Rmult_eq_reg_l H); lra).
    reflexivity.
Qed.

(** X7.  Over the reals, the system that [warpPerspective] hands to
    [solveMatrix] has one solution only exactly when the destination is not
    empty ([maxWidth] and [maxHeight] are not 0) and the corners [p1], [p2],
    [p3] are not on one line.  The first corner plays no part. *)
Theorem homography_solvable_iff (p0 p1 p2 p3 : Point R) :
  let quad := [p0; p1; p2; p3] in
  let sys := homographySystem quad
               (dstPointsOf (maxWidthOf quad) (maxHeightOf quad)) in
  nonsingular sys.1 <->
  maxWidthOf quad <> 0 /\ maxHeightOf quad <> 0 /\ cross p1 p2 p3 <> 0.
Proof. intros quad sys. apply homographySystem_nonsingular. Qed.

End Solvable.

Section Corners.
Local Open Scope R_scope.

(** *** All four corners *)

Lemma homographySystem_mapsTo (p0 p1 p2 p3 : Point R) (W H : R) (h : Vector R) :
  let sys := homographySystem [p0; p1; p2; p3] (dstPointsOf W H) in
  length h = 8%nat -> matVec sys.1 h = sys.2 ->
  Forall2 (mapsTo h) (dstPointsOf W H) [p0; p1; p2; p3].
Proof.
  intros sys Hlen Hsol. subst sys.
  destruct h as [|h0 [|h1 [|h2 [|h3 [|h4 [|h5 [|h6 [|h7 [|? ?] ] ] ] ] ] ] ] ];
    try discriminate.
  cbn in Hsol. rnum. injection Hsol as E0 E1 E2 E3 E4 E5 E6 E7.
  unfold dstPointsOf. rnum.
  constructor; [|constructor; [|constructor; [|constructor; [|constructor] ] ] ];
    unfold mapsTo; cbn [lookup_total list_lookup_total px py]; cbn zeta.
  all: match goal with
       | |- ?nu = ?sx * ?de /\ ?nv = ?sy * ?de /\ _ =>
           assert (Hu : nu = sx * de) by lra;
           assert (Hv : nv = sy * de) by lra;
           split; [exact Hu|split; [exact Hv|] ];
           intros Hd; rewrite Hu, Hv; unfold Rdiv;
           rewrite !Rmult_assoc, (Rinv_r _ Hd); split; ring
       end.
Qed.

(** X8.  Over the reals, when the system of a quadrilateral has one
    solution only, the solved map sends every corner of the destination
    rectangle to the corner of the quadrilateral it was paired with:
    (0,0) to [p0], (maxWidth,0) to [p1], (maxWidth,maxHeight) to [p2] and
    (0,maxHeight) to [p3]. *)
Theorem corners_correspondence (p0 p1 p2 p3 : Point R) :
  let quad := [p0; p1; p2; p3] in
  let dstPoints := dstPointsOf (maxWidthOf quad) (maxHeightOf quad) in
  nonsingular (homographySystem quad dstPoints).1 ->
  Forall2 (mapsTo (homography quad)) dstPoints quad.
Proof.
  intros quad dstPoints Hns.
  destruct (homography_solves p0 p1 p2 p3 Hns) as [Hlen Hsol].
  by apply homographySystem_mapsTo.
Qed.

(** X8 read at the unit square. *)
Lemma corners_correspondence_witness :
  Forall2 (mapsTo (homography (rectangle (INR 1) (INR 1))))
    (dstPointsOf (maxWidthOf (rectangle (INR 1) (INR 1)))
                 (maxHeightOf (rectangle (INR 1) (INR 1))))
    (rectangle (INR 1) (INR 1)).
Proof.
  apply (corners_correspondence (mkPoint 0 0) (mkPoint (INR 1) 0)
           (mkPoint (INR 1) (INR 1)) (mkPoint 0 (INR 1))).
  fold (rectangle (INR 1) (INR 1)).
  destruct (rectangle_dimensions 1 1) as [-> ->].
  apply identity_system; simpl; lra.
Defined.

(** *** Axis-parallel rectangles *)

Lemma sqrt_sq_abs (a : R) : R_sqrt.sqrt (a * a + 0 * 0) = Rabs a.
Proof.
  rewrite Rmult_0_l, Rplus_0_r. fold (Rsqr a). apply sqrt_Rsqr_abs.
Qed.

Lemma sqrt_sq_abs' (a : R) : R_sqrt.sqrt (0 * 0 + a * a) = Rabs a.
Proof.
  rewrite Rmult_0_l, Rplus_0_l. fold (Rsqr a). apply sqrt_Rsqr_abs.
Qed.

Lemma axisParallel_dimensions (a b c d : R) :
  maxWidthOf (axisParallel a b c d) = nround (Rabs (c - a)) /\
  maxHeightOf (axisParallel a b c d) = nround (Rabs (d - b)).
Proof.
  unfold maxWidthOf, maxHeightOf, axisParallel.
  cbn [lookup_total list_lookup_total]. rewrite !dist_unfold. cbn [px py].
  replace (b - b) with 0 by ring. replace (d - d) with 0 by ring.
  replace (a - a) with 0 by ring. replace (c - c) with 0 by ring.
  rewrite !sqrt_sq_abs, !sqrt_sq_abs'.
  change (nmax ?x ?y) with (Rmax x y).
  rewrite !Rmax_left by lra. done.
Qed.

Lemma affineCoefficients_solve (a b c d W H : R) :
  W <> 0 -> H <> 0 ->
  let sys := homographySystem (axisParallel a b c d) (dstPointsOf W H) in
  matVec sys.1 (affineCoefficients a b c d W H) = sys.2.
Proof.
  intros HW HH. cbn. rnum. repeat f_equal; field; done.
Qed.

Lemma axisParallel_homography (a b c d : R) :
  let quad := axisParallel a b c d in
  maxWidthOf quad <> 0 -> maxHeightOf quad <> 0 -> a <> c -> b <> d ->
  homography quad =
  affineCoefficients a b c d (maxWidthOf quad) (maxHeightOf quad).
Proof.
  intros quad HW HH Hac Hbd.
  assert (Hns : nonsingular (homographySystem quad
                  (dstPointsOf (maxWidthOf quad) (maxHeightOf quad))).1).
  { apply homographySystem_nonsingular. split_and!; [done..|].
    unfold cross. cbn [px py]. intros Hz.
    assert (Hp : (a - c) * (b - d) = 0) by lra.
    apply Rmult_integral in Hp as [?|?]; lra. }
  destruct (homography_solves (mkPoint a b) (mkPoint c b) (mkPoint c d) (mkPoint a d) Hns)
    as [Hlen Hsol].
  destruct (homographySystem_square8 quad
              (dstPointsOf (maxWidthOf quad) (maxHeightOf quad))) as [Hsq _].
  apply (nonsingular_unique 8
           (homographySystem quad (dstPointsOf (maxWidthOf quad) (maxHeightOf quad))).1
           (homographySystem quad (dstPointsOf (maxWidthOf quad) (maxHeightOf quad))).2
           (homography quad)
           (affineCoefficients a b c d (maxWidthOf quad) (maxHeightOf quad))
           Hsq Hns Hlen); [reflexivity|exact Hsol|].
  by apply affineCoefficients_solve.
Qed.

Lemma nround_ge_1 (r : R) : / 2 <= r -> 1 <= nround r.
Proof.
  intros Hr. rnum. unfold Rfloor.
  destruct (archimed (r + / 2)) as [Hup _].
  apply IZR_le. assert (0 < up (r + / 2) - 1)%Z; [|lia].
  apply lt_IZR. rewrite minus_IZR. lra.
Qed.

(** X9.  Over the reals, the default quadrilateral of an image of [w] by
    [h] pixels ([w, h >= 1]) gives the destination sizes
    [round(0.6 w)] and [round(0.6 h)], both at least 1, and a map without
    perspective terms: [u = 0.2 w + x * 0.6 w / maxWidth],
    [v = 0.2 h + y * 0.6 h / maxHeight], the denominator being 1. *)
Theorem default_corners_affine (w h : nat) :
  (0 < w)%nat -> (0 < h)%nat ->
  let quad := getDefaultCorners (INR w) (INR h) in
  maxWidthOf quad = nround (6 / 10 * INR w) /\
  maxHeightOf quad = nround (6 / 10 * INR h) /\
  1 <= maxWidthOf quad /\ 1 <= maxHeightOf quad /\
  homography quad =
  [6 / 10 * INR w / maxWidthOf quad; 0; 2 / 10 * INR w;
   0; 6 / 10 * INR h / maxHeightOf quad; 2 / 10 * INR h; 0; 0].
Proof.
  intros Hw Hh quad.
  apply lt_INR in Hw, Hh. simpl in Hw, Hh.
  assert (Hw1 : 1 <= INR w).
  { destruct w; [simpl in Hw; lra|]. rewrite S_INR. pose proof (pos_INR w). lra. }
  assert (Hh1 : 1 <= INR h).
  { destruct h; [simpl in Hh; lra|]. rewrite S_INR. pose proof (pos_INR h). lra. }
  set (W := INR w) in *. set (H := INR h) in *.
  assert (Hq : quad = axisParallel (W * (2 / 10)) (H * (2 / 10))
                        (W - W * (2 / 10)) (H - H * (2 / 10))) by reflexivity.
  destruct (axisParallel_dimensions (W * (2 / 10)) (H * (2 / 10))
              (W - W * (2 / 10)) (H - H * (2 / 10))) as [HW HH].
  rewrite <- Hq in HW, HH.
  replace (Rabs (W - W * (2 / 10) - W * (2 / 10))) with (6 / 10 * W) in HW
    by (rewrite Rabs_right; lra).
  replace (Rabs (H - H * (2 / 10) - H * (2 / 10))) with (6 / 10 * H) in HH
    by (rewrite Rabs_right; lra).
  assert (HW1 : 1 <= maxWidthOf quad) by (rewrite HW; apply nround_ge_1; lra).
  assert (HH1 : 1 <= maxHeightOf quad) by (rewrite HH; apply nround_ge_1; lra).
  split_and!; [done..|].
  pose proof (axisParallel_homography (W * (2 / 10)) (H * (2 / 10))
                (W - W * (2 / 10)) (H - H * (2 / 10))) as Haff.
  cbn zeta in Haff. rewrite <- Hq in Haff.
  rewrite Haff; [|lra..].
  unfold affineCoefficients.
  replace (W - W * (2 / 10) - W * (2 / 10)) with (6 / 10 * W) by lra.
  replace (H - H * (2 / 10) - H * (2 / 10)) with (6 / 10 * H) by lra.
  replace (W * (2 / 10)) with (2 / 10 * W) by lra.
  replace (H * (2 / 10)) with (2 / 10 * H) by lra.
  reflexivity.
Qed.

(** X9 read at an image of 10 by 5 pixels. *)
Lemma default_corners_affine_witness :
  let quad := getDefaultCorners (INR 10) (INR 5) in
  maxWidthOf quad = nround (6 / 10 * INR 10) /\
  maxHeightOf quad = nround (6 / 10 * INR 5) /\
  1 <= maxWidthOf quad /\ 1 <= maxHeightOf quad /\
  homography quad =
  [6 / 10 * INR 10 / maxWidthOf quad; 0; 2 / 10 * INR 10;
   0; 6 / 10 * INR 5 / maxHeightOf quad; 2 / 10 * INR 5; 0; 0].
Proof. apply (default_corners_affine 10 5); lia. Defined.

End Corners.

Section Cropping.
Local Open Scope R_scope.

(** *** Cropping *)

Lemma cropQuad_homography (a b w h : nat) :
  (0 < w)%nat -> (0 < h)%nat ->
  maxWidthOf (cropQuad a b w h) = INR w /\
  maxHeightOf (cropQuad a b w h) = INR h /\
  homography (cropQuad a b w h) = cropCoefficients a b.
Proof.
  intros Hw Hh. apply lt_INR in Hw, Hh. simpl in Hw, Hh.
  unfold cropQuad.
  destruct (axisParallel_dimensions (INR a) (INR b) (INR a + INR w) (INR b + INR h))
    as [HW HH].
  replace (INR a + INR w - INR a) with (INR w) in HW by ring.
  replace (INR b + INR h - INR b) with (INR h) in HH by ring.
  rewrite Rabs_right, nround_INR in HW by lra.
  rewrite Rabs_right, nround_INR in HH by lra.
  split_and!; [done..|].
  rewrite axisParallel_homography; rewrite ?HW, ?HH; [|lra..].
  unfold affineCoefficients, cropCoefficients.
  replace ((INR a + INR w - INR a) / INR w) with 1 by (field; lra).
  replace ((INR b + INR h - INR b) / INR h) with 1 by (field; lra).
  reflexivity.
Qed.

Lemma crop_sampled (a b : nat) srcData (W H x y c : nat) (old : Z) :
  sampled (cropCoefficients a b) srcData W H x y c old =
  if ((a + x <? W) && (b + y <? H))%nat
  then byteAt srcData (((b + y) * W + (a + x)) * 4 + c)
  else old.
Proof.
  assert (HX : sourceX (cropCoefficients a b) x y = INR (a + x)).
  { unfold sourceX, cropCoefficients. cbn [lookup_total list_lookup_total].
    transitivity (nround (INR (a + x))); [|apply nround_INR]. f_equal.
    rewrite plus_INR. rnum. field. }
  assert (HY : sourceY (cropCoefficients a b) x y = INR (b + y)).
  { unfold sourceY, cropCoefficients. cbn [lookup_total list_lookup_total].
    transitivity (nround (INR (b + y))); [|apply nround_INR]. f_equal.
    rewrite plus_INR. rnum. field. }
  unfold sampled. rewrite HX, HY, !to_index_INR.
  unfold inSource. rnum.
  pose proof (pos_INR (a + x)). pose proof (pos_INR (b + y)).
  destruct (Rge_dec (INR (a + x)) 0); [|lra].
  destruct (Rge_dec (INR (b + y)) 0); [|lra].
  destruct (Nat.ltb_spec (a + x) W) as [Hx|Hx];
    destruct (Nat.ltb_spec (b + y) H) as [Hy|Hy];
    try apply lt_INR in Hx; try apply lt_INR in Hy;
    try apply le_INR in Hx; try apply le_INR in Hy;
    destruct (Rlt_dec (INR (a + x)) (INR W));
    destruct (Rlt_dec (INR (b + y)) (INR H)); try lra; reflexivity.
Qed.

Lemma crop_pixels img (quad : list (Point R)) (a b w h : nat) :
  length quad = 4%nat -> (0 < w)%nat -> (0 < h)%nat ->
  (0 < width img)%nat -> (0 < height img)%nat ->
  maxWidthOf quad = INR w -> maxHeightOf quad = INR h ->
  homography quad = cropCoefficients a b ->
  exists r,
    warpPerspective (mkEnv true true) img quad = Resolved r /\
    width r = w /\ height r = h /\
    forall x y c, (x < w)%nat -> (y < h)%nat -> (c < 4)%nat ->
      byteAt (data r) ((y * w + x) * 4 + c) =
      if ((a + x <? width img) && (b + y <? height img))%nat
      then byteAt (data img) (((b + y) * width img + (a + x)) * 4 + c)
      else 255%Z.
Proof.
  intros Hlen Hw Hh Hsw Hsh HW HH Hhom.
  destruct quad as [|p0 [|p1 [|p2 [|p3 [|? ?] ] ] ] ]; try discriminate.
  eexists. split; [apply warpPerspective_four_points; cbn zeta;
                   rewrite ?HW, ?HH, ?to_index_INR; lia|].
  cbn [width height data].
  rewrite HW, HH, Hhom, !to_index_INR. split_and!; [done..|].
  intros x y c Hx Hy Hc.
  destruct (pixelLoop_spec (cropCoefficients a b) (data img) (width img) (height img)
              w h (replicate (4 * (w * h)) 255%Z)) as [_ Hval].
  { by rewrite length_replicate. }
  rewrite Hval by done.
  rewrite byteAt_replicate by (by apply pixel_index_bound).
  apply crop_sampled.
Qed.

(** X10.  Over the reals, for the axis-parallel rectangle of [w] by [h]
    pixels ([w, h >= 1]) whose first pixel is [(a, b)], the solved map is
    the translation [u = x + a], [v = y + b] and the raster returned is the
    crop: [w] by [h] pixels, pixel [(x, y)] being the source pixel
    [(a + x, b + y)] where the source has one, and white where the
    rectangle leaves the source; the source is any raster of at least one
    pixel.  With [a = b = 0] and the size of the source this is the
    identity of C5. *)
Theorem axis_parallel_crop img (a b w h : nat) :
  (0 < w)%nat -> (0 < h)%nat -> (0 < width img)%nat -> (0 < height img)%nat ->
  homography (cropQuad a b w h) = cropCoefficients a b /\
  exists r,
    warpPerspective (mkEnv true true) img (cropQuad a b w h) = Resolved r /\
    width r = w /\ height r = h /\
    forall x y c, (x < w)%nat -> (y < h)%nat -> (c < 4)%nat ->
      byteAt (data r) ((y * w + x) * 4 + c) =
      if ((a + x <? width img) && (b + y <? height img))%nat
      then byteAt (data img) (((b + y) * width img + (a + x)) * 4 + c)
      else 255%Z.
Proof.
  intros Hw Hh Hsw Hsh.
  destruct (cropQuad_homography a b w h Hw Hh) as (HW & HH & Hhom).
  split; [exact Hhom|]. by apply crop_pixels.
Qed.

(** X10 read at the second pixel of a raster of two. *)
Lemma axis_parallel_crop_witness :
  homography (cropQuad 1 0 1 1) = cropCoefficients 1 0 /\
  exists r,
    warpPerspective (mkEnv true true)
      (mkRaster 2 1 [10; 20; 30; 255; 40; 50; 60; 255]%Z) (cropQuad 1 0 1 1)
      = Resolved r /\
    width r = 1%nat /\ height r = 1%nat /\
    forall x y c, (x < 1)%nat -> (y < 1)%nat -> (c < 4)%nat ->
      byteAt (data r) ((y * 1 + x) * 4 + c) =
      if ((1 + x <? 2) && (0 + y <? 1))%nat
      then byteAt [10; 20; 30; 255; 40; 50; 60; 255]%Z (((0 + y) * 2 + (1 + x)) * 4 + c)
      else 255%Z.
Proof.
  apply (axis_parallel_crop (mkRaster 2 1 [10; 20; 30; 255; 40; 50; 60; 255]%Z) 1 0 1 1);
    cbn [width height]; lia.
Defined.

Lemma INR_5 (a : nat) : INR (5 * a) = 5 * INR a.
Proof. rewrite mult_INR. simpl. lra. Qed.

Lemma INR_3 (a : nat) : INR (3 * a) = 3 * INR a.
Proof. rewrite mult_INR. simpl. lra. Qed.

Lemma getDefaultCorners_crop (a b : nat) :
  getDefaultCorners (INR (5 * a)) (INR (5 * b)) = cropQuad a b (3 * a) (3 * b).
Proof.
  unfold getDefaultCorners, cropQuad, axisParallel. rnum. cbn [n02 real_number].
  rewrite !INR_5, !INR_3.
  replace (5 * INR a * (2 / 10)) with (INR a) by lra.
  replace (5 * INR b * (2 / 10)) with (INR b) by lra.
  replace (5 * INR a - INR a) with (INR a + 3 * INR a) by lra.
  replace (5 * INR b - INR b) with (INR b + 3 * INR b) by lra.
  reflexivity.
Qed.

(** X11.  Over the reals, for an image of [5a] by [5b] pixels the default
    quadrilateral of [getDefaultCorners], given to [warpPerspective]
    unchanged, returns the middle of the image: [3a] by [3b] pixels, pixel
    [(x, y)] being the source pixel [(a + x, b + y)]. *)
Theorem default_corners_crop img (a b : nat) :
  (0 < a)%nat -> (0 < b)%nat ->
  width img = (5 * a)%nat -> height img = (5 * b)%nat ->
  exists r,
    warpPerspective (mkEnv true true) img
      (getDefaultCorners (INR (width img)) (INR (height img))) = Resolved r /\
    width r = (3 * a)%nat /\ height r = (3 * b)%nat /\
    forall x y c, (x < 3 * a)%nat -> (y < 3 * b)%nat -> (c < 4)%nat ->
      byteAt (data r) ((y * (3 * a) + x) * 4 + c) =
      byteAt (data img) (((b + y) * (5 * a) + (a + x)) * 4 + c).
Proof.
  intros Ha Hb HW HH. rewrite HW, HH, getDefaultCorners_crop.
  destruct (cropQuad_homography a b (3 * a) (3 * b)) as (Hmw & Hmh & Hhom); [lia..|].
  destruct (crop_pixels img (cropQuad a b (3 * a) (3 * b)) a b (3 * a) (3 * b)
              eq_refl ltac:(lia) ltac:(lia) ltac:(lia) ltac:(lia) Hmw Hmh Hhom)
    as (r & Hres & Hw & Hh & Hpix).
  exists r. split_and!; [done..|].
  intros x y c Hx Hy Hc. rewrite (Hpix x y c Hx Hy Hc), HW, HH.
  destruct (Nat.ltb_spec (a + x) (5 * a)); [|lia].
  destruct (Nat.ltb_spec (b + y) (5 * b)); [|lia]. reflexivity.
Qed.

(** X11 read at an image of 5 by 5 pixels. *)
Lemma default_corners_crop_witness :
  exists r,
    warpPerspective (mkEnv true true) (mkRaster 5 5 (replicate 100 7%Z))
      (getDefaultCorners (INR 5) (INR 5)) = Resolved r /\
    width r = 3%nat /\ height r = 3%nat /\
    forall x y c, (x < 3)%nat -> (y < 3)%nat -> (c < 4)%nat ->
      byteAt (data r) ((y * 3 + x) * 4 + c) =
      byteAt (replicate 100 7%Z) (((1 + y) * 5 + (1 + x)) * 4 + c).
Proof.
  apply (default_corners_crop (mkRaster 5 5 (replicate 100 7%Z)) 1 1);
    [lia|lia|reflexivity|reflexivity].
Defined.

(** *** Reads stay inside the source *)

Lemma Rfloor_IZR (k : Z) : Rfloor (IZR k) = k.
Proof.
  unfold Rfloor. rewrite <- (tech_up (IZR k) (k + 1)); [lia| |];
    rewrite plus_IZR; lra.
Qed.

Lemma index_in_range (r : R) (n : nat) :
  (if Rge_dec (nround r) 0 then true else false) = true ->
  (if Rlt_dec (nround r) (INR n) then true else false) = true ->
  (to_index (nround r) < n)%nat.
Proof.
  rnum. set (k := Rfloor (r + / 2)). rewrite Rfloor_IZR.
  destruct (Rge_dec (IZR k) 0) as [Hge|]; [|discriminate].
  destruct (Rlt_dec (IZR k) (INR n)) as [Hlt|]; [|discriminate].
  intros _ _. rewrite INR_IZR_INZ in Hlt. apply lt_IZR in Hlt.
  apply Rge_le, le_IZR in Hge. lia.
Qed.

(** X12.  Over the reals, for a source raster whose buffer has the
    length of its size, every read of lines 159-162 is inside the buffer:
    when the bounds test of line 155 holds for a destination pixel, the four
    indices [srcIdx .. srcIdx + 3] are below [srcData.length].  This holds
    for any coefficients [H]. *)
Theorem sampled_read_in_bounds (H : Vector R) (img : Raster) (x y c : nat) :
  length (data img) = (4 * (width img * height img))%nat -> (c < 4)%nat ->
  inSource (width img) (height img) (sourceX H x y) (sourceY H x y) = true ->
  ((to_index (sourceY H x y) * width img + to_index (sourceX H x y)) * 4 + c
   < length (data img))%nat.
Proof.
  intros Hlen Hc Hin. rewrite Hlen.
  unfold inSource in Hin.
  apply andb_true_iff in Hin as [Hin Hy2]. apply andb_true_iff in Hin as [Hin Hy1].
  apply andb_true_iff in Hin as [Hx1 Hx2].
  apply pixel_index_bound; [|  |exact Hc].
  - exact (index_in_range _ _ Hx1 Hx2).
  - exact (index_in_range _ _ Hy1 Hy2).
Qed.

(** X12 read at the identity map on a raster of one pixel. *)
Lemma sampled_read_in_bounds_witness :
  ((to_index (sourceY identityCoefficients 0 0) * 1 +
    to_index (sourceX identityCoefficients 0 0)) * 4 + 3 < 4)%nat.
Proof.
  apply (sampled_read_in_bounds identityCoefficients
           (mkRaster 1 1 [10; 20; 30; 255]%Z) 0 0 3); [reflexivity|lia|].
  assert (HX : sourceX identityCoefficients 0 0 = INR 0).
  { unfold sourceX, identityCoefficients. cbn [lookup_total list_lookup_total].
    transitivity (nround (INR 0)); [|apply nround_INR]. f_equal. rnum. field. }
  assert (HY : sourceY identityCoefficients 0 0 = INR 0).
  { unfold sourceY, identityCoefficients. cbn [lookup_total list_lookup_total].
    transitivity (nround (INR 0)); [|apply nround_INR]. f_equal. rnum. field. }
  rewrite HX, HY. unfold inSource. cbn [width height]. rnum. simpl.
  destruct (Rge_dec 0 0); [|lra]. destruct (Rlt_dec 0 1); [|lra]. reflexivity.
Defined.

(** *** solveMatrix *)

(** X13.  Over the reals [solveMatrix] undoes the product with a
    non-singular matrix: [solveMatrix A (A x) = x]. *)
Theorem solveMatrix_left_inverse n (A : Matrix R) (x : Vector R) :
  square n A -> nonsingular A -> length x = n ->
  solveMatrix A (matVec A x) = x.
Proof.
  intros Hsq Hns Hx.
  assert (HB : length (matVec A x) = n) by (rewrite matVec_length; apply Hsq).
  destruct (solveMatrix_solves n A (matVec A x) Hsq HB Hns) as [Hlen Hsol].
  exact (nonsingular_unique n A (matVec A x) _ _ Hsq Hns Hlen Hx Hsol eq_refl).
Qed.

(** X13 read at a 2 by 2 system. *)
Lemma solveMatrix_left_inverse_witness :
  solveMatrix [[2; 1]; [1; 3]] (matVec [[2; 1]; [1; 3]] [1; 1]) = [1; 1].
Proof.
  apply (solveMatrix_left_inverse 2); [| |reflexivity].
  - split; [reflexivity|]. intros [|[|r]] Hr; [reflexivity..|lia].
  - intros x Hx. destruct x as [|a [|b [|? ?]]]; try discriminate.
    cbn. intros [= H1 H2]. f_equal; [|f_equal]; lra.
Defined.

(** X14.  Over the reals, the pivot search of lines 31-38 returns the
    first row of largest magnitude: every row from [i] up to the chosen one
    is strictly smaller in column [i], and no row is larger.  The test of
    line 34 is strict, so on a tie the earlier row stays. *)
Theorem pivotSearch_first_largest (A : Matrix R) (n i : nat) :
  (i < n)%nat ->
  let maxRow := (pivotSearch A n i).2 in
  (i <= maxRow < n)%nat /\
  (forall k, (i <= k < maxRow)%nat ->
     Rabs (mget A k i) < Rabs (mget A maxRow i)) /\
  (forall k, (i <= k < n)%nat ->
     Rabs (mget A k i) <= Rabs (mget A maxRow i)).
Proof.
  intros Hi. unfold pivotSearch.
  pose (P := fun (k : nat) (st : R * nat) =>
    (i <= st.2 < k)%nat /\ st.1 = Rabs (mget A st.2 i) /\
    (forall k', (i <= k' < st.2)%nat -> Rabs (mget A k' i) < st.1) /\
    (forall k', (i <= k' < k)%nat -> Rabs (mget A k' i) <= st.1)).
  match goal with |- context [for_range (i + 1) n ?body ?s] =>
    assert (Hinv : P n (for_range (i + 1) n body s)) end.
  { apply (for_range_inv P); [lia| |]; unfold P.
    - simpl. split_and!; [lia..|done| |].
      + intros k' Hk'. lia.
      + intros k' Hk'. assert (k' = i) as -> by lia. rnum. lra.
    - intros k [maxEl maxRow] Hk (Hm & Hel & Hfirst & Hmax). simpl in *. rnum.
      destruct (Rgt_dec (Rabs (mget A k i)) maxEl) as [Hgt|Hle]; simpl.
      + split_and!; [lia..|done| |].
        * intros k' Hk'. specialize (Hmax k' ltac:(lia)). lra.
        * intros k' Hk'. destruct (decide (k' = k)) as [->|Hne]; [lra|].
          specialize (Hmax k' ltac:(lia)). lra.
      + split_and!; [lia..|done|done|].
        intros k' Hk'. destruct (decide (k' = k)) as [->|Hne]; [lra|].
        apply Hmax. lia. }
  destruct Hinv as (Hm & Hel & Hfirst & Hmax). cbn zeta.
  split_and!; [lia..| |].
  - intros k Hk. rewrite <- Hel. by apply Hfirst.
  - intros k Hk. rewrite <- Hel. by apply Hmax.
Qed.

(** X14 read at a column with a tie. *)
Lemma pivotSearch_first_largest_witness :
  let maxRow := (pivotSearch [[1; 0]; [-1; 0]] 2 0).2 in
  (0 <= maxRow < 2)%nat /\
  (forall k, (0 <= k < maxRow)%nat ->
     Rabs (mget [[1; 0]; [-1; 0]] k 0) < Rabs (mget [[1; 0]; [-1; 0]] maxRow 0)) /\
  (forall k, (0 <= k < 2)%nat ->
     Rabs (mget [[1; 0]; [-1; 0]] k 0) <= Rabs (mget [[1; 0]; [-1; 0]] maxRow 0)).
Proof. apply (pivotSearch_first_largest [[1; 0]; [-1; 0]] 2 0). lia. Defined.

End Cropping.

Section FirstPixel.
Local Open Scope R_scope.

Lemma maxWidthOf_index (quad : list (Point R)) :
  maxWidthOf quad <> 0 -> (0 < to_index (maxWidthOf quad))%nat.
Proof.
  unfold maxWidthOf. rewrite !dist_unfold. rnum.
  set (m := Rmax _ _).
  assert (Hm : 0 <= m).
  { unfold m. eapply Rle_trans; [apply sqrt_pos|apply Rmax_l]. }
  rewrite Rfloor_IZR. intros Hne.
  assert (Hk : (0 <= Rfloor (m + / 2))%Z).
  { unfold Rfloor. destruct (archimed (m + / 2)) as [Hup _].
    assert (0 < up (m + / 2))%Z; [|lia]. apply lt_IZR. lra. }
  assert (Rfloor (m + / 2) <> 0)%Z by (intros Hz; apply Hne; by rewrite Hz).
  lia.
Qed.

Lemma maxHeightOf_index (quad : list (Point R)) :
  maxHeightOf quad <> 0 -> (0 < to_index (maxHeightOf quad))%nat.
Proof.
  unfold maxHeightOf. rewrite !dist_unfold. rnum.
  set (m := Rmax _ _).
  assert (Hm : 0 <= m).
  { unfold m. eapply Rle_trans; [apply sqrt_pos|apply Rmax_l]. }
  rewrite Rfloor_IZR. intros Hne.
  assert (Hk : (0 <= Rfloor (m + / 2))%Z).
  { unfold Rfloor. destruct (archimed (m + / 2)) as [Hup _].
    assert (0 < up (m + / 2))%Z; [|lia]. apply lt_IZR. lra. }
  assert (Rfloor (m + / 2) <> 0)%Z by (intros Hz; apply Hne; by rewrite Hz).
  lia.
Qed.

(** X15.  Over the reals, when the system of a quadrilateral has one
    solution only, on a source of at least one pixel a raster is returned,
    it is not empty and its first pixel
    shows the source under the first corner: destination (0,0) takes the
    four channels of source pixel [(round(p0.x), round(p0.y))] when that
    pixel lies in the source, and is white when it does not. *)
Theorem first_pixel_is_first_corner img (p0 p1 p2 p3 : Point R) :
  let quad := [p0; p1; p2; p3] in
  let dstPoints := dstPointsOf (maxWidthOf quad) (maxHeightOf quad) in
  nonsingular (homographySystem quad dstPoints).1 ->
  (0 < width img)%nat -> (0 < height img)%nat ->
  exists r,
    warpPerspective (mkEnv true true) img quad = Resolved r /\
    (0 < width r)%nat /\ (0 < height r)%nat /\
    forall c, (c < 4)%nat ->
      byteAt (data r) c =
      if inSource (width img) (height img) (nround (px p0)) (nround (py p0))
      then byteAt (data img)
             ((to_index (nround (py p0)) * width img + to_index (nround (px p0))) * 4 + c)
      else 255%Z.
Proof.
  intros quad dstPoints Hns Hsw Hsh.
  pose proof (proj1 (homographySystem_nonsingular p0 p1 p2 p3 _ _) Hns)
    as (HW & HH & _).
  apply maxWidthOf_index in HW. apply maxHeightOf_index in HH.
  fold quad in HW, HH.
  destruct (homography_solves p0 p1 p2 p3 Hns) as [Hlen Hsol].
  pose proof (homographySystem_mapsTo p0 p1 p2 p3 _ _ _ Hlen Hsol) as Hmap.
  fold quad in Hlen, Hsol, Hmap.
  apply Forall2_cons_1 in Hmap as [(Hu & Hv & _) _]. cbn [px py] in Hu, Hv.
  eexists. split; [apply warpPerspective_four_points; fold quad; lia|].
  cbn [width height data]. fold quad. split_and!; [done..|].
  intros c Hc.
  destruct (pixelLoop_spec (homography quad) (data img) (width img) (height img)
              (to_index (maxWidthOf quad)) (to_index (maxHeightOf quad))
              (replicate (4 * (to_index (maxWidthOf quad) *
                               to_index (maxHeightOf quad))) 255%Z)) as [_ Hval].
  { by rewrite length_replicate. }
  specialize (Hval 0%nat 0%nat c HW HH Hc).
  replace ((0 * to_index (maxWidthOf quad) + 0) * 4 + c)%nat with c in Hval by lia.
  rewrite Hval, (byteAt_replicate _ c) by nia. unfold sampled.
  assert (HX : sourceX (homography quad) 0 0 = nround (px p0)).
  { unfold sourceX. f_equal. rnum. change (INR 0) with 0.
    replace (homography quad !!! 0%nat * 0 + homography quad !!! 1%nat * 0 +
             homography quad !!! 2%nat)
      with (px p0 * (homography quad !!! 6%nat * 0 + homography quad !!! 7%nat * 0 + 1))
      by (rewrite <- Hu; reflexivity).
    field; lra. }
  assert (HY : sourceY (homography quad) 0 0 = nround (py p0)).
  { unfold sourceY. f_equal. rnum. change (INR 0) with 0.
    replace (homography quad !!! 3%nat * 0 + homography quad !!! 4%nat * 0 +
             homography quad !!! 5%nat)
      with (py p0 * (homography quad !!! 6%nat * 0 + homography quad !!! 7%nat * 0 + 1))
      by (rewrite <- Hv; reflexivity).
    field; lra. }
  rewrite HX, HY. reflexivity.
Qed.

(** X15 read at the unit square over a raster of one pixel. *)
Lemma first_pixel_is_first_corner_witness :
  exists r,
    warpPerspective (mkEnv true true) (mkRaster 1 1 [10; 20; 30; 255]%Z)
      (rectangle (INR 1) (INR 1)) = Resolved r /\
    (0 < width r)%nat /\ (0 < height r)%nat /\
    forall c, (c < 4)%nat ->
      byteAt (data r) c =
      if inSource 1 1 (nround 0) (nround 0)
      then byteAt [10; 20; 30; 255]%Z
             ((to_index (nround 0) * 1 + to_index (nround 0)) * 4 + c)
      else 255%Z.
Proof.
  apply (first_pixel_is_first_corner (mkRaster 1 1 [10; 20; 30; 255]%Z)
           (mkPoint 0 0) (mkPoint (INR 1) 0) (mkPoint (INR 1) (INR 1))
           (mkPoint 0 (INR 1))).
  - fold (rectangle (INR 1) (INR 1)).
    destruct (rectangle_dimensions 1 1) as [-> ->].
    apply identity_system; simpl; lra.
  - cbn [width]. lia.
  - cbn [height]. lia.
Defined.

End FirstPixel.

(** ** Convex quadrilaterals *)

Section Convex.
Local Open Scope R_scope.

(** The weights of the four corners at the point [(s W, t H)] of the
    destination, [s] and [t] between 0 and 1. *)
Lemma corner_weights (s t d1 d2 d3 : R) :
  0 <= s <= 1 -> 0 <= t <= 1 -> 0 < d1 -> 0 < d2 -> 0 < d3 ->
  d2 = d1 + d3 - 1 ->
  0 < 1 + s * (d1 - 1) + t * (d3 - 1).
Proof.
  intros Hs Ht H1 H2 H3 E.
  replace (1 + s * (d1 - 1) + t * (d3 - 1))
    with ((1 - s) * (1 - t) + s * (1 - t) * d1 + s * t * d2 + (1 - s) * t * d3)
    by (rewrite E; ring).
  assert (Ha : 0 <= (1 - s) * (1 - t)) by (apply Rmult_le_pos; lra).
  assert (Hb : 0 <= s * (1 - t)) by (apply Rmult_le_pos; lra).
  assert (Hc : 0 <= s * t) by (apply Rmult_le_pos; lra).
  assert (Hd : 0 <= (1 - s) * t) by (apply Rmult_le_pos; lra).
  assert (Hsum : (1 - s) * (1 - t) + s * (1 - t) + s * t + (1 - s) * t = 1) by ring.
  set (m := Rmin (Rmin 1 d1) (Rmin d2 d3)).
  assert (Hm : 0 < m) by (unfold m; repeat apply Rmin_glb_lt; lra).
  assert (Hm0 : m <= 1) by (unfold m; eapply Rle_trans; [apply Rmin_l|apply Rmin_l]).
  assert (Hm1 : m <= d1) by (unfold m; eapply Rle_trans; [apply Rmin_l|apply Rmin_r]).
  assert (Hm2 : m <= d2) by (unfold m; eapply Rle_trans; [apply Rmin_r|apply Rmin_l]).
  assert (Hm3 : m <= d3) by (unfold m; eapply Rle_trans; [apply Rmin_r|apply Rmin_r]).
  clearbody m.
  pose proof (Rmult_le_compat_l _ _ _ Ha Hm0) as Ka.
  pose proof (Rmult_le_compat_l _ _ _ Hb Hm1) as Kb.
  pose proof (Rmult_le_compat_l _ _ _ Hc Hm2) as Kc.
  pose proof (Rmult_le_compat_l _ _ _ Hd Hm3) as Kd.
  assert (m <= (1 - s) * (1 - t) + s * (1 - t) * d1 + s * t * d2 + (1 - s) * t * d3).
  { replace m with (((1 - s) * (1 - t) + s * (1 - t) + s * t + (1 - s) * t) * m)
      by (rewrite Hsum; ring).
    lra. }
  lra.
Qed.

(** A point of the destination is sent to a weighted mean of the corners. *)
Lemma corner_mean (s t d1 d2 d3 x0 x1 x2 x3 M : R) :
  0 <= s <= 1 -> 0 <= t <= 1 -> 0 < d1 -> 0 < d2 -> 0 < d3 ->
  d2 = d1 + d3 - 1 ->
  x2 * d2 = x1 * d1 + x3 * d3 - x0 ->
  x0 <= M -> x1 <= M -> x2 <= M -> x3 <= M ->
  x0 + s * (x1 * d1 - x0) + t * (x3 * d3 - x0) <=
  M * (1 + s * (d1 - 1) + t * (d3 - 1)).
Proof.
  intros Hs Ht H1 H2 H3 E E2 B0 B1 B2 B3.
  assert (Ha : 0 <= (1 - s) * (1 - t)) by (apply Rmult_le_pos; lra).
  assert (Hb : 0 <= s * (1 - t) * d1) by (repeat apply Rmult_le_pos; lra).
  assert (Hc : 0 <= s * t * d2) by (repeat apply Rmult_le_pos; lra).
  assert (Hd : 0 <= (1 - s) * t * d3) by (repeat apply Rmult_le_pos; lra).
  assert (Hgap :
    M * (1 + s * (d1 - 1) + t * (d3 - 1)) -
    (x0 + s * (x1 * d1 - x0) + t * (x3 * d3 - x0)) =
    (1 - s) * (1 - t) * (M - x0) + s * (1 - t) * d1 * (M - x1) +
    s * t * d2 * (M - x2) + (1 - s) * t * d3 * (M - x3)).
  { replace (s * t * d2 * (M - x2)) with (s * t * (M * d2 - x2 * d2)) by ring.
    rewrite E2, E. ring. }
  assert (K0 : 0 <= _ * (M - x0)) by (apply (Rmult_le_pos _ _ Ha); lra).
  assert (K1 : 0 <= _ * (M - x1)) by (apply (Rmult_le_pos _ _ Hb); lra).
  assert (K2 : 0 <= _ * (M - x2)) by (apply (Rmult_le_pos _ _ Hc); lra).
  assert (K3 : 0 <= _ * (M - x3)) by (apply (Rmult_le_pos _ _ Hd); lra).
  lra.
Qed.

Lemma convex_solution (p0 p1 p2 p3 : Point R) (W H : R) (h : Vector R) :
  let sys := homographySystem [p0; p1; p2; p3] (dstPointsOf W H) in
  W <> 0 -> H <> 0 -> convexQuad p0 p1 p2 p3 ->
  length h = 8%nat -> matVec sys.1 h = sys.2 ->
  let d1 := W * h !!! 6%nat + 1 in
  let d3 := H * h !!! 7%nat + 1 in
  let d2 := d1 + d3 - 1 in
  (0 < d1 /\ 0 < d2 /\ 0 < d3) /\
  (h !!! 2%nat = px p0 /\ W * h !!! 0%nat = px p1 * d1 - px p0 /\
   H * h !!! 1%nat = px p3 * d3 - px p0 /\
   px p2 * d2 = px p1 * d1 + px p3 * d3 - px p0) /\
  (h !!! 5%nat = py p0 /\ W * h !!! 3%nat = py p1 * d1 - py p0 /\
   H * h !!! 4%nat = py p3 * d3 - py p0 /\
   py p2 * d2 = py p1 * d1 + py p3 * d3 - py p0).
Proof.
  intros sys HW HH Hconvex Hlen Hsol. subst sys.
  destruct h as [|h0 [|h1 [|h2 [|h3 [|h4 [|h5 [|h6 [|h7 [|? ?] ] ] ] ] ] ] ] ];
    try discriminate.
  cbn in Hsol. rnum. injection Hsol as E0 E1 E2 E3 E4 E5 E6 E7.
  cbn [lookup_total list_lookup_total]. cbn zeta.
  unfold convexQuad, cross in Hconvex.
  destruct p0 as [x0 y0], p1 as [x1 y1], p2 as [x2 y2], p3 as [x3 y3].
  cbn [px py] in *.
  set (d1 := W * h6 + 1). set (d3 := H * h7 + 1).
  assert (K2 : h2 = x0) by lra.
  assert (K5 : h5 = y0) by lra.
  assert (K0 : W * h0 = x1 * d1 - x0) by (unfold d1; lra).
  assert (K3 : W * h3 = y1 * d1 - y0) by (unfold d1; lra).
  assert (K1 : H * h1 = x3 * d3 - x0) by (unfold d3; lra).
  assert (K4 : H * h4 = y3 * d3 - y0) by (unfold d3; lra).
  assert (F1 : x2 * (d1 + d3 - 1) = x1 * d1 + x3 * d3 - x0) by (unfold d1, d3; lra).
  assert (F2 : y2 * (d1 + d3 - 1) = y1 * d1 + y3 * d3 - y0) by (unfold d1, d3; lra).
  clearbody d1 d3. clear E0 E1 E2 E3 E4 E5 E6 E7.
  set (D := (x1 - x2) * (y3 - y2) - (x3 - x2) * (y1 - y2)) in *.
  set (N1 := (x2 - x3) * (y0 - y3) - (x0 - x3) * (y2 - y3)) in *.
  set (N3 := (x0 - x1) * (y2 - y1) - (x2 - x1) * (y0 - y1)) in *.
  set (N2 := (x3 - x0) * (y1 - y0) - (x1 - x0) * (y3 - y0)) in *.
  assert (G1 : D * d1 = N1).
  { unfold D, N1.
    replace (((x1 - x2) * (y3 - y2) - (x3 - x2) * (y1 - y2)) * d1)
      with ((x1 * d1 + x3 * d3 - x0 - x2 * (d1 + d3 - 1)) * (y3 - y2) -
            (y1 * d1 + y3 * d3 - y0 - y2 * (d1 + d3 - 1)) * (x3 - x2) +
            ((x2 - x3) * (y0 - y3) - (x0 - x3) * (y2 - y3))) by ring.
    rewrite <- F1, <- F2. ring. }
  assert (G3 : D * d3 = N3).
  { unfold D, N3.
    replace (((x1 - x2) * (y3 - y2) - (x3 - x2) * (y1 - y2)) * d3)
      with ((y1 * d1 + y3 * d3 - y0 - y2 * (d1 + d3 - 1)) * (x1 - x2) -
            (x1 * d1 + x3 * d3 - x0 - x2 * (d1 + d3 - 1)) * (y1 - y2) +
            ((x0 - x1) * (y2 - y1) - (x2 - x1) * (y0 - y1))) by ring.
    rewrite <- F1, <- F2. ring. }
  assert (G2 : D * (d1 + d3 - 1) = N2).
  { rewrite Rmult_minus_distr_l, Rmult_plus_distr_l, G1, G3. unfold N1, N3, D, N2. ring. }
  assert (Hpos : 0 < d1 /\ 0 < d1 + d3 - 1 /\ 0 < d3).
  { destruct Hconvex as [(P2 & P3 & PD & P1)|(P2 & P3 & PD & P1)].
    - split_and!.
      + apply (Rmult_lt_reg_l D); [exact PD|]. rewrite G1. lra.
      + apply (Rmult_lt_reg_l D); [exact PD|]. rewrite G2. lra.
      + apply (Rmult_lt_reg_l D); [exact PD|]. rewrite G3. lra.
    - split_and!.
      + apply (Rmult_lt_reg_l (- D)); [lra|].
        replace (- D * d1) with (- (D * d1)) by ring. rewrite G1. lra.
      + apply (Rmult_lt_reg_l (- D)); [lra|].
        replace (- D * (d1 + d3 - 1)) with (- (D * (d1 + d3 - 1))) by ring.
        rewrite G2. lra.
      + apply (Rmult_lt_reg_l (- D)); [lra|].
        replace (- D * d3) with (- (D * d3)) by ring. rewrite G3. lra. }
  split_and!; try done; tauto.
Qed.

Lemma index_below (r : R) (x : nat) :
  (x < to_index (nround r))%nat -> INR x < nround r.
Proof.
  rnum. rewrite Rfloor_IZR. set (k := Rfloor (r + / 2)). intros Hx.
  rewrite INR_IZR_INZ. apply IZR_lt. lia.
Qed.

(** What the solved map does at a destination pixel of a convex
    quadrilateral: the denominator is positive, and numerators over
    denominator stay between any bounds that hold for the four corners. *)
Lemma convex_pixel (p0 p1 p2 p3 : Point R) (x y : nat) :
  let quad := [p0; p1; p2; p3] in
  convexQuad p0 p1 p2 p3 ->
  maxWidthOf quad <> 0 -> maxHeightOf quad <> 0 ->
  (x < to_index (maxWidthOf quad))%nat ->
  (y < to_index (maxHeightOf quad))%nat ->
  let H := homography quad in
  0 < denomAt H x y /\
  forall xlo xhi ylo yhi,
    Forall (fun p => xlo <= px p <= xhi /\ ylo <= py p <= yhi) quad ->
    xlo <= uAt H x y <= xhi /\ ylo <= vAt H x y <= yhi.
Proof.
  intros quad Hconvex HW HH Hx Hy H.
  assert (Hns : nonsingular (homographySystem quad
                  (dstPointsOf (maxWidthOf quad) (maxHeightOf quad))).1).
  { apply homographySystem_nonsingular. split_and!; [done..|].
    destruct Hconvex as [(_ & _ & ? & _)|(_ & _ & ? & _)]; lra. }
  destruct (homography_solves p0 p1 p2 p3 Hns) as [Hlen Hsol].
  destruct (convex_solution p0 p1 p2 p3 _ _ _ HW HH Hconvex Hlen Hsol)
    as ((P1 & P2 & P3) & (U2 & U0 & U1 & UF) & (V5 & V3 & V4 & VF)).
  fold quad H in U2, U0, U1, UF, V5, V3, V4, VF, P1, P2, P3.
  apply index_below in Hx, Hy.
  fold (maxWidthOf quad) in Hx. fold (maxHeightOf quad) in Hy.
  set (W := maxWidthOf quad) in *. set (Hh := maxHeightOf quad) in *.
  pose proof (pos_INR x) as Hx0. pose proof (pos_INR y) as Hy0.
  assert (HWp : 0 < W) by lra. assert (HHp : 0 < Hh) by lra.
  set (s := INR x / W). set (t := INR y / Hh).
  assert (Hs : 0 <= s <= 1).
  { unfold s. split; [apply Rmult_le_pos; [lra|left; by apply Rinv_0_lt_compat]|].
    apply (Rmult_le_reg_r W); [lra|]. unfold Rdiv. rewrite Rmult_assoc, Rinv_l; lra. }
  assert (Ht : 0 <= t <= 1).
  { unfold t. split; [apply Rmult_le_pos; [lra|left; by apply Rinv_0_lt_compat]|].
    apply (Rmult_le_reg_r Hh); [lra|]. unfold Rdiv. rewrite Rmult_assoc, Rinv_l; lra. }
  set (d1 := W * H !!! 6%nat + 1) in *. set (d3 := Hh * H !!! 7%nat + 1) in *.
  assert (Hden : denomAt H x y = 1 + s * (d1 - 1) + t * (d3 - 1)).
  { unfold denomAt, s, t, d1, d3. field. lra. }
  assert (HnumU : H !!! 0%nat * INR x + H !!! 1%nat * INR y + H !!! 2%nat =
                  px p0 + s * (px p1 * d1 - px p0) + t * (px p3 * d3 - px p0)).
  { rewrite <- U0, <- U1, U2. unfold s, t. field. lra. }
  assert (HnumV : H !!! 3%nat * INR x + H !!! 4%nat * INR y + H !!! 5%nat =
                  py p0 + s * (py p1 * d1 - py p0) + t * (py p3 * d3 - py p0)).
  { rewrite <- V3, <- V4, V5. unfold s, t. field. lra. }
  assert (Hpos : 0 < denomAt H x y).
  { rewrite Hden. by apply (corner_weights s t d1 (d1 + d3 - 1) d3). }
  split; [exact Hpos|].
  intros xlo xhi ylo yhi Hall.
  apply Forall_cons_1 in Hall as [(B0x & B0y) Hall].
  apply Forall_cons_1 in Hall as [(B1x & B1y) Hall].
  apply Forall_cons_1 in Hall as [(B2x & B2y) Hall].
  apply Forall_cons_1 in Hall as [(B3x & B3y) _].
  unfold uAt, vAt. rewrite HnumU, HnumV.
  assert (Hbound : forall a0 a1 a2 a3 lo hi,
    a2 * (d1 + d3 - 1) = a1 * d1 + a3 * d3 - a0 ->
    lo <= a0 <= hi -> lo <= a1 <= hi -> lo <= a2 <= hi -> lo <= a3 <= hi ->
    lo <= (a0 + s * (a1 * d1 - a0) + t * (a3 * d3 - a0)) / denomAt H x y <= hi).
  { intros a0 a1 a2 a3 lo hi E B0 B1 B2 B3.
    pose proof (corner_mean s t d1 (d1 + d3 - 1) d3 a0 a1 a2 a3 hi
                  Hs Ht P1 P2 P3 eq_refl E ltac:(lra) ltac:(lra) ltac:(lra) ltac:(lra))
      as Hup.
    pose proof (corner_mean s t d1 (d1 + d3 - 1) d3 (- a0) (- a1) (- a2) (- a3) (- lo)
                  Hs Ht P1 P2 P3 eq_refl ltac:(lra) ltac:(lra) ltac:(lra) ltac:(lra)
                  ltac:(lra)) as Hlo.
    rewrite <- Hden in Hup, Hlo.
    split.
    - apply (Rmult_le_reg_r (denomAt H x y)); [exact Hpos|].
      unfold Rdiv. rewrite Rmult_assoc, Rinv_l by lra. lra.
    - apply (Rmult_le_reg_r (denomAt H x y)); [exact Hpos|].
      unfold Rdiv. rewrite Rmult_assoc, Rinv_l by lra. lra. }
  split.
  - by apply (Hbound (px p0) (px p1) (px p2) (px p3)).
  - by apply (Hbound (py p0) (py p1) (py p2) (py p3)).
Qed.

End Convex.

Section ConvexWarp.
Local Open Scope R_scope.

Lemma index_nonzero (r : R) (x : nat) : (x < to_index r)%nat -> r <> 0.
Proof.
  intros Hx ->. rnum. rewrite (Rfloor_IZR 0) in Hx. simpl in Hx. lia.
Qed.

Lemma nround_inside (u : R) (n : nat) :
  0 <= u <= INR n - 1 ->
  (nround u >=? n0)%num = true /\ (nround u <? of_index n)%num = true.
Proof.
  intros [Hlo Hhi]. rnum. unfold Rfloor.
  destruct (archimed (u + / 2)) as [Hup1 Hup2].
  assert (H0 : (0 < up (u + / 2))%Z) by (apply lt_IZR; lra).
  assert (Hn : (up (u + / 2) < Z.of_nat n + 1)%Z).
  { apply lt_IZR. rewrite plus_IZR, <- INR_IZR_INZ. lra. }
  split.
  - destruct (Rge_dec (IZR (up (u + / 2) - 1)) 0) as [|Hn0]; [reflexivity|].
    exfalso. apply Hn0, Rle_ge, IZR_le. lia.
  - destruct (Rlt_dec (IZR (up (u + / 2) - 1)) (INR n)) as [|Hn0]; [reflexivity|].
    exfalso. apply Hn0. rewrite INR_IZR_INZ. apply IZR_lt. lia.
Qed.

(** X16.  Over the reals, for a strictly convex quadrilateral (corners in
    order, either orientation) the denominator of line 148 is positive at
    every destination pixel: the divisions of lines 149-150 are never by
    zero. *)
Theorem convex_quad_denominator (p0 p1 p2 p3 : Point R) (x y : nat) :
  let quad := [p0; p1; p2; p3] in
  convexQuad p0 p1 p2 p3 ->
  (x < to_index (maxWidthOf quad))%nat ->
  (y < to_index (maxHeightOf quad))%nat ->
  0 < denomAt (homography quad) x y.
Proof.
  intros quad Hconvex Hx Hy.
  apply (convex_pixel p0 p1 p2 p3 x y Hconvex
           (index_nonzero _ _ Hx) (index_nonzero _ _ Hy) Hx Hy).
Qed.

(** X17.  Over the reals, for a strictly convex quadrilateral the source
    coordinates [(u, v)] computed for a destination pixel are a weighted
    mean of the four corners: they lie between the least and the largest
    abscissa and ordinate of the corners, so the warp samples inside the
    bounding box of the quadrilateral only. *)
Theorem convex_quad_samples_inside (p0 p1 p2 p3 : Point R) (x y : nat)
    (xlo xhi ylo yhi : R) :
  let quad := [p0; p1; p2; p3] in
  convexQuad p0 p1 p2 p3 ->
  Forall (fun p => xlo <= px p <= xhi /\ ylo <= py p <= yhi) quad ->
  (x < to_index (maxWidthOf quad))%nat ->
  (y < to_index (maxHeightOf quad))%nat ->
  xlo <= uAt (homography quad) x y <= xhi /\
  ylo <= vAt (homography quad) x y <= yhi.
Proof.
  intros quad Hconvex Hall Hx Hy.
  by apply (convex_pixel p0 p1 p2 p3 x y Hconvex
              (index_nonzero _ _ Hx) (index_nonzero _ _ Hy) Hx Hy).
Qed.

(** X18.  Over the reals, for a strictly convex quadrilateral whose
    corners lie on the source image (between pixel 0 and the last pixel in
    both directions) and whose two sizes round to at least 1, a raster is
    returned, every destination pixel passes the bounds test and is a copy
    of the source pixel [(round(u), round(v))]: no pixel of the raster keeps
    the white of the fill.  (With a size that rounds to 0
    [createImageData] throws and there is no raster.) *)
Theorem convex_quad_fully_sampled img (p0 p1 p2 p3 : Point R) :
  let quad := [p0; p1; p2; p3] in
  convexQuad p0 p1 p2 p3 ->
  Forall (fun p => 0 <= px p <= INR (width img) - 1 /\
                   0 <= py p <= INR (height img) - 1) quad ->
  (0 < to_index (maxWidthOf quad))%nat ->
  (0 < to_index (maxHeightOf quad))%nat ->
  exists r,
    warpPerspective (mkEnv true true) img quad = Resolved r /\
    (0 < width r)%nat /\ (0 < height r)%nat /\
    forall x y c, (x < width r)%nat -> (y < height r)%nat -> (c < 4)%nat ->
      let srcX := nround (uAt (homography quad) x y) in
      let srcY := nround (vAt (homography quad) x y) in
      inSource (width img) (height img) srcX srcY = true /\
      byteAt (data r) ((y * width r + x) * 4 + c) =
      byteAt (data img) ((to_index srcY * width img + to_index srcX) * 4 + c).
Proof.
  intros quad Hconvex Hall Hw Hh.
  assert (Hsrc : (0 < width img)%nat /\ (0 < height img)%nat).
  { pose proof Hall as Hp0. apply Forall_cons_1 in Hp0 as [ [Hpx Hpy] _].
    split; apply INR_lt; simpl; lra. }
  eexists. split; [apply warpPerspective_four_points; fold quad; lia|].
  cbn [width height data]. fold quad. split_and!; [done..|].
  intros x y c Hx Hy Hc. cbn zeta.
  set (srcX := nround (uAt (homography quad) x y)).
  set (srcY := nround (vAt (homography quad) x y)).
  destruct (convex_pixel p0 p1 p2 p3 x y Hconvex
              (index_nonzero _ _ Hx) (index_nonzero _ _ Hy) Hx Hy) as [_ Hbox].
  destruct (Hbox _ _ _ _ Hall) as [Hu Hv]. fold quad in Hu, Hv.
  destruct (nround_inside _ _ Hu) as [Hx1 Hx2].
  destruct (nround_inside _ _ Hv) as [Hy1 Hy2].
  assert (Hin : inSource (width img) (height img) srcX srcY = true).
  { unfold inSource, srcX, srcY. by rewrite Hx1, Hx2, Hy1, Hy2. }
  split; [exact Hin|].
  destruct (pixelLoop_spec (homography quad) (data img) (width img) (height img)
              (to_index (maxWidthOf quad)) (to_index (maxHeightOf quad))
              (replicate (4 * (to_index (maxWidthOf quad) *
                               to_index (maxHeightOf quad))) 255%Z)) as [_ Hval].
  { by rewrite length_replicate. }
  rewrite (Hval x y c Hx Hy Hc). unfold sampled.
  change (sourceX (homography quad) x y) with srcX.
  change (sourceY (homography quad) x y) with srcY.
  rewrite Hin. reflexivity.
Qed.

Lemma unit_square_convex :
  convexQuad (mkPoint 0 0) (mkPoint (INR 1) 0) (mkPoint (INR 1) (INR 1)) (mkPoint 0 (INR 1)).
Proof. right. unfold cross. cbn [px py]. simpl INR. lra. Qed.

(** X16 read at the unit square. *)
Lemma convex_quad_denominator_witness :
  0 < denomAt (homography (rectangle (INR 1) (INR 1))) 0 0.
Proof.
  apply (convex_quad_denominator (mkPoint 0 0) (mkPoint (INR 1) 0)
           (mkPoint (INR 1) (INR 1)) (mkPoint 0 (INR 1)) 0 0 unit_square_convex).
  - fold (rectangle (INR 1) (INR 1)).
    destruct (rectangle_dimensions 1 1) as [-> _]. rewrite to_index_INR. lia.
  - fold (rectangle (INR 1) (INR 1)).
    destruct (rectangle_dimensions 1 1) as [_ ->]. rewrite to_index_INR. lia.
Defined.

(** X17 read at the unit square. *)
Lemma convex_quad_samples_inside_witness :
  0 <= uAt (homography (rectangle (INR 1) (INR 1))) 0 0 <= 1 /\
  0 <= vAt (homography (rectangle (INR 1) (INR 1))) 0 0 <= 1.
Proof.
  apply (convex_quad_samples_inside (mkPoint 0 0) (mkPoint (INR 1) 0)
           (mkPoint (INR 1) (INR 1)) (mkPoint 0 (INR 1)) 0 0 0 1 0 1
           unit_square_convex).
  - do 4 (constructor; [cbn [px py]; simpl INR; lra|]). constructor.
  - fold (rectangle (INR 1) (INR 1)).
    destruct (rectangle_dimensions 1 1) as [-> _]. rewrite to_index_INR. lia.
  - fold (rectangle (INR 1) (INR 1)).
    destruct (rectangle_dimensions 1 1) as [_ ->]. rewrite to_index_INR. lia.
Defined.

(** X18 read at the unit square on a raster of 2 by 2 pixels. *)
Lemma convex_quad_fully_sampled_witness :
  exists r,
    warpPerspective (mkEnv true true)
      (mkRaster 2 2 (replicate 16 7%Z)) (rectangle (INR 1) (INR 1)) = Resolved r /\
    (0 < width r)%nat /\ (0 < height r)%nat /\
    forall x y c, (x < width r)%nat -> (y < height r)%nat -> (c < 4)%nat ->
      let srcX := nround (uAt (homography (rectangle (INR 1) (INR 1))) x y) in
      let srcY := nround (vAt (homography (rectangle (INR 1) (INR 1))) x y) in
      inSource 2 2 srcX srcY = true /\
      byteAt (data r) ((y * width r + x) * 4 + c) =
      byteAt (replicate 16 7%Z) ((to_index srcY * 2 + to_index srcX) * 4 + c).
Proof.
  apply (convex_quad_fully_sampled (mkRaster 2 2 (replicate 16 7%Z))
           (mkPoint 0 0) (mkPoint (INR 1) 0) (mkPoint (INR 1) (INR 1))
           (mkPoint 0 (INR 1)) unit_square_convex).
  - do 4 (constructor; [cbn [px py width height]; simpl INR; lra|]). constructor.
  - fold (rectangle (INR 1) (INR 1)).
    destruct (rectangle_dimensions 1 1) as [-> _]. rewrite to_index_INR. lia.
  - fold (rectangle (INR 1) (INR 1)).
    destruct (rectangle_dimensions 1 1) as [_ ->]. rewrite to_index_INR. lia.
Defined.

End ConvexWarp.

(** ** Sizes that give no raster, and binary64 against exact arithmetic *)

Section Degenerate.
Import PrimFloat.


Local Open Scope R_scope.

(** The corners of [nearlyCollinearQuad] as real numbers. *)
Lemma exactPoints_nearlyCollinearQuad :
  exactPoints nearlyCollinearQuad =
  [mkPoint 33 14; mkPoint 0 24; mkPoint 43 13; mkPoint (/ 2 ^ 51) 24].
Proof.
  unfold exactPoints, nearlyCollinearQuad. cbn [map px py].
  exact_value. repeat (f_equal; try (simpl pow; field)).
Qed.

Lemma nround_eq (r : R) (k : Z) :
  IZR k - / 2 <= r < IZR k + / 2 -> nround r = IZR k.
Proof.
  intros [Hlo Hhi]. rnum. f_equal. unfold Rfloor.
  rewrite <- (tech_up (r + / 2) (k + 1)); [lia| |]; rewrite plus_IZR; lra.
Qed.

Lemma sqrt_between (a b x : R) :
  0 <= a -> 0 <= b -> a * a <= x < b * b -> a <= R_sqrt.sqrt x < b.
Proof.
  intros Ha Hb [Hlo Hhi]. split.
  - rewrite <- (sqrt_square a Ha). apply sqrt_le_1_alt. exact Hlo.
  - rewrite <- (sqrt_square b Hb). apply sqrt_lt_1_alt. split; [nra|exact Hhi].
Qed.

Lemma tiny_bounds : 0 < / 2 ^ 51 < / 100.
Proof.
  assert (H : 100 < 2 ^ 51) by (simpl pow; lra).
  split.
  - apply Rinv_0_lt_compat. lra.
  - apply Rinv_lt_contravar; [nra|exact H].
Qed.

Lemma nearlyCollinear_sizes :
  let quad := [mkPoint 33 14; mkPoint 0 24; mkPoint 43 13; mkPoint (/ 2 ^ 51) 24] in
  maxWidthOf quad = 44 /\ maxHeightOf quad = 44.
Proof.
  pose proof tiny_bounds as He. set (e := / 2 ^ 51) in *.
  intros quad. unfold maxWidthOf, maxHeightOf, quad.
  cbn [lookup_total list_lookup_total]. rewrite !dist_unfold. cbn [px py].
  change (nmax ?a ?b) with (Rmax a b).
  split; apply (nround_eq _ 44).
  - rewrite Rmax_right.
    + apply (sqrt_between (44 - / 2) (44 + / 2)); [lra|lra|nra].
    + apply sqrt_le_1_alt. nra.
  - rewrite Rmax_right.
    + apply (sqrt_between (44 - / 2) (44 + / 2)); [lra|lra|nra].
    + apply sqrt_le_1_alt. nra.
Qed.

(** C8 does not hold as stated in binary64.  For the quadrilateral
    (33,14), (0,24), (43,13), (2^-51,24) both sizes are 44, in binary64 as
    in exact arithmetic, and the system read in exact arithmetic is
    non-singular ([p1], [p2] and [p3] are not on one line).  In binary64
    the elimination meets a zero pivot in its last step: [h2] and [h5] are
    NaN, the source coordinates computed for destination pixel (0,0) are
    NaN, within no rounding error of [p0], and the pixel stays white over
    an image whose pixel (33,14) is not. *)
Lemma nearly_collinear_corner_lost :
  let quadR := exactPoints nearlyCollinearQuad in
  let sysR := homographySystem quadR
                (dstPointsOf (maxWidthOf quadR) (maxHeightOf quadR)) in
  let H := homography nearlyCollinearQuad in
  quadR = [mkPoint 33 14; mkPoint 0 24; mkPoint 43 13; mkPoint (/ 2 ^ 51) 24] /\
  maxWidthOf quadR = 44 /\ maxHeightOf quadR = 44 /\
  nonsingular sysR.1 /\
  maxWidthOf nearlyCollinearQuad = 44%float /\
  maxHeightOf nearlyCollinearQuad = 44%float /\
  is_nan (H !!! 2%nat) = true /\ is_nan (H !!! 5%nat) = true /\
  is_nan (sourceX H 0 0) = true /\ is_nan (sourceY H 0 0) = true /\
  (exists r,
     warpPerspective (mkEnv true true) blackImage nearlyCollinearQuad = Resolved r /\
     forall c, (c < 4)%nat ->
       byteAt (data r) c = 255%Z /\
       byteAt (data blackImage) ((14 * 64 + 33) * 4 + c) = 0%Z).
Proof.
  intros quadR sysR H. subst sysR quadR.
  rewrite exactPoints_nearlyCollinearQuad.
  destruct nearlyCollinear_sizes as [HW HH]. cbn zeta in HW, HH.
  split_and!; [reflexivity|exact HW|exact HH| |vm_compute; reflexivity..|].
  - rewrite HW, HH. apply homographySystem_nonsingular.
    pose proof tiny_bounds. unfold cross. cbn [px py]. split_and!; lra.
  - destruct (zero_pivot_outcome blackImage (mkPoint 33 14)%float (mkPoint 0 24)%float
                (mkPoint 43 13)%float (mkPoint 0x1p-51 24)%float 7%nat) as (_ & _ & Hres).
    + lia.
    + vm_compute. reflexivity.
    + eexists. split.
      * apply Hres; vm_compute; lia.
      * intros c Hc. cbn [data]. split.
        -- apply byteAt_replicate.
           replace (to_index (maxWidthOf [mkPoint 33 14; mkPoint 0 24; mkPoint 43 13;
                      mkPoint 0x1p-51 24]%float)) with 44%nat by (vm_compute; reflexivity).
           replace (to_index (maxHeightOf [mkPoint 33 14; mkPoint 0 24; mkPoint 43 13;
                      mkPoint 0x1p-51 24]%float)) with 44%nat by (vm_compute; reflexivity).
           lia.
        -- unfold blackImage. cbn [data]. apply byteAt_replicate. lia.
Qed.

End Degenerate.

(** ** The resize fields *)

Section ResizeFields.
Local Open Scope R_scope.

Lemma nround_near (r : R) : Rabs (nround r - r) <= / 2.
Proof.
  rnum. unfold Rfloor. destruct (archimed (r + / 2)) as [H1 H2].
  rewrite minus_IZR. apply Rabs_le. lra.
Qed.

(** [Math.round] gives a whole number, the one in [(r - 1/2, r + 1/2]]. *)
Lemma nround_whole (r : R) :
  exists k : Z, nround r = IZR k /\ r - / 2 < IZR k <= r + / 2.
Proof.
  exists (Rfloor (r + / 2)). split; [reflexivity|].
  unfold Rfloor. destruct (archimed (r + / 2)) as [H1 H2].
  rewrite minus_IZR. lra.
Qed.

(** X19.  Over the reals, once [processWarp] has set the fields to the
    size [w] by [h] of the warped image, with the lock on a number of at
    least 1 typed into one field sets the other to a whole number, the one
    nearest to the value that keeps the ratio [w : h] (that of
    [Math.round]: the whole number [k] with [v - 1/2 < k <= v + 1/2]), and
    typing the original width or height brings back the original pair; a
    number below 1 changes nothing, lock or no lock. *)
Theorem handleResizeChange_keeps_ratio (w h : nat) (val : R) (st : ResizeState R) :
  (0 < w)%nat -> (0 < h)%nat ->
  lockAspectRatio st = true ->
  let st0 := initResize (INR w) (INR h) st in
  (val < 1 -> forall dim st', handleResizeChange dim val st' = st') /\
  (1 <= val ->
     let stW := handleResizeChange DimW val st0 in
     let stH := handleResizeChange DimH val st0 in
     resizeW stW = val /\
     (exists k : Z, resizeH stW = IZR k /\
        val * INR h / INR w - / 2 < IZR k <= val * INR h / INR w + / 2) /\
     resizeH stH = val /\
     (exists k : Z, resizeW stH = IZR k /\
        val * INR w / INR h - / 2 < IZR k <= val * INR w / INR h + / 2) /\
     aspectRatio stW = INR w / INR h /\ aspectRatio stH = INR w / INR h /\
     lockAspectRatio stW = true /\ lockAspectRatio stH = true) /\
  handleResizeChange DimW (INR w) st0 = st0 /\
  handleResizeChange DimH (INR h) st0 = st0.
Proof.
  intros Hw Hh Hlock st0.
  apply lt_INR in Hw, Hh. simpl in Hw, Hh.
  assert (Hw1 : 1 <= INR w).
  { destruct w; [simpl in Hw; lra|]. rewrite S_INR. pose proof (pos_INR w). lra. }
  assert (Hh1 : 1 <= INR h).
  { destruct h; [simpl in Hh; lra|]. rewrite S_INR. pose proof (pos_INR h). lra. }
  assert (Hguard : forall v, 1 <= v -> isNaN v || (v <? n1)%num = false).
  { intros v Hv. unfold isNaN. rnum.
    destruct (Rge_dec v v); [|lra]. destruct (Rlt_dec v 1); [lra|]. reflexivity. }
  split_and!.
  - intros Hval dim st'. unfold handleResizeChange, isNaN. rnum.
    destruct (Rlt_dec val 1); [|lra]. by rewrite orb_true_r.
  - intros Hval stW stH. subst stW stH st0.
    unfold handleResizeChange, initResize. rewrite (Hguard val Hval).
    cbn [lockAspectRatio resizeW resizeH aspectRatio]. rewrite Hlock.
    cbn [resizeW resizeH aspectRatio lockAspectRatio]. rnum.
    replace (val * INR h / INR w) with (val / (INR w / INR h)) by (field; lra).
    replace (val * INR w / INR h) with (val * (INR w / INR h)) by (field; lra).
    split_and!; [reflexivity|apply nround_whole|reflexivity|apply nround_whole|
                 reflexivity..].
  - subst st0. unfold handleResizeChange, initResize. rewrite (Hguard _ Hw1).
    cbn [lockAspectRatio resizeW resizeH aspectRatio]. rewrite Hlock.
    cbn [ndiv real_number].
    replace (INR w / (INR w / INR h)) with (INR h) by (field; lra).
    rewrite nround_INR. reflexivity.
  - subst st0. unfold handleResizeChange, initResize. rewrite (Hguard _ Hh1).
    cbn [lockAspectRatio resizeW resizeH aspectRatio]. rewrite Hlock.
    cbn [ndiv nmul real_number].
    replace (INR h * (INR w / INR h)) with (INR w) by (field; lra).
    rewrite nround_INR. reflexivity.
Qed.

(** X19 read at a warped image of 180 by 81 pixels. *)
Lemma handleResizeChange_keeps_ratio_witness :
  let st0 := initResize (INR 180) (INR 81) (mkResizeState 0 0 1 true) in
  (90 < 1 -> forall dim st', handleResizeChange dim 90 st' = st') /\
  (1 <= 90 ->
     let stW := handleResizeChange DimW 90 st0 in
     let stH := handleResizeChange DimH 90 st0 in
     resizeW stW = 90 /\
     (exists k : Z, resizeH stW = IZR k /\
        90 * INR 81 / INR 180 - / 2 < IZR k <= 90 * INR 81 / INR 180 + / 2) /\
     resizeH stH = 90 /\
     (exists k : Z, resizeW stH = IZR k /\
        90 * INR 180 / INR 81 - / 2 < IZR k <= 90 * INR 180 / INR 81 + / 2) /\
     aspectRatio stW = INR 180 / INR 81 /\ aspectRatio stH = INR 180 / INR 81 /\
     lockAspectRatio stW = true /\ lockAspectRatio stH = true) /\
  handleResizeChange DimW (INR 180) st0 = st0 /\
  handleResizeChange DimH (INR 81) st0 = st0.
Proof.
  apply (handleResizeChange_keeps_ratio 180 81 90 (mkResizeState 0 0 1 true));
    [lia|lia|reflexivity].
Defined.

End ResizeFields.

(** ** Strings *)

Section Strings.

Lemma includes_unfold pat s :
  includes pat s =
  startsWith pat s || match s with [] => false | _ :: t => includes pat t end.
Proof. destruct s; reflexivity. Qed.

Lemma startsWith_app pat s : startsWith pat (pat ++ s) = true.
Proof.
  induction pat as [|p pat IH]; simpl; [reflexivity|].
  rewrite N.eqb_refl. exact IH.
Qed.

Lemma startsWith_drop pat s :
  startsWith pat s = true -> s = pat ++ drop (length pat) s.
Proof.
  revert s. induction pat as [|p pat IH]; intros s H; simpl in *.
  - rewrite drop_0. reflexivity.
  - destruct s as [|c s]; [discriminate|].
    apply andb_true_iff in H as [H1 H2]. apply N.eqb_eq in H1. subst c.
    simpl. f_equal. apply IH, H2.
Qed.

Lemma includes_app_r pat u v :
  includes pat v = true -> includes pat (u ++ v) = true.
Proof.
  intros H. induction u as [|c u IH]; simpl; [exact H|].
  rewrite IH. apply orb_true_r.
Qed.

Lemma includes_occurrence pat a b : includes pat (a ++ pat ++ b) = true.
Proof.
  apply includes_app_r. rewrite includes_unfold, startsWith_app. reflexivity.
Qed.

Lemma replaceFirst_absent pat rep s :
  includes pat s = false -> replaceFirst pat rep s = s.
Proof.
  induction s as [|c s IH]; simpl; intros H;
    apply orb_false_iff in H as [H1 H2]; rewrite H1; [reflexivity|].
  rewrite IH by exact H2. reflexivity.
Qed.

Lemma replaceFirst_present pat rep s :
  includes pat s = true ->
  exists pre post, s = pre ++ pat ++ post /\ replaceFirst pat rep s = pre ++ rep ++ post.
Proof.
  induction s as [|c s IH]; intros H.
  - rewrite includes_unfold, orb_false_r in H.
    exists [], []. destruct pat; [|discriminate]. simpl. split; reflexivity.
  - destruct (startsWith pat (c :: s)) eqn:E.
    + exists [], (drop (length pat) (c :: s)). split.
      * apply startsWith_drop, E.
      * unfold replaceFirst at 1. fold replaceFirst. rewrite E. reflexivity.
    + rewrite includes_unfold, E in H. cbn [orb] in H.
      destruct (IH H) as (pre & post & Hs & Hr).
      exists (c :: pre), post. split; [simpl; f_equal; exact Hs|].
      unfold replaceFirst at 1. fold replaceFirst. rewrite E.
      simpl. f_equal. exact Hr.
Qed.

(** *** Runs of letters and matches *)

Lemma entity_app (l r : list N) :
  amp :: l ++ semi :: r = (amp :: l ++ [semi]) ++ r.
Proof. rewrite <- app_comm_cons, <- app_assoc. reflexivity. Qed.

Lemma letters_spec s :
  s = (letters s).1 ++ (letters s).2 /\
  forallb isLetter (letters s).1 = true /\
  match (letters s).2 with [] => True | d :: _ => isLetter d = false end.
Proof.
  induction s as [|c s IH]; simpl; [done|].
  destruct (isLetter c) eqn:E.
  - destruct (letters s) as [l r]. simpl in *. destruct IH as (-> & Hl & Hr).
    rewrite E. done.
  - simpl. rewrite E. done.
Qed.

Lemma letters_app l x :
  forallb isLetter l = true ->
  match x with [] => True | d :: _ => isLetter d = false end ->
  letters (l ++ x) = (l, x).
Proof.
  intros Hl Hx. induction l as [|c l IH]; simpl in *.
  - destruct x as [|d x]; [reflexivity|]. simpl. rewrite Hx. reflexivity.
  - apply andb_true_iff in Hl as [Hc Hl]. rewrite Hc, (IH Hl). reflexivity.
Qed.

Lemma matchEntity_Some s m r :
  matchEntity s = Some (m, r) ->
  exists l, l <> [] /\ forallb isLetter l = true /\
            m = amp :: l ++ [semi] /\ s = amp :: l ++ semi :: r.
Proof.
  destruct s as [|c t]; [discriminate|]. unfold matchEntity.
  destruct (c =? amp)%N eqn:Ec; [|discriminate]. apply N.eqb_eq in Ec. subst c.
  pose proof (letters_spec t) as (Ht & Hl & _).
  destruct (letters t) as [[|a l] [|d r']]; try discriminate.
  destruct (d =? semi)%N eqn:Ed; [|discriminate]. apply N.eqb_eq in Ed. subst d.
  intros [= <- <-]. exists (a :: l). simpl in *. split_and!; try done.
  rewrite Ht. reflexivity.
Qed.

Lemma matchEntity_intro l r :
  l <> [] -> forallb isLetter l = true ->
  matchEntity (amp :: l ++ semi :: r) = Some (amp :: l ++ [semi], r).
Proof.
  intros Hne Hl. unfold matchEntity. rewrite N.eqb_refl.
  rewrite (letters_app l (semi :: r) Hl) by reflexivity.
  destruct l; [done|]. rewrite N.eqb_refl. reflexivity.
Qed.

Lemma matchEntity_head c t :
  matchEntity (c :: t) <> None -> c = amp.
Proof.
  unfold matchEntity. destruct (c =? amp)%N eqn:E; [|done].
  intros _. apply N.eqb_eq, E.
Qed.

(** *** The global replacement, one match at a time *)

Lemma replaceEntitiesFrom_skip m r :
  replaceEntitiesFrom (length m) (m ++ r) = replaceEntities r.
Proof. induction m as [|c m IH]; [reflexivity|exact IH]. Qed.

Lemma replaceEntities_nomatch c t :
  matchEntity (c :: t) = None -> replaceEntities (c :: t) = c :: replaceEntities t.
Proof.
  intros H. unfold replaceEntities. cbn [replaceEntitiesFrom]. rewrite H. reflexivity.
Qed.

Lemma replaceEntities_match l r :
  l <> [] -> forallb isLetter l = true ->
  replaceEntities (amp :: l ++ semi :: r) =
  entity (amp :: l ++ [semi]) ++ replaceEntities r.
Proof.
  intros Hne Hl. unfold replaceEntities at 1. cbn [replaceEntitiesFrom].
  rewrite (matchEntity_intro l r Hne Hl). f_equal.
  replace (length (amp :: l ++ [semi]) - 1) with (length (l ++ [semi]))
    by (simpl; lia).
  rewrite <- (replaceEntitiesFrom_skip (l ++ [semi]) r).
  rewrite <- app_assoc. reflexivity.
Qed.

Lemma replaceEntities_cases (P : JSString -> Prop) :
  P [] ->
  (forall c t, matchEntity (c :: t) = None -> P t -> P (c :: t)) ->
  (forall l r, l <> [] -> forallb isLetter l = true -> P r ->
     P (amp :: l ++ semi :: r)) ->
  forall s, P s.
Proof.
  intros Hnil Hno Hyes s.
  remember (length s) as n eqn:Hn. revert s Hn.
  induction n as [n IH] using lt_wf_ind. intros s Hn.
  destruct s as [|c t]; [exact Hnil|].
  destruct (matchEntity (c :: t)) as [[m r]|] eqn:E.
  - destruct (matchEntity_Some _ _ _ E) as (l & Hne & Hl & -> & Hs).
    rewrite Hs. apply Hyes; [done..|].
    apply (IH (length r)); [|reflexivity].
    rewrite Hn, Hs. simpl. rewrite length_app. simpl. lia.
  - apply Hno; [exact E|]. apply (IH (length t)); [|reflexivity].
    rewrite Hn. simpl. lia.
Qed.

(** *** What an entity and its replacement look like *)

Lemma entityText_inv e :
  entityText e = true ->
  exists w, e = amp :: w ++ [semi] /\ forallb wordChar w = true.
Proof.
  destruct e as [|c t]; [discriminate|]. simpl.
  intros H. apply andb_true_iff in H as [Hc H]. apply N.eqb_eq in Hc. subst c.
  destruct (rev t) as [|d w] eqn:E; [discriminate|].
  apply andb_true_iff in H as [Hd Hw]. apply N.eqb_eq in Hd. subst d.
  exists (rev w). split.
  - f_equal. rewrite <- (rev_involutive t), E. reflexivity.
  - apply forallb_forall. intros x Hx. apply in_rev in Hx.
    exact (proj1 (forallb_forall _ _) Hw x Hx).
Qed.

Lemma letters_wordChar l : forallb isLetter l = true -> forallb wordChar l = true.
Proof.
  intros H. apply forallb_forall. intros x Hx.
  unfold wordChar. rewrite (proj1 (forallb_forall _ _) H x Hx). reflexivity.
Qed.

Lemma lookupEntity_Some key map v :
  lookupEntity key map = Some v -> In (key, v) map.
Proof.
  induction map as [|[k v'] map IH]; simpl; [discriminate|].
  destruct (decide (k = key)) as [->|_].
  - intros [= ->]. left. reflexivity.
  - intros H. right. apply IH, H.
Qed.

Lemma lookupEntity_None key map :
  lookupEntity key map = None -> ~ In key (List.map fst map).
Proof.
  induction map as [|[k v'] map IH]; simpl; [tauto|].
  destruct (decide (k = key)) as [->|Hne]; [discriminate|].
  intros H [Hk|Hin]; [done|]. exact (IH H Hin).
Qed.

(** Every replacement is [&#], then characters other than [&], and is
    itself an entity text and no key; every key is one match. *)
Lemma entityMap_shape :
  forallb (fun kv =>
    entityText kv.2 &&
    match kv.2 with
    | a :: h :: rest =>
        (a =? amp)%N && (h =? 35)%N && forallb (fun c => negb (c =? amp)%N) rest
    | _ => false
    end &&
    match matchEntity kv.1 with
    | Some (m, []) => bool_decide (m = kv.1)
    | _ => false
    end) entityMap = true.
Proof. vm_compute. reflexivity. Qed.

Lemma entityMap_value k v :
  In (k, v) entityMap ->
  entityText v = true /\ exists rest, v = amp :: 35%N :: rest /\ forallb (fun c => negb (c =? amp)%N) rest = true.
Proof.
  intros Hin.
  pose proof (proj1 (forallb_forall _ _) entityMap_shape _ Hin) as H. simpl in H.
  apply andb_true_iff in H as [H _]. apply andb_true_iff in H as [H1 H2].
  split; [exact H1|].
  destruct v as [|a [|h rest]]; try discriminate.
  apply andb_true_iff in H2 as [H2 H3]. apply andb_true_iff in H2 as [Ha Hh].
  apply N.eqb_eq in Ha, Hh. subst. exists rest. done.
Qed.

Lemma entityNames_shape k :
  In k entityNames ->
  exists l, l <> [] /\ forallb isLetter l = true /\ k = amp :: l ++ [semi].
Proof.
  unfold entityNames. intros Hin. apply in_map_iff in Hin as ([k' v] & <- & Hin).
  pose proof (proj1 (forallb_forall _ _) entityMap_shape _ Hin) as H. simpl in H.
  apply andb_true_iff in H as [_ H].
  destruct (matchEntity k') as [[m [|? ?]]|] eqn:E; try discriminate.
  apply bool_decide_eq_true in H. subst m.
  destruct (matchEntity_Some _ _ _ E) as (l & Hne & Hl & Hm & _).
  exists l. done.
Qed.

Lemma entity_mapped m v : lookupEntity m entityMap = Some v -> entity m = v.
Proof. intros H. unfold entity. rewrite H. reflexivity. Qed.

Lemma entity_unmapped m : lookupEntity m entityMap = None -> entity m = m.
Proof. intros H. unfold entity. rewrite H. reflexivity. Qed.

Lemma entity_shape l :
  l <> [] -> forallb isLetter l = true ->
  exists w, entity (amp :: l ++ [semi]) = amp :: w ++ [semi] /\ forallb wordChar w = true.
Proof.
  intros Hne Hl. unfold entity.
  destruct (lookupEntity _ entityMap) as [v|] eqn:E; simpl.
  - apply lookupEntity_Some, entityMap_value in E as [E _].
    apply entityText_inv, E.
  - exists l. split; [reflexivity|]. apply letters_wordChar, Hl.
Qed.

Lemma wordChar_not_amp w :
  forallb wordChar w = true -> forallb (fun c => negb (c =? amp)%N) w = true.
Proof.
  intros H. apply forallb_forall. intros x Hx.
  pose proof (proj1 (forallb_forall _ _) H x Hx) as Hw.
  destruct (x =? amp)%N eqn:E; [|reflexivity].
  apply N.eqb_eq in E. subst x. discriminate.
Qed.

Lemma noamp_nomatch c t : (c =? amp)%N = false -> matchEntity (c :: t) = None.
Proof. intros H. unfold matchEntity. rewrite H. reflexivity. Qed.

Lemma replaceEntities_noamp u x :
  forallb (fun c => negb (c =? amp)%N) u = true ->
  replaceEntities (u ++ x) = u ++ replaceEntities x.
Proof.
  intros H. induction u as [|c u IH]; [reflexivity|]. simpl in H.
  apply andb_true_iff in H as [Hc Hu]. apply negb_true_iff in Hc.
  simpl. rewrite replaceEntities_nomatch by (apply noamp_nomatch, Hc).
  rewrite (IH Hu). reflexivity.
Qed.

Lemma replaceEntities_head c t :
  exists t', replaceEntities (c :: t) = c :: t'.
Proof.
  destruct (matchEntity (c :: t)) as [[m r]|] eqn:E.
  - destruct (matchEntity_Some _ _ _ E) as (l & Hne & Hl & -> & Hs).
    rewrite Hs. rewrite (replaceEntities_match l r Hne Hl).
    destruct (entity_shape l Hne Hl) as (w & -> & _).
    injection Hs as -> _. eexists. reflexivity.
  - rewrite (replaceEntities_nomatch _ _ E). eexists. reflexivity.
Qed.

Lemma letters_replaceEntities t :
  letters (replaceEntities t) = ((letters t).1, replaceEntities (letters t).2).
Proof.
  pose proof (letters_spec t) as (Ht & Hl & Hr).
  destruct (letters t) as [l r]. simpl in *. subst t.
  rewrite replaceEntities_noamp by (apply wordChar_not_amp, letters_wordChar, Hl).
  apply letters_app; [exact Hl|].
  destruct r as [|d r]; [exact I|].
  destruct (replaceEntities_head d r) as (t' & ->). exact Hr.
Qed.

Lemma matchEntity_replaceEntities_None c t :
  matchEntity (c :: t) = None -> matchEntity (c :: replaceEntities t) = None.
Proof.
  unfold matchEntity. destruct (c =? amp)%N; [|done].
  rewrite letters_replaceEntities.
  destruct (letters t) as [[|a l] [|d r]]; simpl; try done.
  destruct (replaceEntities_head d r) as (t' & ->).
  destruct (d =? semi)%N; done.
Qed.

Lemma replaceEntities_idempotent s :
  replaceEntities (replaceEntities s) = replaceEntities s.
Proof.
  induction s as [|c t Hno IH|l r Hne Hl IH] using replaceEntities_cases.
  - reflexivity.
  - rewrite (replaceEntities_nomatch _ _ Hno).
    rewrite (replaceEntities_nomatch _ _ (matchEntity_replaceEntities_None _ _ Hno)).
    rewrite IH. reflexivity.
  - rewrite (replaceEntities_match l r Hne Hl).
    destruct (lookupEntity (amp :: l ++ [semi]) entityMap) as [v|] eqn:E.
    + rewrite (entity_mapped _ _ E).
      apply lookupEntity_Some, entityMap_value in E as (_ & rest & -> & Hrest).
      change ((amp :: 35%N :: rest) ++ replaceEntities r)
        with (amp :: (35%N :: rest) ++ replaceEntities r).
      rewrite replaceEntities_nomatch by reflexivity.
      rewrite replaceEntities_noamp by (cbn [forallb]; rewrite Hrest; reflexivity).
      rewrite IH. reflexivity.
    + rewrite (entity_unmapped _ E), <- (entity_app l (replaceEntities r)).
      rewrite (replaceEntities_match l _ Hne Hl), IH.
      rewrite (entity_unmapped _ E). symmetry. apply entity_app.
Qed.

(** *** Patterns that no entity text meets *)

Lemma plainPattern_cons p pat :
  plainPattern (p :: pat) = true -> wordChar p = true -> plainPattern pat = true.
Proof.
  unfold plainPattern. simpl. intros H Hp. rewrite Hp in H. simpl in H.
  apply andb_true_iff in H as [H1 H2]. apply andb_true_iff in H1 as [_ H1].
  rewrite H1, H2. reflexivity.
Qed.

Lemma plainPattern_head pat :
  plainPattern pat = true ->
  exists p pat', pat = p :: pat' /\ (p =? amp)%N = false /\ (p =? semi)%N = false.
Proof.
  unfold plainPattern. destruct pat as [|p pat]; simpl; [discriminate|].
  intros H. apply andb_true_iff in H as [H _]. apply andb_true_iff in H as [H _].
  apply andb_true_iff in H as [H1 H2]. apply negb_true_iff in H1, H2.
  exists p, pat. done.
Qed.

Lemma plainPattern_noamp pat :
  plainPattern pat = true -> forallb (fun c => negb (c =? amp)%N) pat = true.
Proof.
  unfold plainPattern. intros H. apply andb_true_iff in H as [H _].
  apply forallb_forall. intros x Hx.
  pose proof (proj1 (forallb_forall _ _) H x Hx) as Hc.
  apply andb_true_iff in Hc as [Hc _]. exact Hc.
Qed.

Lemma startsWith_word pat w x :
  plainPattern pat = true -> forallb wordChar w = true ->
  startsWith pat (w ++ semi :: x) = false.
Proof.
  revert pat. induction w as [|c w IH]; intros pat Hp Hw.
  - destruct (plainPattern_head pat Hp) as (p & pat' & -> & _ & Hs).
    simpl. rewrite Hs. reflexivity.
  - destruct (plainPattern_head pat Hp) as (p & pat' & -> & _ & _).
    simpl in *. apply andb_true_iff in Hw as [Hc Hw].
    destruct (p =? c)%N eqn:E; [|reflexivity]. apply N.eqb_eq in E. subst c.
    simpl. apply IH; [|exact Hw]. exact (plainPattern_cons _ _ Hp Hc).
Qed.

Lemma includes_word pat w x :
  plainPattern pat = true -> forallb wordChar w = true ->
  includes pat (w ++ semi :: x) = includes pat x.
Proof.
  intros Hp. induction w as [|c w IH]; intros Hw.
  - change ([] ++ semi :: x) with (semi :: x).
    change (includes pat (semi :: x))
      with (startsWith pat ([] ++ semi :: x) || includes pat x).
    rewrite (startsWith_word pat [] x Hp) by reflexivity. reflexivity.
  - change (includes pat ((c :: w) ++ semi :: x))
      with (startsWith pat ((c :: w) ++ semi :: x) || includes pat (w ++ semi :: x)).
    rewrite (startsWith_word pat (c :: w) x Hp Hw). simpl in Hw.
    apply andb_true_iff in Hw as [_ Hw]. rewrite (IH Hw). reflexivity.
Qed.

Lemma includes_entityText pat w x :
  plainPattern pat = true -> forallb wordChar w = true ->
  includes pat ((amp :: w ++ [semi]) ++ x) = includes pat x.
Proof.
  intros Hp Hw.
  destruct (plainPattern_head pat Hp) as (p & pat' & Hpat & Ha & _).
  rewrite <- app_comm_cons, <- app_assoc.
  change (includes pat (amp :: w ++ [semi] ++ x))
    with (startsWith pat (amp :: w ++ semi :: x) || includes pat (w ++ semi :: x)).
  rewrite (includes_word pat w x Hp Hw).
  subst pat. simpl. rewrite Ha. reflexivity.
Qed.

Lemma startsWith_replaceEntities pat s :
  forallb (fun c => negb (c =? amp)%N) pat = true ->
  startsWith pat (replaceEntities s) = startsWith pat s.
Proof.
  revert s. induction pat as [|p pat IH]; intros s Hp; [reflexivity|].
  simpl in Hp. apply andb_true_iff in Hp as [Hp Hpat]. apply negb_true_iff in Hp.
  destruct s as [|c t]; [reflexivity|].
  destruct (matchEntity (c :: t)) as [[m r]|] eqn:E.
  - destruct (matchEntity_Some _ _ _ E) as (l & Hne & Hl & -> & Hs).
    rewrite Hs, (replaceEntities_match l r Hne Hl).
    destruct (entity_shape l Hne Hl) as (w & -> & _).
    simpl. rewrite Hp. reflexivity.
  - rewrite (replaceEntities_nomatch _ _ E). simpl. rewrite (IH t Hpat). reflexivity.
Qed.

Lemma includes_replaceEntities pat s :
  plainPattern pat = true ->
  includes pat (replaceEntities s) = includes pat s.
Proof.
  intros Hp.
  induction s as [|c t Hno IH|l r Hne Hl IH] using replaceEntities_cases.
  - reflexivity.
  - rewrite (includes_unfold pat (replaceEntities (c :: t))).
    rewrite (startsWith_replaceEntities pat (c :: t) (plainPattern_noamp pat Hp)).
    rewrite (replaceEntities_nomatch _ _ Hno), IH. reflexivity.
  - rewrite (replaceEntities_match l r Hne Hl).
    destruct (entity_shape l Hne Hl) as (w & -> & Hw).
    rewrite (includes_entityText pat w _ Hp Hw), IH.
    rewrite (entity_app l r).
    symmetry. exact (includes_entityText pat l r Hp (letters_wordChar l Hl)).
Qed.

(** *** The keys of the map *)

Lemma startsWith_entity l y :
  l <> [] -> forallb isLetter l = true ->
  startsWith (amp :: l ++ [semi]) y = true ->
  exists r, y = amp :: l ++ semi :: r /\ matchEntity y = Some (amp :: l ++ [semi], r).
Proof.
  intros Hne Hl H. apply startsWith_drop in H.
  set (r := drop (length (amp :: l ++ [semi])) y) in H.
  exists r. assert (Hy : y = amp :: l ++ semi :: r).
  { rewrite H. simpl. rewrite <- app_assoc. reflexivity. }
  split; [exact Hy|]. rewrite Hy. apply matchEntity_intro; done.
Qed.

Lemma includes_noamp k u x :
  forallb (fun c => negb (c =? amp)%N) u = true ->
  includes (amp :: k) (u ++ x) = includes (amp :: k) x.
Proof.
  intros H. induction u as [|c u IH]; [reflexivity|]. simpl in H.
  apply andb_true_iff in H as [Hc Hu]. apply negb_true_iff in Hc.
  change (includes (amp :: k) ((c :: u) ++ x))
    with (startsWith (amp :: k) (c :: u ++ x) || includes (amp :: k) (u ++ x)).
  rewrite (IH Hu). cbn [startsWith]. rewrite N.eqb_sym, Hc. reflexivity.
Qed.

Lemma replaceEntities_no_key k s :
  In k entityNames -> includes k (replaceEntities s) = false.
Proof.
  intros Hk. destruct (entityNames_shape k Hk) as (lk & Hnek & Hlk & ->).
  induction s as [|c t Hno IH|l r Hne Hl IH] using replaceEntities_cases.
  - reflexivity.
  - rewrite (replaceEntities_nomatch _ _ Hno).
    rewrite includes_unfold, IH, orb_false_r.
    destruct (startsWith _ (c :: replaceEntities t)) eqn:E; [|reflexivity].
    destruct (startsWith_entity lk _ Hnek Hlk E) as (r & _ & Hm).
    rewrite (matchEntity_replaceEntities_None _ _ Hno) in Hm. discriminate.
  - rewrite (replaceEntities_match l r Hne Hl).
    destruct (entity_shape l Hne Hl) as (w & He & Hw).
    assert (Htail :
      includes (amp :: lk ++ [semi]) (entity (amp :: l ++ [semi]) ++ replaceEntities r) =
      startsWith (amp :: lk ++ [semi]) (entity (amp :: l ++ [semi]) ++ replaceEntities r)
      || includes (amp :: lk ++ [semi]) (replaceEntities r)).
    { rewrite He, <- app_comm_cons, includes_unfold. f_equal.
      apply includes_noamp.
      rewrite forallb_app, (wordChar_not_amp w Hw). reflexivity. }
    rewrite Htail, IH, orb_false_r. clear Htail.
    destruct (startsWith _ _) eqn:E; [|reflexivity]. exfalso.
    destruct (lookupEntity (amp :: l ++ [semi]) entityMap) as [v|] eqn:Ev.
    + rewrite (entity_mapped _ _ Ev) in E.
      apply lookupEntity_Some, entityMap_value in Ev as (_ & rest & -> & _).
      destruct lk as [|a lk]; [done|].
      assert (Ea : (a =? 35)%N = true).
      { cbn [startsWith app] in E. apply andb_true_iff in E as [_ E].
        apply andb_true_iff in E as [E _]. exact E. }
      apply N.eqb_eq in Ea. subst a. discriminate.
    + rewrite (entity_unmapped _ Ev) in E.
      apply lookupEntity_None in Ev. apply Ev.
      rewrite <- (entity_app l) in E.
      destruct (startsWith_entity lk _ Hnek Hlk E) as (r' & Hy & _).
      injection Hy as Hy.
      assert (l = lk) as ->; [|exact Hk].
      clear -Hy Hl Hlk. revert lk Hlk Hy.
      induction l as [|a l IHl]; intros [|b lk] Hlk Hy; simpl in *.
      * reflexivity.
      * injection Hy as <- _. discriminate.
      * injection Hy as -> _. discriminate.
      * injection Hy as -> Hy.
        apply andb_true_iff in Hl as [_ Hl]. apply andb_true_iff in Hlk as [_ Hlk].
        f_equal. exact (IHl Hl lk Hlk Hy).
Qed.

Lemma replaceEntities_unchanged s :
  (forall k, In k entityNames -> includes k s = false) ->
  replaceEntities s = s.
Proof.
  induction s as [|c t Hno IH|l r Hne Hl IH] using replaceEntities_cases; intros H.
  - reflexivity.
  - rewrite (replaceEntities_nomatch _ _ Hno). f_equal. apply IH.
    intros k Hk. specialize (H k Hk). rewrite includes_unfold in H.
    apply orb_false_iff in H as [_ H]. exact H.
  - rewrite (replaceEntities_match l r Hne Hl).
    destruct (lookupEntity (amp :: l ++ [semi]) entityMap) as [v|] eqn:Ev.
    + exfalso. apply lookupEntity_Some in Ev.
      assert (Hk : In (amp :: l ++ [semi]) entityNames).
      { unfold entityNames. apply in_map_iff.
        exists (amp :: l ++ [semi], v). split; [reflexivity|exact Ev]. }
      specialize (H _ Hk).
      rewrite (entity_app l r), includes_unfold, startsWith_app in H. discriminate.
    + rewrite (entity_unmapped _ Ev), (entity_app l r). f_equal. apply IH.
      intros k Hk. destruct (includes k r) eqn:E; [|reflexivity].
      rewrite <- (H k Hk). symmetry. rewrite (entity_app l r).
      apply includes_app_r, E.
Qed.

Lemma replaceEntities_nonempty s : replaceEntities s = [] -> s = [].
Proof.
  destruct s as [|c t]; [done|].
  destruct (replaceEntities_head c t) as (t' & ->). discriminate.
Qed.

Lemma xmlns_plain : plainPattern xmlns = true.
Proof. vm_compute. reflexivity. Qed.

Lemma mathTag_plain : plainPattern mathTag = true.
Proof. vm_compute. reflexivity. Qed.

End Strings.

(** ** sanitizeMathML, latexToMathML and copyToWordClipboard *)

Section Sanitize.

Lemma sanitizeMathML_xmlns s :
  includes xmlns (sanitizeMathML s) = includes xmlns s || includes mathTag s.
Proof.
  unfold sanitizeMathML. rewrite (includes_replaceEntities _ _ xmlns_plain).
  destruct (includes xmlns s) eqn:E; cbn [negb orb]; [exact E|].
  destruct (includes mathTag s) eqn:Em.
  - destruct (replaceFirst_present mathTag (mathTag ++ lit " " ++ xmlns) s Em)
      as (pre & post & _ & ->).
    replace (pre ++ (mathTag ++ lit " " ++ xmlns) ++ post)
      with ((pre ++ mathTag ++ lit " ") ++ xmlns ++ post)
      by (rewrite <- !app_assoc; reflexivity).
    apply includes_occurrence.
  - rewrite replaceFirst_absent by exact Em. exact E.
Qed.

Lemma sanitizeMathML_no_key k v s :
  In (k, v) entityMap -> includes k (sanitizeMathML s) = false.
Proof.
  intros Hin. unfold sanitizeMathML. apply replaceEntities_no_key.
  unfold entityNames. apply in_map_iff. exists (k, v). done.
Qed.

Lemma sanitizeMathML_nonempty s : sanitizeMathML s = [] -> s = [].
Proof.
  unfold sanitizeMathML. intros H. apply replaceEntities_nonempty in H.
  destruct (includes xmlns s); cbn [negb] in H; [exact H|].
  destruct s as [|c t]; [reflexivity|]. exfalso.
  unfold replaceFirst in H. fold replaceFirst in H.
  destruct (startsWith mathTag (c :: t)); discriminate.
Qed.

(** X20.  After [sanitizeMathML] the markup carries the MathML namespace
    exactly when the input carried it already or holds [<math], the text the
    namespace is attached to; an input with neither comes back without
    it. *)
Theorem sanitizeMathML_namespace s :
  includes xmlns (sanitizeMathML s) = includes xmlns s || includes mathTag s.
Proof. exact (sanitizeMathML_xmlns s). Qed.

(** X21.  None of the thirteen named entities of [entityMap] occurs in the
    result of [sanitizeMathML], whatever the input: a replacement never forms
    a new entity with the text around it. *)
Theorem sanitizeMathML_entities s :
  forallb (fun kv => negb (includes kv.1 (sanitizeMathML s))) entityMap = true.
Proof.
  apply forallb_forall. intros [k v] Hin. simpl.
  rewrite (sanitizeMathML_no_key k v s Hin). reflexivity.
Qed.

(** X22.  [sanitizeMathML] is idempotent: cleaning cleaned markup changes
    nothing. *)
Theorem sanitizeMathML_idempotent s :
  sanitizeMathML (sanitizeMathML s) = sanitizeMathML s.
Proof.
  unfold sanitizeMathML at 1.
  destruct (includes xmlns (sanitizeMathML s)) eqn:E; cbn [negb].
  - unfold sanitizeMathML. apply replaceEntities_idempotent.
  - rewrite sanitizeMathML_xmlns in E. apply orb_false_iff in E as [Ex Em].
    assert (Hs : sanitizeMathML s = replaceEntities s).
    { unfold sanitizeMathML. rewrite Ex. cbn [negb].
      rewrite replaceFirst_absent by exact Em. reflexivity. }
    rewrite Hs.
    rewrite replaceFirst_absent
      by (rewrite (includes_replaceEntities _ _ mathTag_plain); exact Em).
    apply replaceEntities_idempotent.
Qed.

(** X23.  [sanitizeMathML] returns its input unchanged exactly when the
    input needs no namespace (it has one, or has no [<math]) and holds none
    of the thirteen named entities; entities outside the map and numeric
    ones are kept as they are. *)
Theorem sanitizeMathML_unchanged s :
  sanitizeMathML s = s <->
  (includes xmlns s || negb (includes mathTag s)) &&
  forallb (fun kv => negb (includes kv.1 s)) entityMap = true.
Proof.
  split.
  - intros H. apply andb_true_iff. split.
    + pose proof (sanitizeMathML_xmlns s) as Hx. rewrite H in Hx.
      destruct (includes xmlns s), (includes mathTag s); done.
    + apply forallb_forall. intros [k v] Hin. simpl.
      rewrite <- H, (sanitizeMathML_no_key k v s Hin). reflexivity.
  - intros H. apply andb_true_iff in H as [Hx Hk].
    assert (Hc : (if negb (includes xmlns s)
                  then replaceFirst mathTag (mathTag ++ lit " " ++ xmlns) s
                  else s) = s).
    { destruct (includes xmlns s); cbn [negb orb] in *; [reflexivity|].
      apply replaceFirst_absent. apply negb_true_iff, Hx. }
    unfold sanitizeMathML. rewrite Hc. apply replaceEntities_unchanged.
    intros k Hin. unfold entityNames in Hin.
    apply in_map_iff in Hin as ([k' v] & <- & Hin).
    apply negb_true_iff. exact (proj1 (forallb_forall _ _) Hk _ Hin).
Qed.

(** X24.  Copying what [latexToMathML] returns throws the error of line
    255 (No MathML to copy) exactly when the renderer threw or rendered the
    empty string; in every other case an item goes to the clipboard, with
    the sanitized markup inside the Word wrapper as HTML and the LaTeX
    source as plain text. *)
Theorem copy_of_conversion (renderToString : JSString -> option JSString) latex :
  (copyToWordClipboard (latexToMathML renderToString latex) latex
     = Thrown "No MathML to copy" <->
   renderToString latex = None \/ renderToString latex = Some []) /\
  (forall mathml, renderToString latex = Some mathml -> mathml <> [] ->
     copyToWordClipboard (latexToMathML renderToString latex) latex =
     Written (mkClipboardItem (htmlHead ++ sanitizeMathML mathml ++ htmlTail) latex)).
Proof.
  unfold latexToMathML. split.
  - destruct (renderToString latex) as [m|]; [|split; [left|]; reflexivity].
    destruct (sanitizeMathML m) as [|c t] eqn:E.
    + apply sanitizeMathML_nonempty in E. subst m. split; [right|]; reflexivity.
    + split; [discriminate|]. intros [H|[= ->]]; [discriminate|].
      discriminate E.
  - intros m -> Hne.
    destruct (sanitizeMathML m) as [|c t] eqn:E; [|reflexivity].
    apply sanitizeMathML_nonempty in E. done.
Qed.

End Sanitize.
